(** * Suo runtime: value encoding, heap, collector and bootstrap evaluator

    A shallow embedding of [suo-runtime.c].

    - Words are integers in [0, 2^32); the conversions between [word],
      [sword], [int] and pointers are written out, and pointers are 32
      bits wide, as the casts of the source assume.  Signed arithmetic
      that overflows wraps around.
    - Memory is a finite map from byte addresses to the words stored
      there.  A word that was never written (fresh [malloc] memory) has
      no entry, and a load of it is a fault, as is any access that is
      not aligned to four bytes.  Bytes are packed into words in
      little-endian order.
    - [malloc] is an oracle in the state.
    - The registered root locations are a list in the state; a protected
      C variable is read and written through its index in that list.
    - Every function that touches memory runs in a small monad of state
      and errors: [abort ()], undefined behaviour, and exhaustion of the
      bound on loop iterations are told apart.
    - The program is modelled as compiled without [DEBUG] and with
      [DEBUG_GC_BEFORE_ALLOC] set to 1, as in the source. *)

From stdpp Require Import gmap list.
From Stdlib Require Import ZArith Lia.
From Stdlib Require String Ascii.
Import String.StringSyntax.

Delimit Scope string_scope with string.

Open Scope Z_scope.

Set Warnings "-register-all".

(** ** Machine integers *)

(** Conversion to [word] (unsigned int, 32 bits). *)
Definition wrap (z : Z) : Z := z mod 2 ^ 32.

(** Conversion of a [word] to [sword] / [int] (two's complement). *)
Definition signed (w : Z) : Z := if w <? 2 ^ 31 then w else w - 2 ^ 32.

(** The result of an [int] computation: wrap-around on overflow. *)
Definition sint (z : Z) : Z := signed (wrap z).

(** Pointer arithmetic on [val *]: one element is four bytes, addresses
    are 32 bits wide. *)
Definition padd (p k : Z) : Z := wrap (p + 4 * k).

(** Pointer difference [p - q] of two [val *], in elements. *)
Definition pdiff (p q : Z) : Z := Z.quot (sint (p - q)) 4.

(** ** Values: tags and payloads *)

Definition val_make (payload shift tag : Z) : Z :=
  Z.lor (wrap (Z.shiftl payload shift)) tag.

Definition val_tag (v shift : Z) : Z := Z.land v (Z.shiftl 1 shift - 1).

Definition val_payload (v shift : Z) : Z := Z.shiftr v shift.

Definition val_signed_payload (v shift : Z) : Z :=
  wrap (Z.shiftr (signed v) shift).

Definition val_ptr_p (v : Z) : bool :=
  negb (val_tag v 2 =? 0) && negb (val_tag v 3 =? 7).

Definition val_ptr_make (ptr tag : Z) : Z := wrap (ptr + tag).

Definition val_ptr (v tag : Z) : Z := wrap (v - tag).

Definition val_ptr_any_tag (v : Z) : Z := Z.land v (Z.lnot 7).

Definition head_make (payload shift tag : Z) : Z :=
  wrap (wrap (Z.shiftl payload shift) + tag).

Definition head_tag (h shift : Z) : Z := Z.land h (Z.shiftl 1 shift - 1).

Definition head_payload (h shift : Z) : Z := Z.shiftr h shift.

Definition bool_f : Z := val_make 0 6 0x37.
Definition bool_t : Z := val_make 1 6 0x37.
Definition nil : Z := val_make 2 6 0x37.
Definition unspec : Z := val_make 3 6 0x37.

Definition chr_p (p : Z) : bool := val_tag p 6 =? 0x27.
Definition chr_make (code : Z) : Z := val_make code 6 0x27.
Definition chr_code (v : Z) : Z := signed (val_payload v 6).

Definition fixnum_min : Z := -536870912.
Definition fixnum_max : Z := 536870911.

Definition fixnum_p (v : Z) : bool := val_tag v 2 =? 0.
Definition fixnum_make (n : Z) : Z := val_make n 2 0.
Definition fixnum_num (v : Z) : Z := signed (val_signed_payload v 2).

Definition pair_p (v : Z) : bool := val_tag v 3 =? 1.
Definition vec_p (v : Z) : bool := val_tag v 3 =? 2.
Definition bytev_p (v : Z) : bool := val_tag v 3 =? 5.
Definition rec_p (v : Z) : bool := val_tag v 3 =? 3.

Definition rec_header_make (desc : Z) : Z := val_ptr_make (val_ptr desc 3) 6.

(** ** Machine state *)

Definition mem_size : Z := 217000.

(** [DEBUG_GC_BEFORE_ALLOC] is defined to 1 in the source. *)
Definition DEBUG_GC_BEFORE_ALLOC : bool := true.

Record state : Type := State {
  (** initialised words of memory, keyed by (4-aligned) byte address *)
  mem : gmap Z Z;
  mem_first : Z;
  mem_next : Z;
  mem_end : Z;
  mem_new_first : Z;
  mem_new_end : Z;
  mem_new_next : Z;
  (** the contents of the registered root locations: entry [i] is the
      current value of the C variable that [mem_roots[i]] points to, and
      the length of the list is [mem_n_roots] *)
  roots : list Z;
  (** [malloc]: the address returned by the k-th call, and the number of
      calls made so far *)
  malloc_base : nat → Z;
  malloc_count : nat;
  (** the value an uninitialised automatic variable is found to hold *)
  indeterminate : Z;
  (** bound on the iterations of any one [while] loop or [goto] cycle *)
  loop_bound : nat
}.

Definition set_mem (m : gmap Z Z) (s : state) : state :=
  State m (mem_first s) (mem_next s) (mem_end s) (mem_new_first s)
        (mem_new_end s) (mem_new_next s) (roots s) (malloc_base s)
        (malloc_count s) (indeterminate s) (loop_bound s).

Definition set_space (first next end_ : Z) (s : state) : state :=
  State (mem s) first next end_ (mem_new_first s)
        (mem_new_end s) (mem_new_next s) (roots s) (malloc_base s)
        (malloc_count s) (indeterminate s) (loop_bound s).

Definition set_mem_next (next : Z) (s : state) : state :=
  set_space (mem_first s) next (mem_end s) s.

Definition set_new_space (first next end_ : Z) (s : state) : state :=
  State (mem s) (mem_first s) (mem_next s) (mem_end s) first
        end_ next (roots s) (malloc_base s)
        (malloc_count s) (indeterminate s) (loop_bound s).

Definition set_mem_new_next (next : Z) (s : state) : state :=
  set_new_space (mem_new_first s) next (mem_new_end s) s.

Definition set_roots (r : list Z) (s : state) : state :=
  State (mem s) (mem_first s) (mem_next s) (mem_end s) (mem_new_first s)
        (mem_new_end s) (mem_new_next s) r (malloc_base s)
        (malloc_count s) (indeterminate s) (loop_bound s).

Definition set_malloc_count (k : nat) (s : state) : state :=
  State (mem s) (mem_first s) (mem_next s) (mem_end s) (mem_new_first s)
        (mem_new_end s) (mem_new_next s) (roots s) (malloc_base s)
        k (indeterminate s) (loop_bound s).

(** ** The monad *)

Inductive result (A : Type) : Type :=
| Ok (a : A) (s : state)  (** normal completion *)
| Abort                   (** [abort ()] was called *)
| Fault                   (** undefined behaviour, e.g. an uninitialised read *)
| Timeout.                (** a loop exceeded [loop_bound] *)

Arguments Ok {A} a s.
Arguments Abort {A}.
Arguments Fault {A}.
Arguments Timeout {A}.

Definition M (A : Type) : Type := state → result A.

Definition ret {A} (a : A) : M A := λ s, Ok a s.

Definition bind {A B} (m : M A) (k : A → M B) : M B :=
  λ s, match m s with
       | Ok a s' => k a s'
       | Abort => Abort
       | Fault => Fault
       | Timeout => Timeout
       end.

Notation "x <-- m ;; k" := (bind m (λ x, k))
  (at level 100, m at next level, right associativity).
Notation "m ;;; k" := (bind m (λ _, k))
  (at level 100, right associativity).

Definition abort {A} : M A := λ _, Abort.
Definition fault {A} : M A := λ _, Fault.
Definition get {A} (f : state → A) : M A := λ s, Ok (f s) s.
Definition modify (f : state → state) : M unit := λ s, Ok tt (f s).

(** [p[0]]: a load of an aligned, initialised word. *)
Definition load (p : Z) : M Z :=
  λ s, if p mod 4 =? 0
       then match mem s !! p with Some w => Ok w s | None => Fault end
       else Fault.

(** [p[0] = w]. *)
Definition store (p w : Z) : M unit :=
  λ s, if p mod 4 =? 0 then Ok tt (set_mem (<[p := w]> (mem s)) s) else Fault.

(** A [for] loop [for (i = from; i < from + n; i++) body (i)]. *)
Fixpoint for_loop (n : nat) (i : Z) (body : Z → M unit) : M unit :=
  match n with
  | O => ret tt
  | S n' => body i ;;; for_loop n' (i + 1) body
  end.

(** A [while] loop over a loop variable of type [A]: [body] returns
    [inl a'] to go round again and [inr b] to leave the loop. *)
Fixpoint while_fuel {A B} (fuel : nat) (body : A → M (A + B)) (a : A) : M B :=
  match fuel with
  | O => λ _, Timeout
  | S fuel' =>
      r <-- body a ;;
      match r with
      | inl a' => while_fuel fuel' body a'
      | inr b => ret b
      end
  end.

Definition while {A B} (body : A → M (A + B)) (a : A) : M B :=
  λ s, while_fuel (loop_bound s) body a s.

(** ** Heap objects seen through a raw pointer *)

Definition val_head (v tag : Z) : M Z := load (val_ptr v tag).

Definition pair_ptr_p (v : Z) : M bool :=
  v0 <-- load v ;;
  if head_tag v0 3 =? 7
  then ret ((head_tag v0 6 =? 0x27) || (head_tag v0 6 =? 0x37))
  else ret (negb (head_tag v0 3 =? 6)).

Definition vec_ptr_p (v : Z) : M bool :=
  v0 <-- load v ;; ret (head_tag v0 4 =? 15).

Definition vec_ptr_len (v : Z) : M Z :=
  v0 <-- load v ;; ret (head_payload v0 4).

Definition bytev_ptr_p (v : Z) : M bool :=
  v0 <-- load v ;; ret (head_tag v0 6 =? 7).

Definition bytev_ptr_len (v : Z) : M Z :=
  v0 <-- load v ;; ret (head_payload v0 6).

Definition code_ptr_p (v : Z) : M bool :=
  v0 <-- load v ;; ret (head_tag v0 6 =? 0x17).

Definition code_ptr_lit_begin (v : Z) : M Z :=
  l <-- bytev_ptr_len v ;; ret (wrap (l + 3) / 4).

Definition code_ptr_lit_end (v : Z) : M Z :=
  b <-- code_ptr_lit_begin v ;; load (padd v (wrap (b - 1))).

Definition rec_ptr_p (v : Z) : M bool :=
  v0 <-- load v ;; ret (head_tag v0 3 =? 6).

Definition rec_ptr_desc (v : Z) : M Z :=
  v0 <-- load v ;; ret (val_ptr_make (val_ptr v0 6) 3).

Definition pair_ptr (v : Z) : Z := val_ptr v 1.
Definition vec_ptr (v : Z) : Z := padd (val_ptr v 2) 1.
Definition rec_ptr (v : Z) : Z := padd (val_ptr v 3) 1.

Definition vec_len (v : Z) : M Z := vec_ptr_len (val_ptr v 2).
Definition bytev_len (v : Z) : M Z := bytev_ptr_len (val_ptr v 5).
Definition rec_desc (v : Z) : M Z := rec_ptr_desc (val_ptr v 3).

(** ** Memory allocation and garbage collection *)

(** [malloc (size)]: the next address of the oracle; 0 is [NULL]. *)
Definition malloc (size : Z) : M Z :=
  λ s, Ok (malloc_base s (malloc_count s))
          (set_malloc_count (S (malloc_count s)) s).

(** [free (p)] for a block of [size] bytes: its words become
    uninitialised. *)
Definition free (p size : Z) : M unit :=
  modify (λ s, set_mem (filter (λ kv, ¬ (p ≤ kv.1 < p + size)) (mem s)) s).

(** [memcpy (dst, src, 4 * n)], word by word; a word that is not
    initialised in the source is not initialised in the copy. *)
Fixpoint memcpy_words (n : nat) (dst src : Z) (m : gmap Z Z) : gmap Z Z :=
  match n with
  | O => m
  | S n' =>
      memcpy_words n' (padd dst 1) (padd src 1)
        (match m !! src with
         | Some w => <[dst := w]> m
         | None => delete dst m
         end)
  end.

Definition memcpy (dst src nbytes : Z) : M unit :=
  λ s, if (dst mod 4 =? 0) && (src mod 4 =? 0)
       then Ok tt (set_mem (memcpy_words (Z.to_nat (nbytes / 4)) dst src (mem s)) s)
       else Fault.

Definition get_root (i : nat) : M Z :=
  λ s, match roots s !! i with Some v => Ok v s | None => Fault end.

Definition set_root (i : nat) (v : Z) : M unit :=
  λ s, if decide (i < length (roots s))%nat
       then Ok tt (set_roots (<[i := v]> (roots s)) s)
       else Fault.

Definition mem_init : M unit :=
  first <-- malloc (mem_size * 4) ;;
  if first =? 0 then abort else
  modify (set_space first first (padd first mem_size)).

Definition mem_install_fwd_ptr (old new : Z) : M unit :=
  store old (val_ptr_make new 1).

Definition mem_follow_fwd_ptr (ptr : Z) : M Z :=
  w <-- load ptr ;;
  new_first <-- get mem_new_first ;;
  new_end <-- get mem_new_end ;;
  if (val_tag w 3 =? 1) && (new_first <=? val_ptr w 1) && (val_ptr w 1 <? new_end)
  then ret (val_ptr w 1)
  else ret ptr.

(** The size that [mem_copy] computes for the object at [ptr].  The local
    [size] is declared without initialiser, and the code-block branch
    reads it ([size += ...]) before anything was assigned to it. *)
Definition mem_copy_size (ptr : Z) : M Z :=
  size0 <-- get indeterminate ;;
  p <-- pair_ptr_p ptr ;;
  if p then ret 2 else
  p <-- vec_ptr_p ptr ;;
  if p then (l <-- vec_ptr_len ptr ;; ret (sint (l + 1))) else
  p <-- bytev_ptr_p ptr ;;
  if p then (l <-- bytev_ptr_len ptr ;; ret (sint (wrap (l + 3) / 4 + 1))) else
  p <-- code_ptr_p ptr ;;
  if p then (e <-- code_ptr_lit_end ptr ;; ret (sint (size0 + (e + 1)))) else
  p <-- rec_ptr_p ptr ;;
  if p then
    (d <-- rec_ptr_desc ptr ;;
     desc_ptr <-- mem_follow_fwd_ptr (val_ptr d 3) ;;
     w <-- load (padd desc_ptr 1) ;;
     ret (sint (Z.abs (fixnum_num w) + 1)))
  else abort.

Definition mem_copy (v : Z) : M Z :=
  if negb (val_ptr_p v) then ret v else
  let ptr := val_ptr_any_tag v in
  new_ptr <-- mem_follow_fwd_ptr ptr ;;
  if negb (new_ptr =? ptr) then ret (val_ptr_make new_ptr (val_tag v 3)) else
  size <-- mem_copy_size ptr ;;
  new_ptr <-- get mem_new_next ;;
  modify (set_mem_new_next (padd new_ptr (Z.land (sint (size + 1)) (Z.lnot 1)))) ;;;
  memcpy new_ptr ptr (wrap (size * 4)) ;;;
  mem_install_fwd_ptr ptr new_ptr ;;;
  ret (val_ptr_make new_ptr (val_tag v 3)).

(** The first half of [mem_scan]: the address of the first slot to scan
    and the number of slots. *)
Definition mem_scan_extent (ptr : Z) : M (Z * Z) :=
  p <-- pair_ptr_p ptr ;;
  if p then ret (ptr, 2) else
  p <-- vec_ptr_p ptr ;;
  if p then (l <-- vec_ptr_len ptr ;; ret (padd ptr 1, signed l)) else
  p <-- bytev_ptr_p ptr ;;
  if p then
    (l <-- bytev_ptr_len ptr ;; ret (padd ptr (wrap (wrap (l + 3) / 4 + 1)), 0))
  else
  p <-- code_ptr_p ptr ;;
  if p then
    (b <-- code_ptr_lit_begin ptr ;;
     e <-- code_ptr_lit_end ptr ;;
     ret (padd ptr (signed b), sint (signed e - signed b)))
  else
  p <-- rec_ptr_p ptr ;;
  if p then
    (d <-- rec_ptr_desc ptr ;;
     desc <-- mem_copy d ;;
     store ptr (rec_header_make desc) ;;;
     w <-- load (rec_ptr desc) ;;
     let size := fixnum_num w in
     let ptr := padd ptr 1 in
     if size <? 0 then ret (padd ptr size, 0) else ret (ptr, size))
  else abort.

Definition mem_scan (ptr : Z) : M Z :=
  ps <-- mem_scan_extent ptr ;;
  let '(ptr, size) := ps in
  for_loop (Z.to_nat size) 0
    (λ i, x <-- load (padd ptr i) ;; y <-- mem_copy x ;; store (padd ptr i) y) ;;;
  ret (Z.land (padd (padd ptr size) 1) (Z.lnot 7)).

(** [mem_gc], as compiled without [DEBUG] (the calls of [mem_check] and
    the [dbg] line are compiled out), in its three phases: the new
    semispace is obtained and the roots are copied into it; the new
    semispace is scanned; the old semispace is released. *)
Definition mem_gc_begin : M unit :=
  new_first <-- malloc (mem_size * 4) ;;
  if new_first =? 0 then abort else
  modify (set_new_space new_first new_first (padd new_first mem_size)) ;;;
  n_roots <-- get (λ s, length (roots s)) ;;
  for_loop n_roots 0
    (λ i, v <-- get_root (Z.to_nat i) ;; v' <-- mem_copy v ;;
          set_root (Z.to_nat i) v').

Definition mem_gc_scan : M unit :=
  new_first <-- get mem_new_first ;;
  while (λ ptr, new_next <-- get mem_new_next ;;
                if ptr <? new_next
                then (ptr' <-- mem_scan ptr ;; ret (inl ptr'))
                else ret (inr tt)) new_first.

Definition mem_gc_finish (n : Z) : M Z :=
  old <-- get mem_first ;;
  free old (mem_size * 4) ;;;
  modify (λ s, set_space (mem_new_first s) (mem_new_next s) (mem_new_end s) s) ;;;
  modify (λ s, set_new_space 0 (mem_new_next s) (mem_new_end s) s) ;;;
  new_end <-- get mem_new_end ;;
  new_next <-- get mem_new_next ;;
  if pdiff new_end new_next <? n then abort else
  get mem_next.

Definition mem_gc (n : Z) : M Z :=
  mem_gc_begin ;;; mem_gc_scan ;;; mem_gc_finish n.

Definition mem_alloc (n : Z) : M Z :=
  ptr <-- get mem_next ;;
  end_ <-- get mem_end ;;
  ptr <-- (if (padd ptr n >? end_) || DEBUG_GC_BEFORE_ALLOC
           then mem_gc n else ret ptr) ;;
  modify (set_mem_next (padd ptr (Z.land (sint (n + 1)) (Z.lnot 1)))) ;;;
  ret ptr.

(** ** Checking the heap *)

(** [shadow_heap[i]]: the shadow array has [mem_size] entries, all zeroed
    by [memset] before the first pass. *)
Definition shadow_ref (shadow : gmap Z Z) (i : Z) : M Z :=
  if (0 <=? i) && (i <? mem_size) then ret (default 0 (shadow !! i)) else fault.

(** The size that the first pass of [mem_check] records for the object
    at [ptr]. *)
Definition mem_check_size (ptr : Z) : M Z :=
  p <-- pair_ptr_p ptr ;;
  if p then ret 2 else
  p <-- vec_ptr_p ptr ;;
  if p then (l <-- vec_ptr_len ptr ;; ret (wrap (l + 1))) else
  p <-- bytev_ptr_p ptr ;;
  if p then (l <-- bytev_ptr_len ptr ;; ret (wrap (wrap (l + 3) / 4 + 1))) else
  p <-- code_ptr_p ptr ;;
  if p then (e <-- code_ptr_lit_end ptr ;; ret (wrap (e + 1))) else
  p <-- rec_ptr_p ptr ;;
  if p then
    (desc <-- rec_ptr_desc ptr ;;
     if negb (rec_p desc) then abort else
     w <-- load (rec_ptr desc) ;;
     ret (wrap (fixnum_num w + 1)))
  else abort.

Definition mem_check_pass1 : M (gmap Z Z) :=
  first <-- get mem_first ;;
  while (λ st : Z * gmap Z Z,
           let '(ptr, shadow) := st in
           next <-- get mem_next ;;
           if ptr <? next then
             size <-- mem_check_size ptr ;;
             let i := pdiff ptr first in
             if (0 <=? i) && (i <? mem_size) then
               ret (inl (Z.land (padd (padd ptr size) 1) (Z.lnot 7),
                         <[i := size]> shadow))
             else fault
           else ret (inr shadow))
        (first, ∅).

(** The check of one value slot in the second pass.  The source reads
    [if (s == 0) abort;]: the function is named, not called, so the
    statement has no effect. *)
Definition mem_check_value (shadow : gmap Z Z) (v : Z) : M unit :=
  if val_ptr_p v then
    let p := val_ptr_any_tag v in
    first <-- get mem_first ;;
    end_ <-- get mem_end ;;
    if (p <? first) || (p >? end_) then abort else
    s <-- shadow_ref shadow (pdiff p first) ;;
    if s =? 0 then ret tt else ret tt
  else ret tt.

(** Where the value slots of the object at [ptr] begin, for the second
    pass; [size] is the shadow entry of the object. *)
Definition mem_check_skip (ptr size : Z) : M Z :=
  p <-- pair_ptr_p ptr ;;
  if p then ret ptr else
  p <-- vec_ptr_p ptr ;;
  if p then ret (padd ptr 1) else
  p <-- bytev_ptr_p ptr ;;
  if p then ret (padd ptr size) else
  p <-- code_ptr_p ptr ;;
  if p then (b <-- code_ptr_lit_begin ptr ;; ret (padd ptr (wrap (b + 1)))) else
  p <-- rec_ptr_p ptr ;;
  if p then ret (padd ptr 1) else abort.

Definition mem_check_pass2 (shadow : gmap Z Z) : M unit :=
  first <-- get mem_first ;;
  while (λ ptr,
           next <-- get mem_next ;;
           if ptr <? next then
             size <-- shadow_ref shadow (pdiff ptr first) ;;
             if size =? 0 then abort else
             let end_ := padd ptr size in
             ptr <-- mem_check_skip ptr size ;;
             while (λ ptr,
                      if ptr <? end_ then
                        v <-- load ptr ;;
                        mem_check_value shadow v ;;;
                        ret (inl (padd ptr 1))
                      else ret (inr tt)) ptr ;;;
             ret (inl (Z.land (padd end_ 1) (Z.lnot 7)))
           else ret (inr tt))
        first.

Definition mem_check : M unit :=
  shadow_heap <-- malloc (mem_size * 4) ;;
  if shadow_heap =? 0 then fault else
  shadow <-- mem_check_pass1 ;;
  mem_check_pass2 shadow.

(** ** Root protection *)

(** [GC_BEGIN] remembers [mem_n_roots]. *)
Definition GC_BEGIN : M nat := get (λ s, length (roots s)).

(** [GC_PROTECT (var)] registers the location of [var] in the next entry
    of [mem_roots], which has room for 200; the result is the index of the
    entry, through which the variable is read and written from then on. *)
Definition GC_PROTECT (v : Z) : M nat :=
  λ s, if decide (length (roots s) < 200)%nat
       then Ok (length (roots s)) (set_roots (roots s ++ [v]) s)
       else Fault.

(** [GC_END] resets [mem_n_roots]. *)
Definition GC_END (gc_start : nat) : M unit :=
  modify (λ s, set_roots (take gc_start (roots s)) s).

(** ** Bootstrap primitives *)

Definition pair_alloc : M Z :=
  ptr <-- mem_alloc 2 ;; ret (val_ptr_make ptr 1).

Definition vec_alloc (len : Z) : M Z :=
  ptr <-- mem_alloc (sint (len + 1)) ;;
  store ptr (head_make len 4 15) ;;;
  ret (val_ptr_make ptr 2).

Definition bytev_alloc (len : Z) : M Z :=
  ptr <-- mem_alloc (sint (wrap (len + 3) / 4 + 1)) ;;
  store ptr (head_make len 6 7) ;;;
  ret (val_ptr_make ptr 5).

Definition rec_alloc (len : Z) : M Z :=
  ptr <-- mem_alloc (sint (len + 1)) ;; ret (val_ptr_make ptr 3).

Definition rec_set_desc (v desc : Z) : M unit :=
  store (padd (rec_ptr v) (-1)) (rec_header_make desc).

Definition car (v : Z) : M Z := load (pair_ptr v).
Definition cdr (v : Z) : M Z := load (padd (pair_ptr v) 1).
Definition set_car (v x : Z) : M unit := store (pair_ptr v) x.
Definition set_cdr (v x : Z) : M unit := store (padd (pair_ptr v) 1) x.

Definition cons (a d : Z) : M Z :=
  gc_start <-- GC_BEGIN ;;
  a <-- GC_PROTECT a ;;
  d <-- GC_PROTECT d ;;
  v <-- pair_alloc ;;
  x <-- get_root a ;;
  set_car v x ;;;
  x <-- get_root d ;;
  set_cdr v x ;;;
  GC_END gc_start ;;;
  ret v.

Definition vec_ref (v i : Z) : M Z := load (padd (vec_ptr v) i).
Definition vec_set (v i x : Z) : M unit := store (padd (vec_ptr v) i) x.

Definition vec_make (len init : Z) : M Z :=
  gc_start <-- GC_BEGIN ;;
  init <-- GC_PROTECT init ;;
  v <-- vec_alloc len ;;
  for_loop (Z.to_nat len) 0 (λ i, x <-- get_root init ;; vec_set v i x) ;;;
  GC_END gc_start ;;;
  ret v.

Definition rec_ref (v i : Z) : M Z := load (padd (rec_ptr v) i).
Definition rec_set (v i x : Z) : M unit := store (padd (rec_ptr v) i) x.

Definition rec_len (v : Z) : M Z :=
  d <-- rec_desc v ;; w <-- rec_ref d 0 ;; ret (fixnum_num w).

(** [rec_make (type, ...)]: the variable arguments are given as a list;
    [va_arg] past its end is undefined.  The array [f] of the source is
    protected entry by entry, so [f[i]] is root [gc_start + 1 + i]. *)
Fixpoint rec_make_protect (n : nat) (args : list Z) : M unit :=
  match n with
  | O => ret tt
  | S n' =>
      match args with
      | [] => fault
      | a :: args' => GC_PROTECT a ;;; rec_make_protect n' args'
      end
  end.

Definition rec_make (type : Z) (args : list Z) : M Z :=
  w <-- rec_ref type 0 ;;
  let n := fixnum_num w in
  gc_start <-- GC_BEGIN ;;
  type <-- GC_PROTECT type ;;
  rec_make_protect (Z.to_nat n) args ;;;
  v <-- rec_alloc (wrap n) ;;
  t <-- get_root type ;;
  rec_set_desc v t ;;;
  for_loop (Z.to_nat n) 0
    (λ i, x <-- get_root (gc_start + 1 + Z.to_nat i) ;; rec_set v i x) ;;;
  GC_END gc_start ;;;
  ret v.

(** [memcpy] of the bytes of a C string to a word-aligned destination
    (little-endian).  A final word that receives fewer than four bytes
    stays partly uninitialised and so has no entry. *)
Fixpoint store_bytes (fuel : nat) (p : Z) (bs : list Z) : M unit :=
  match fuel with
  | O => ret tt
  | S fuel' =>
      match bs with
      | [] => ret tt
      | b0 :: b1 :: b2 :: b3 :: bs' =>
          store p (b0 + 2 ^ 8 * b1 + 2 ^ 16 * b2 + 2 ^ 24 * b3) ;;;
          store_bytes fuel' (padd p 1) bs'
      | _ => modify (λ s, set_mem (delete p (mem s)) s)
      end
  end.

(** The global variables of the bootstrap interpreter.  [boot_init]
    registers them first, so they are the first six root locations. *)
Definition boot_record_type_type : nat := 0.
Definition boot_string_type : nat := 1.
Definition boot_symbol_type : nat := 2.
Definition boot_function_type : nat := 3.
Definition boot_symbols : nat := 4.
Definition boot_dot_token : nat := 5.

Definition string_make (str : list Z) : M Z :=
  let n := Z.of_nat (length str) in
  b <-- bytev_alloc n ;;
  store_bytes (length str) (padd (val_ptr b 5) 1) str ;;;
  t <-- get_root boot_string_type ;;
  rec_make t [b].

Definition intern (str : list Z) : M Z :=
  s <-- string_make str ;;
  t <-- get_root boot_symbol_type ;;
  rec_make t [s].

Definition symbol_name (sym : Z) : M Z := rec_ref sym 0.

(** The bytes of a string literal. *)
Definition c_string (s : String.string) : list Z :=
  map (λ c, Z.of_N (Ascii.N_of_ascii c)) (String.list_ascii_of_string s).

Definition boot_init : M unit :=
  n_roots <-- get (λ s, length (roots s)) ;;
  if negb (n_roots =? 0)%nat then fault else
  GC_PROTECT nil ;;; GC_PROTECT nil ;;; GC_PROTECT nil ;;;
  GC_PROTECT nil ;;; GC_PROTECT nil ;;; GC_PROTECT nil ;;;
  v <-- rec_alloc 2 ;;
  set_root boot_record_type_type v ;;;
  rec_set_desc v v ;;;
  store (padd (rec_ptr v) 0) (fixnum_make 2) ;;;
  store (padd (rec_ptr v) 1) nil ;;;
  t <-- get_root boot_record_type_type ;;
  v <-- rec_make t [fixnum_make 1; nil] ;;
  set_root boot_string_type v ;;;
  t <-- get_root boot_record_type_type ;;
  v <-- rec_make t [fixnum_make 1; nil] ;;
  set_root boot_symbol_type v ;;;
  t <-- get_root boot_record_type_type ;;
  v <-- rec_make t [fixnum_make 2; nil] ;;
  set_root boot_function_type v ;;;
  v <-- vec_make 511 nil ;;
  set_root boot_symbols v ;;;
  v <-- string_make (c_string "{dot token}"%string) ;;
  set_root boot_dot_token v ;;;
  x <-- intern (c_string "record-type"%string) ;;
  t <-- get_root boot_record_type_type ;;
  rec_set t 1 x ;;;
  x <-- intern (c_string "string"%string) ;;
  t <-- get_root boot_string_type ;;
  rec_set t 1 x ;;;
  x <-- intern (c_string "symbol"%string) ;;
  t <-- get_root boot_symbol_type ;;
  rec_set t 1 x ;;;
  x <-- intern (c_string "function"%string) ;;
  t <-- get_root boot_function_type ;;
  rec_set t 1 x.

(** ** Bootstrap evaluator *)

Definition boot_op_if : Z := 0.
Definition boot_op_lambda : Z := 1.
Definition boot_op_call : Z := 2.
Definition boot_op_apply : Z := 3.
Definition boot_op_quote : Z := 4.
Definition boot_op_set : Z := 5.
Definition boot_op_sum : Z := 6.
Definition boot_op_mul : Z := 7.

(** A [for] loop that carries an accumulator (a local [int x]). *)
Fixpoint for_acc (n : nat) (i : Z) (body : Z → Z → M Z) (x : Z) : M Z :=
  match n with
  | O => ret x
  | S n' => x' <-- body i x ;; for_acc n' (i + 1) body x'
  end.

Definition boot_op_sum_func (vals : Z) : M Z :=
  len <-- vec_len vals ;;
  x <-- for_acc (Z.to_nat (len - 1)) 1
          (λ i x, w <-- vec_ref vals i ;; ret (sint (x + fixnum_num w))) 0 ;;
  ret (fixnum_make x).

Definition boot_op_mul_func (vals : Z) : M Z :=
  len <-- vec_len vals ;;
  x <-- for_acc (Z.to_nat (len - 1)) 1
          (λ i x, w <-- vec_ref vals i ;; ret (sint (x * fixnum_num w))) 1 ;;
  ret (fixnum_make x).

(** [boot_op_funcs[op]]: only the entries of [sum] and [mul] are set; a
    call through any other index is undefined. *)
Definition boot_op_funcs (op : Z) (vals : Z) : M Z :=
  if op =? boot_op_sum then boot_op_sum_func vals
  else if op =? boot_op_mul then boot_op_mul_func vals
  else fault.

(** The three labels of [boot_eval]. *)
Inductive label : Type := eval_form | do_op_step | use_value.

(** The locals of [boot_eval] that are not values. *)
Record regs : Type := Regs { top_op : Z; top_pos : Z }.

(** [while (up > 0) { f = cdr (f); up = up - 1; }] *)
Fixpoint env_up (up : nat) (f : Z) : M Z :=
  match up with
  | O => ret f
  | S up' => f' <-- cdr f ;; env_up up' f'
  end.

Section boot_eval.

(** [__gc_start] of [boot_eval]: its six protected locals are the root
    locations that follow. *)
Variable gc_start : nat.

Definition form : nat := gc_start.
Definition stack : nat := (gc_start + 1)%nat.
Definition env : nat := (gc_start + 2)%nat.
Definition top_result : nat := (gc_start + 3)%nat.
Definition top_form : nat := (gc_start + 4)%nat.
Definition value : nat := (gc_start + 5)%nat.

Definition PUSH (FORM : nat) (OP : Z) (r : regs) : M regs :=
  f <-- vec_alloc 3 ;;
  x <-- get_root top_form ;; vec_set f 0 x ;;;
  x <-- get_root top_result ;; vec_set f 1 x ;;;
  vec_set f 2 (fixnum_make (top_pos r)) ;;;
  s <-- get_root stack ;; c <-- cons f s ;; set_root stack c ;;;
  x <-- get_root FORM ;; set_root top_form x ;;;
  x <-- get_root FORM ;; l <-- vec_len x ;;
  v <-- vec_make l unspec ;; set_root top_result v ;;;
  ret (Regs OP 1).

Definition POP : M regs :=
  s <-- get_root stack ;; f <-- car s ;;
  x <-- vec_ref f 0 ;; set_root top_form x ;;;
  x <-- vec_ref f 1 ;; set_root top_result x ;;;
  x <-- vec_ref f 2 ;;
  let pos := fixnum_num x in
  tf <-- get_root top_form ;; x <-- vec_ref tf 0 ;;
  let op := fixnum_num x in
  s <-- get_root stack ;; d <-- cdr s ;; set_root stack d ;;;
  ret (Regs op pos).

Definition do_eval_form (r : regs) : M (label * regs) :=
  f <-- get_root form ;;
  if pair_p f then
    a <-- car f ;;
    let up := fixnum_num a in
    d <-- cdr f ;;
    let n := fixnum_num d in
    e <-- get_root env ;;
    fr <-- env_up (Z.to_nat up) e ;;
    c <-- car fr ;;
    x <-- vec_ref c (sint (n + 2)) ;;
    set_root value x ;;;
    ret (use_value, r)
  else if vec_p f then
    x <-- vec_ref f 0 ;;
    let op := fixnum_num x in
    if op =? boot_op_quote then
      x <-- vec_ref f 1 ;;
      set_root value x ;;;
      ret (use_value, r)
    else if op =? boot_op_lambda then
      t <-- get_root boot_function_type ;;
      body <-- vec_ref f 1 ;;
      e <-- get_root env ;;
      v <-- rec_make t [body; e] ;;
      set_root value v ;;;
      ret (use_value, r)
    else
      r' <-- PUSH form op r ;;
      ret (do_op_step, r')
  else
    set_root value f ;;;
    ret (use_value, r).

Definition do_do_op_step (r : regs) : M (label * regs) :=
  if top_op r =? boot_op_if then
    if top_pos r =? 1 then
      tf <-- get_root top_form ;;
      x <-- vec_ref tf (top_pos r) ;;
      set_root form x ;;;
      ret (eval_form, r)
    else
      tr <-- get_root top_result ;;
      c <-- vec_ref tr 1 ;;
      tf <-- get_root top_form ;;
      x <-- (if negb (c =? nil) then vec_ref tf 2 else vec_ref tf 3) ;;
      set_root form x ;;;
      r' <-- POP ;;
      ret (eval_form, r')
  else if top_op r =? boot_op_set then
    if top_pos r =? 1 then
      tf <-- get_root top_form ;;
      x <-- vec_ref tf 2 ;;
      set_root form x ;;;
      ret (eval_form, Regs (top_op r) 2)
    else
      tf <-- get_root top_form ;;
      c <-- vec_ref tf 1 ;;
      a <-- car c ;;
      let up := fixnum_num a in
      d <-- cdr c ;;
      let n := fixnum_num d in
      e <-- get_root env ;;
      f <-- env_up (Z.to_nat up) e ;;
      fm <-- get_root form ;;
      x <-- vec_ref fm 1 ;;
      set_root value x ;;;
      fr <-- car f ;;
      x <-- get_root value ;;
      vec_set fr (sint (n + 2)) x ;;;
      r' <-- POP ;;
      ret (use_value, r')
  else
    tf <-- get_root top_form ;;
    len <-- vec_len tf ;;
    if wrap (top_pos r) >=? len then
      if top_op r =? boot_op_call then
        tr <-- get_root top_result ;;
        func <-- vec_ref tr 1 ;;
        x <-- rec_ref func 0 ;;
        set_root form x ;;;
        tr <-- get_root top_result ;;
        e <-- rec_ref func 1 ;;
        c <-- cons tr e ;;
        set_root env c ;;;
        r' <-- POP ;;
        ret (eval_form, r')
      else if top_op r =? boot_op_apply then
        tr <-- get_root top_result ;;
        func <-- vec_ref tr 1 ;;
        x <-- rec_ref func 0 ;;
        set_root form x ;;;
        x <-- rec_ref func 1 ;;
        set_root env x ;;;
        tr <-- get_root top_result ;;
        x <-- vec_ref tr 2 ;;
        set_root value x ;;;
        v <-- get_root value ;;
        l <-- vec_len v ;;
        let l := signed l in
        f <-- vec_alloc (wrap (l + 2)) ;;
        for_loop (Z.to_nat l) 0
          (λ i, v <-- get_root value ;; x <-- vec_ref v i ;;
                vec_set f (sint (i + 2)) x) ;;;
        e <-- get_root env ;;
        c <-- cons f e ;;
        set_root env c ;;;
        r' <-- POP ;;
        ret (eval_form, r')
      else
        tr <-- get_root top_result ;;
        x <-- boot_op_funcs (top_op r) tr ;;
        set_root value x ;;;
        r' <-- POP ;;
        ret (use_value, r')
    else
      x <-- vec_ref tf (top_pos r) ;;
      set_root form x ;;;
      ret (eval_form, r).

Definition do_use_value (r : regs) : M (label * regs + Z) :=
  tr <-- get_root top_result ;;
  if tr =? nil then
    v <-- get_root value ;;
    GC_END gc_start ;;;
    ret (inr v)
  else
    v <-- get_root value ;;
    vec_set tr (top_pos r) v ;;;
    ret (inl (do_op_step, Regs (top_op r) (sint (top_pos r + 1)))).

(** One transfer of control: the code from a label to the next [goto]
    or [return]. *)
Definition boot_eval_step (c : label * regs) : M (label * regs + Z) :=
  match c.1 with
  | eval_form => c' <-- do_eval_form c.2 ;; ret (inl c')
  | do_op_step => c' <-- do_do_op_step c.2 ;; ret (inl c')
  | use_value => do_use_value c.2
  end.

End boot_eval.

(** The code of [boot_eval] before the label [eval_form]: the locals are
    initialised and protected, and the sentinel top frame is made.  The
    result is [__gc_start]. *)
Definition boot_eval_enter (form0 : Z) : M nat :=
  gc_start <-- GC_BEGIN ;;
  GC_PROTECT form0 ;;;
  GC_PROTECT nil ;;;
  GC_PROTECT nil ;;;
  GC_PROTECT nil ;;;
  GC_PROTECT nil ;;;
  GC_PROTECT nil ;;;
  set_root (top_result gc_start) nil ;;;
  v <-- vec_make 1 (fixnum_make boot_op_sum) ;;
  set_root (top_form gc_start) v ;;;
  ret gc_start.

Definition boot_eval (form0 : Z) : M Z :=
  gc_start <-- boot_eval_enter form0 ;;
  while (boot_eval_step gc_start) (eval_form, Regs boot_op_sum 1).

(** ** Runs of the program *)

(** What a run produced, without the final state. *)
Inductive outcome (A : Type) : Type :=
| Returned (a : A)
| Aborted
| Undefined
| Diverged.

Arguments Returned {A} a.
Arguments Aborted {A}.
Arguments Undefined {A}.
Arguments Diverged {A}.

Definition outcome_of {A} (r : result A) : outcome A :=
  match r with
  | Ok a _ => Returned a
  | Abort => Aborted
  | Fault => Undefined
  | Timeout => Diverged
  end.

(** The machine when [main] is entered: nothing allocated, no roots
    registered.  [malloc] hands out two regions in turn, as an allocator
    does that reuses the block released last. *)
Definition start_state (junk : Z) (bound : nat) : state :=
  State ∅ 0 0 0 0 0 0 []
        (λ k, if Nat.even k then 0x10000000 else 0x20000000) 0 junk bound.

(** Forms as the reader delivers them: immediate values, pairs and
    vectors. *)
Inductive form_tree : Type :=
| Imm (v : Z)
| Pair (a d : form_tree)
| Vec (l : list form_tree).

(** Builds a form in the heap with [cons], [vec_make] and [vec_set],
    keeping partial results in protected locations, in the manner of
    the reader's finishers. *)
Fixpoint build_form (x : form_tree) : M Z :=
  match x with
  | Imm v => ret v
  | Pair a d =>
      gc_start <-- GC_BEGIN ;;
      va <-- build_form a ;;
      ia <-- GC_PROTECT va ;;
      vd <-- build_form d ;;
      va <-- get_root ia ;;
      c <-- cons va vd ;;
      GC_END gc_start ;;;
      ret c
  | Vec l =>
      gc_start <-- GC_BEGIN ;;
      v <-- vec_make (Z.of_nat (length l)) unspec ;;
      iv <-- GC_PROTECT v ;;
      (fix fill (l : list form_tree) (i : Z) : M unit :=
         match l with
         | [] => ret tt
         | x :: l' =>
             vx <-- build_form x ;;
             v <-- get_root iv ;;
             vec_set v i vx ;;;
             fill l' (i + 1)
         end) l 0 ;;;
      v <-- get_root iv ;;
      GC_END gc_start ;;;
      ret v
  end.

Definition Fix (n : Z) : form_tree := Imm (fixnum_make n).
Definition Op (op : Z) (args : list form_tree) : form_tree := Vec (Fix op :: args).
Definition Quote (x : form_tree) : form_tree := Op boot_op_quote [x].
Definition Ref (up n : Z) : form_tree := Pair (Fix up) (Fix n).

(** [main], for one form: initialise, obtain the form, evaluate it. *)
Definition boot_run (x : form_tree) : M Z :=
  mem_init ;;; boot_init ;;; f <-- build_form x ;; boot_eval f.



(** The final state of a run, or the initial one if there is none. *)
Definition state_after {A} (m : M A) (s : state) : state :=
  match m s with
  | Ok _ s' => s'
  | _ => s
  end.

(** A heap whose only root is a raw record of three words, taken to the
    point of a collection where the roots have been copied and the scan
    is about to start.  The record's descriptor has -3 in field 0 and is
    an instance of a record type made the way [boot_init] makes
    [boot_record_type_type].  The result is the address of the record in
    the destination semispace. *)
Definition raw_record_scenario : M Z :=
  mem_init ;;;
  r <-- GC_PROTECT nil ;;
  t <-- GC_PROTECT nil ;;
  d <-- GC_PROTECT nil ;;
  v <-- rec_alloc 2 ;;
  set_root t v ;;;
  rec_set_desc v v ;;;
  store (padd (rec_ptr v) 0) (fixnum_make 2) ;;;
  store (padd (rec_ptr v) 1) nil ;;;
  v <-- get_root t ;;
  v <-- rec_make v [fixnum_make (-3); nil] ;;
  set_root d v ;;;
  v <-- rec_alloc 3 ;;
  x <-- get_root d ;;
  rec_set_desc v x ;;;
  rec_set v 0 0x11111111 ;;;
  rec_set v 1 0x22222222 ;;;
  rec_set v 2 0x33333333 ;;;
  set_root r v ;;;
  mem_gc_begin ;;;
  v <-- get_root r ;;
  ret (val_ptr v 3).

(** A heap whose only root is a code block with twelve bytes of code
    and two literals.  As the accessors have it, the code starts in word
    1, [code_ptr_lit_begin] is 3, the end index of the literals is read
    from word 2 and is 5, and the literals are words 3 and 4; the block
    has six words.  The result is the raw pointer to the block. *)
Definition code_block_scenario : M Z :=
  mem_init ;;;
  ptr <-- mem_alloc 6 ;;
  store ptr (head_make 12 6 0x17) ;;;
  store (padd ptr 1) 0x90909090 ;;;
  store (padd ptr 2) 5 ;;;
  store (padd ptr 3) (fixnum_make 1) ;;;
  store (padd ptr 4) (fixnum_make 2) ;;;
  store (padd ptr 5) (fixnum_make 3) ;;;
  GC_PROTECT (val_ptr_make ptr 5) ;;;
  ret ptr.

(** The number of words by which the root copying of a collection
    advances [mem_new_next]. *)
Definition words_copied_for_roots : M Z :=
  mem_gc_begin ;;;
  new_first <-- get mem_new_first ;;
  new_next <-- get mem_new_next ;;
  ret (pdiff new_next new_first).

(** A heap that holds one vector of three elements whose element 0 is a
    pair-tagged pointer to the third word of the vector itself: inside
    the heap, but not the start of any object. *)
Definition stray_pointer_scenario : M unit :=
  mem_init ;;;
  v <-- vec_make 3 (fixnum_make 0) ;;
  vec_set v 0 (val_ptr_make (padd (val_ptr v 2) 2) 1).

(** ** Allocation histories *)

Definition round_up_even (n : Z) : Z := n + n mod 2.

(** A step of the program between two allocations: whatever it does to
    memory and to the roots, it leaves the allocator's variables alone. *)
Definition mutator_step (s s' : state) : Prop :=
  mem_next s' = mem_next s ∧ malloc_base s' = malloc_base s.

(** [heap_trace s objs s']: the program ran from [s] to [s'] and its
    calls of [mem_alloc] produced [objs], each entry giving the size
    asked for, the pointer returned and [mem_next] after the call. *)
Inductive heap_trace : state → list (Z * Z * Z) → state → Prop :=
| trace_done s : heap_trace s [] s
| trace_mutate s s1 objs s2 :
    mutator_step s s1 → heap_trace s1 objs s2 → heap_trace s objs s2
| trace_alloc s n ptr s1 objs s2 :
    mem_alloc n s = Ok ptr s1 → heap_trace s1 objs s2 →
    heap_trace s ((n, ptr, mem_next s1) :: objs) s2.

(** [malloc] returns 8-aligned addresses that fit a 32-bit pointer. *)
Definition malloc_aligned (s : state) : Prop :=
  ∀ k, malloc_base s k mod 8 = 0 ∧ 0 ≤ malloc_base s k < 2 ^ 32.

(** The small integer that a mathematical integer wraps around to. *)
Definition fixnum_wrap (z : Z) : Z := (z + 2 ^ 29) mod 2 ^ 30 - 2 ^ 29.

(** A vector of three elements, [[sum 536870911 1]] as a result vector,
    at address 16 of an otherwise empty memory. *)
Definition small_vector_state : state :=
  set_mem (<[16 := head_make 3 4 15]>
             (<[20 := fixnum_make boot_op_sum]>
                (<[24 := fixnum_make 536870911]>
                   (<[28 := fixnum_make 1]> ∅))))
          (start_state 0 0).



(** The heap after [mem_init], after two allocations, and after an
    allocation made with one protected variable. *)
Definition fresh_heap : state := state_after mem_init (start_state 0 1000).
Definition fresh_heap_1 : state := state_after (mem_alloc 3) fresh_heap.
Definition fresh_heap_2 : state := state_after (mem_alloc 2) fresh_heap_1.
Definition fresh_heap_protected : state :=
  state_after (mem_alloc (3 + 1))
              (set_roots (roots fresh_heap ++ [nil]) fresh_heap).

(** ** Invariants of allocation and collection *)

(** [malloc] is aligned and [mem_next] is an 8-aligned 32-bit address. *)
Definition heap_aligned (s : state) : Prop :=
  malloc_aligned s ∧ mem_next s mod 8 = 0 ∧ 0 ≤ mem_next s < 2 ^ 32.

(** [m] relates the state it starts in to the state it returns in by [R]. *)
Definition respects (R : relation state) {A} (m : M A) : Prop :=
  ∀ s a s', m s = Ok a s' → R s s'.

(** What [mem_copy] and [mem_scan] leave as it is: the roots, [malloc],
    and the alignment and range of [mem_new_next]. *)
Definition copy_rel (s s' : state) : Prop :=
  malloc_base s' = malloc_base s ∧
  roots s' = roots s ∧
  mem_new_next s' mod 8 = mem_new_next s mod 8 ∧
  (0 ≤ mem_new_next s < 2 ^ 32 → 0 ≤ mem_new_next s' < 2 ^ 32).

(** What the copying of the roots leaves as it is: the number of roots
    and every root that is not a pointer. *)
Definition roots_rel (s s' : state) : Prop :=
  malloc_base s' = malloc_base s ∧
  length (roots s') = length (roots s) ∧
  (∀ i v, roots s !! i = Some v → val_ptr_p v = false → roots s' !! i = Some v) ∧
  mem_new_next s' mod 8 = mem_new_next s mod 8 ∧
  (0 ≤ mem_new_next s < 2 ^ 32 → 0 ≤ mem_new_next s' < 2 ^ 32).

(** Where the result [p] of an allocation lies, and what the allocation
    leaves as it is. *)
Definition alloc_post (s : state) (p : Z) (s' : state) : Prop :=
  p mod 8 = 0 ∧ 0 ≤ p < 2 ^ 32 ∧
  malloc_base s' = malloc_base s ∧
  length (roots s') = length (roots s) ∧
  (∀ i v, roots s !! i = Some v → val_ptr_p v = false → roots s' !! i = Some v).

(** ** The reader: small-integer literals *)

(** [isdigit] of the C library, in the C locale. *)
Definition isdigit (c : Z) : bool := (48 <=? c) && (c <=? 57).

(** [boot_read_to_fixnum (tok, n)].  The argument [buf] is the content of
    the byte vector [tok], so [ptr[i]] is [buf !! i], a pointer into the
    byte vector is an index, and a read outside the byte vector is
    undefined ([None]).  [fuel] bounds the iterations of the [while]
    loop.  The [sword] arithmetic wraps around.  The line printed with
    [unspec] is not modelled. *)
Fixpoint boot_read_to_fixnum_loop (fuel : nat) (buf : list Z) (sign end_ : Z)
    (ptr num : Z) : option Z :=
  match fuel with
  | O => None
  | S fuel' =>
      let after := if ptr =? end_ then Some (fixnum_make (sint (sign * num)))
                   else Some bool_f in
      if ptr <? end_ then
        match buf !! Z.to_nat ptr with
        | None => None
        | Some c =>
            if isdigit c then
              let num := sint (10 * num + (c - 48)) in
              if (sint (sign * num) <? fixnum_min)
                 || (sint (sign * num) >? fixnum_max)
              then Some unspec
              else boot_read_to_fixnum_loop fuel' buf sign end_ (ptr + 1) num
            else after
        end
      else after
  end.

Definition boot_read_to_fixnum (buf : list Z) (n : Z) : option Z :=
  match buf !! 0%nat with
  | None => None
  | Some c =>
      let '(sign, ptr) :=
        if c =? 45 then (-1, 1) else if c =? 43 then (1, 1) else (1, 0) in
      if ptr =? n then Some bool_f
      else boot_read_to_fixnum_loop (S (Z.to_nat n)) buf sign n ptr 0
  end.

(** The number that the decimal digits [ds] denote after the digits that
    gave [num], and the character of a digit. *)
Definition decimal (num : Z) (ds : list Z) : Z :=
  foldl (λ a d, 10 * a + d) num ds.

Definition digit_char (d : Z) : Z := 48 + d.

(** ** Further heaps and relations *)

(** [m] never calls [abort]. *)
Definition no_abort {A} (m : M A) : Prop := ∀ s, m s ≠ Abort.

(** What a collection leaves as it is until it switches the semispaces:
    everything but the memory, the roots and [mem_new_next]. *)
Definition space_rel (s s' : state) : Prop :=
  mem_first s' = mem_first s ∧ mem_next s' = mem_next s ∧
  mem_end s' = mem_end s ∧
  mem_new_first s' = mem_new_first s ∧ mem_new_end s' = mem_new_end s ∧
  malloc_base s' = malloc_base s ∧ malloc_count s' = malloc_count s ∧
  indeterminate s' = indeterminate s ∧ loop_bound s' = loop_bound s.

(** A heap that holds one vector of three small integers, no root, at
    the start of a collection: the destination semispace is there and
    nothing has been copied. *)
Definition collecting_heap : state :=
  state_after (vec_make 3 (fixnum_make 7) ;;; mem_gc_begin) fresh_heap.

(** The heap as the allocation inside [cons (1, nil)] leaves it, and as
    the allocation of the sentinel frame of [boot_eval (42)] leaves it. *)
Definition fresh_heap_consing : state :=
  state_after (mem_alloc 2)
    (set_roots ((roots fresh_heap ++ [fixnum_make 1]) ++ [nil]) fresh_heap).

Definition fresh_heap_entering : state :=
  state_after (mem_alloc 2)
    (set_roots ((roots fresh_heap ++ [fixnum_make 42; nil; nil; nil; nil; nil])
                  ++ [fixnum_make boot_op_sum]) fresh_heap).

(** A heap whose only object is a record type made the way [boot_init]
    makes [boot_record_type_type], which is its own descriptor; it is
    the only root.  Then the heap as the allocation inside [rec_make]
    of an instance with the fields 1 and [nil] leaves it. *)
Definition record_type_heap : state :=
  state_after
    (mem_init ;;;
     GC_PROTECT nil ;;;
     v <-- rec_alloc 2 ;;
     set_root boot_record_type_type v ;;;
     rec_set_desc v v ;;;
     store (padd (rec_ptr v) 0) (fixnum_make 2) ;;;
     store (padd (rec_ptr v) 1) nil)
    (start_state 0 1000).

Definition record_type_heap_making : state :=
  state_after (mem_alloc 3)
    (set_roots (roots record_type_heap ++ [0x20000003; fixnum_make 1; nil])
               record_type_heap).

(** ** The reader: constructs *)

Definition boot_read_finish_outer (x n : Z) (unused : list Z) : M Z :=
  if negb (n =? 1) then ret unspec else car x.

Definition boot_read_finish_list (x n : Z) (unused : list Z) : M Z := ret x.

Definition boot_read_finish_vector (x n : Z) (unused : list Z) : M Z :=
  gc_start <-- GC_BEGIN ;;
  x <-- GC_PROTECT x ;;
  z <-- vec_alloc (wrap n) ;;
  for_loop (Z.to_nat n) 0
    (λ i, v <-- get_root x ;; a <-- car v ;; vec_set z i a ;;;
          v <-- get_root x ;; d <-- cdr v ;; set_root x d) ;;;
  GC_END gc_start ;;;
  ret z.

Definition boot_read_finish_abbrev (x n : Z) (tag : list Z) : M Z :=
  gc_start <-- GC_BEGIN ;;
  x <-- GC_PROTECT x ;;
  z <-- intern tag ;;
  v <-- get_root x ;;
  z <-- cons z v ;;
  GC_END gc_start ;;;
  ret z.

Definition boot_read_finish_sharp_list (x n : Z) (unused : list Z) : M Z :=
  gc_start <-- GC_BEGIN ;;
  x <-- GC_PROTECT x ;;
  v <-- get_root x ;; c <-- cons v nil ;; set_root x c ;;;
  v <-- get_root x ;; c <-- cons nil v ;; set_root x c ;;;
  z <-- intern (c_string "fn"%string) ;;
  v <-- get_root x ;; c <-- cons z v ;; set_root x c ;;;
  v <-- get_root x ;;
  GC_END gc_start ;;;
  ret v.

Definition boot_read_finish_sharp_vector (x n : Z) (unused : list Z) : M Z :=
  gc_start <-- GC_BEGIN ;;
  x <-- GC_PROTECT x ;;
  v <-- get_root x ;; c <-- cons v nil ;; set_root x c ;;;
  z <-- intern (c_string "fn"%string) ;;
  v <-- get_root x ;; c <-- cons z v ;; set_root x c ;;;
  v <-- get_root x ;;
  GC_END gc_start ;;;
  ret v.

(** An entry of [boot_read_constructs]. *)
Record boot_read_construct : Type := Construct {
  opener : Z;
  closer : Z;
  finisher : option (Z → Z → list Z → M Z);
  data : list Z
}.

(** The table, with its terminating entry; a null [finisher] is [None]
    and a null [data] is the empty list. *)
Definition boot_read_constructs : list boot_read_construct :=
  [ Construct 32 0 (Some boot_read_finish_outer) [];
    Construct 40 41 (Some boot_read_finish_list) [];
    Construct 91 93 (Some boot_read_finish_vector) [];
    Construct 39 0 (Some boot_read_finish_abbrev) (c_string "quote"%string);
    Construct 1 41 (Some boot_read_finish_sharp_list) [];
    Construct 2 93 (Some boot_read_finish_sharp_vector) [];
    Construct 0 0 None [] ].

(** [boot_read_constructs[i]]; an index outside the table is
    undefined. *)
Definition boot_read_construct_ref (i : Z) : M boot_read_construct :=
  if i <? 0 then fault else
  match boot_read_constructs !! Z.to_nat i with
  | Some c => ret c
  | None => fault
  end.

Fixpoint boot_read_start_from (fuel : nat) (i : Z) (stack opener_ : Z) : M Z :=
  match fuel with
  | O => fault
  | S fuel' =>
      c <-- boot_read_construct_ref i ;;
      if opener c =? 0 then ret unspec else
      if opener c =? opener_ then
        gc_start <-- GC_BEGIN ;;
        stack <-- GC_PROTECT stack ;;
        y <-- cons (fixnum_make i) nil ;;
        s <-- get_root stack ;;
        c <-- cons y s ;;
        set_root stack c ;;;
        s <-- get_root stack ;;
        GC_END gc_start ;;;
        ret s
      else boot_read_start_from fuel' (i + 1) stack opener_
  end.

Definition boot_read_start (stack opener_ : Z) : M Z :=
  boot_read_start_from (length boot_read_constructs) 0 stack opener_.

Definition boot_read_delimiter (stack : Z) : M Z :=
  f <-- car stack ;;
  a <-- car f ;;
  c <-- boot_read_construct_ref (fixnum_num a) ;;
  ret (closer c).

Definition boot_read_add (stack x : Z) : M unit :=
  f <-- car stack ;;
  gc_start <-- GC_BEGIN ;;
  f <-- GC_PROTECT f ;;
  v <-- get_root f ;;
  d <-- cdr v ;;
  y <-- cons x d ;;
  v <-- get_root f ;;
  set_cdr v y ;;;
  GC_END gc_start.

(** The test [y != nil && cdr (y) != nil && car (cdr (y)) ==
    boot_dot_token]. *)
Definition boot_read_dotted (y : Z) : M bool :=
  if y =? nil then ret false else
  d <-- cdr y ;;
  if d =? nil then ret false else
  d <-- cdr y ;;
  a <-- car d ;;
  dot <-- get_root boot_dot_token ;;
  ret (a =? dot).

(** The body of the [while] loop of [boot_read_finish], on the locals
    [x], [y] and [n]. *)
Definition boot_read_finish_step (st : Z * Z * Z) : M (Z * Z * Z + Z * Z) :=
  let '(x, y, n) := st in
  if negb (y =? nil) then
    z <-- cdr y ;;
    set_cdr y x ;;;
    ret (inl (y, z, sint (n + 1)))
  else ret (inr (x, n)).

Definition boot_read_finish (stack : Z) : M Z :=
  f <-- car stack ;;
  y <-- cdr f ;;
  dotted <-- boot_read_dotted y ;;
  xy <-- (if dotted : bool
          then (x <-- car y ;; d <-- cdr y ;; y <-- cdr d ;; ret (x, y))
          else ret (nil, y)) ;;
  xn <-- while boot_read_finish_step (xy.1, xy.2, 0) ;;
  a <-- car f ;;
  c <-- boot_read_construct_ref (fixnum_num a) ;;
  match finisher c with
  | Some fin => fin xn.1 xn.2 (data c)
  | None => fault
  end.

(** A list in the heap: the pairs [cells.*1] in turn, with the elements
    [cells.*2] as their [car]s, linked by their [cdr]s and ending in
    [tl]. *)
Fixpoint heap_list (m : gmap Z Z) (v : Z) (cells : list (Z * Z)) (tl : Z) : Prop :=
  match cells with
  | [] => v = tl
  | c :: cells' =>
      v = c.1 ∧ m !! pair_ptr c.1 = Some c.2 ∧
      ∃ next, m !! padd (pair_ptr c.1) 1 = Some next ∧
              heap_list m next cells' tl
  end.

(** The pairs are distinct, 8-aligned and none of them is [nil]. *)
Definition cells_ok (cells : list (Z * Z)) : Prop :=
  NoDup ((λ c, pair_ptr c.1) <$> cells) ∧
  Forall (λ c, c.1 ≠ nil ∧ pair_ptr c.1 mod 8 = 0 ∧
               0 ≤ pair_ptr c.1 ∧ pair_ptr c.1 + 4 < 2 ^ 32) cells.

(** What [boot_read_finish] hands to the finisher for the cells [cells]
    that [boot_read_add] has accumulated, last element first: the
    cells of the list, to be reversed, and its tail.  When the second
    cell holds the dot token, the element of the first cell is the
    tail. *)
Definition boot_read_finish_parts (dot : Z) (cells : list (Z * Z))
  : list (Z * Z) * Z :=
  match cells with
  | c1 :: c2 :: cells' => if c2.2 =? dot then (cells', c1.2) else (cells, nil)
  | _ => (cells, nil)
  end.

(** The reader's stack after [(] and the three elements 1, 2 and 3, in
    a heap where the six globals of the interpreter are registered and
    still hold [nil]: [boot_read_start] pushes the frame of a list and
    [boot_read_add] adds the elements, the stack being protected as in
    [boot_read].  The result is the stack. *)
Definition reading_scenario : M Z :=
  mem_init ;;;
  GC_PROTECT nil ;;; GC_PROTECT nil ;;; GC_PROTECT nil ;;;
  GC_PROTECT nil ;;; GC_PROTECT nil ;;; GC_PROTECT nil ;;;
  stack <-- boot_read_start nil 40 ;;
  i <-- GC_PROTECT stack ;;
  boot_read_add stack (fixnum_make 1) ;;;
  stack <-- get_root i ;;
  boot_read_add stack (fixnum_make 2) ;;;
  stack <-- get_root i ;;
  boot_read_add stack (fixnum_make 3) ;;;
  get_root i.

Definition reading_heap : state :=
  state_after reading_scenario (start_state 0 1000).

(** A heap whose only root is a vector of three small integers. *)
Definition rooted_vector_heap : state :=
  state_after (v <-- vec_make 3 (fixnum_make 7) ;; GC_PROTECT v) fresh_heap.

(** [boot_eval] entered on the form [(0 . 0)], a reference to variable
    0 of the innermost frame, with an environment of one frame put in
    place of the empty one: a vector whose slot 2 holds the variable.
    The result is [__gc_start]. *)
Definition reference_scenario : M nat :=
  mem_init ;;;
  f <-- cons (fixnum_make 0) (fixnum_make 0) ;;
  g <-- boot_eval_enter f ;;
  fr <-- vec_make 3 (fixnum_make 5) ;;
  e <-- cons fr nil ;;
  set_root (env g) e ;;;
  ret g.

Definition reference_heap : state :=
  state_after reference_scenario (start_state 0 1000).

(** * Properties *)

(** ** Bit operations as arithmetic *)

Lemma val_tag_mod (v k : Z) : 0 ≤ k → val_tag v k = v mod 2 ^ k.
Proof.
  intros Hk. unfold val_tag.
  replace (Z.shiftl 1 k - 1) with (Z.ones k).
  - apply Z.land_ones; lia.
  - rewrite Z.ones_equiv, Z.shiftl_1_l. lia.
Qed.

Lemma head_tag_mod (h k : Z) : 0 ≤ k → head_tag h k = h mod 2 ^ k.
Proof. apply val_tag_mod. Qed.

Lemma land_lnot_ones (a k : Z) :
  0 ≤ k → Z.land a (Z.lnot (Z.ones k)) = 2 ^ k * (a / 2 ^ k).
Proof.
  intros Hk. rewrite <- Z.ldiff_land, Z.ldiff_ones_r by lia.
  rewrite Z.shiftl_mul_pow2, Z.shiftr_div_pow2 by lia. lia.
Qed.

Lemma land_lnot_7 (a : Z) : Z.land a (Z.lnot 7) = 8 * (a / 8).
Proof. apply (land_lnot_ones a 3). lia. Qed.

Lemma land_lnot_1 (a : Z) : Z.land a (Z.lnot 1) = 2 * (a / 2).
Proof. apply (land_lnot_ones a 1). lia. Qed.

Lemma wrap_range (z : Z) : 0 ≤ wrap z < 2 ^ 32.
Proof. unfold wrap. apply Z.mod_pos_bound. lia. Qed.

Lemma wrap_small (z : Z) : 0 ≤ z < 2 ^ 32 → wrap z = z.
Proof. unfold wrap. apply Z.mod_small. Qed.

Lemma sint_range (z : Z) : - 2 ^ 31 ≤ sint z < 2 ^ 31.
Proof.
  unfold sint, signed. pose proof (wrap_range z).
  destruct (wrap z <? 2 ^ 31) eqn:E; [apply Z.ltb_lt in E | apply Z.ltb_ge in E]; lia.
Qed.

Lemma sint_small (z : Z) : - 2 ^ 31 ≤ z < 2 ^ 31 → sint z = z.
Proof.
  intros Hz. unfold sint, signed, wrap.
  destruct (z mod 2 ^ 32 <? 2 ^ 31) eqn:E;
    [apply Z.ltb_lt in E | apply Z.ltb_ge in E];
    Z.div_mod_to_equations; lia.
Qed.

Lemma wrap_sint (z : Z) : wrap (sint z) = wrap z.
Proof.
  unfold sint, signed, wrap.
  destruct (z mod 2 ^ 32 <? 2 ^ 31); Z.div_mod_to_equations; lia.
Qed.

(** ** Reasoning in the monad *)

Lemma bind_Ok {A B} (m : M A) (k : A → M B) s a s1 :
  m s = Ok a s1 → bind m k s = k a s1.
Proof. intros H. unfold bind. by rewrite H. Qed.

Lemma bind_Ok_inv {A B} (m : M A) (k : A → M B) s b s' :
  bind m k s = Ok b s' → ∃ a s1, m s = Ok a s1 ∧ k a s1 = Ok b s'.
Proof. unfold bind. destruct (m s) as [a s1| | |]; try done. eauto. Qed.

Lemma load_Ok (p : Z) s w s' :
  load p s = Ok w s' → s' = s ∧ p mod 4 = 0 ∧ mem s !! p = Some w.
Proof.
  unfold load. destruct (p mod 4 =? 0) eqn:E; [|done].
  apply Z.eqb_eq in E. destruct (mem s !! p); [|done].
  intros [= -> ->]. done.
Qed.

Lemma load_intro (p w : Z) s :
  p mod 4 = 0 → mem s !! p = Some w → load p s = Ok w s.
Proof.
  intros Hp Hw. unfold load. apply Z.eqb_eq in Hp. by rewrite Hp, Hw.
Qed.

Lemma store_intro (p w : Z) s :
  p mod 4 = 0 → store p w s = Ok tt (set_mem (<[p := w]> (mem s)) s).
Proof. intros Hp. unfold store. apply Z.eqb_eq in Hp. by rewrite Hp. Qed.

(** ** Value encoding *)

(** C3, as the code has it.  [val_ptr_p v] holds exactly when the low two
    bits of [v] are not zero and the low three bits are not 111, that is,
    when the low three bits are one of 001, 010, 011, 101 and 110: the
    tag 110 of a record-descriptor header counts as a pointer. *)
Theorem val_ptr_p_low3 (v : Z) :
  (val_ptr_p v = true ↔ val_tag v 2 ≠ 0 ∧ val_tag v 3 ≠ 7) ∧
  (val_ptr_p v = true ↔
     v mod 8 = 1 ∨ v mod 8 = 2 ∨ v mod 8 = 3 ∨ v mod 8 = 5 ∨ v mod 8 = 6) ∧
  val_ptr_p (8 * v + 6) = true.
Proof.
  unfold val_ptr_p. rewrite !val_tag_mod by lia.
  change (2 ^ 2) with 4. change (2 ^ 3) with 8.
  rewrite !andb_true_iff, !negb_true_iff, !Z.eqb_neq.
  split; [tauto|]. split; Z.div_mod_to_equations; lia.
Qed.

(** C3 as stated fails at the word 6, whose low three bits are 110:
    [val_ptr_p] is true of it. *)
Lemma val_ptr_p_header_tag_counterexample :
  0 ≤ 6 < 2 ^ 32 ∧ 6 mod 8 = 6 ∧ val_ptr_p 6 = true ∧
  ¬ (val_ptr_p 6 = true ↔
       6 mod 8 = 1 ∨ 6 mod 8 = 2 ∨ 6 mod 8 = 3 ∨ 6 mod 8 = 5).
Proof.
  repeat split; try done.
  intros [H _]. specialize (H eq_refl).
  destruct H as [H|[H|[H|H]]]; discriminate H.
Qed.

(** C6.  For every first word [w] of a heap object, [pair_ptr_p] answers:
    if the low three bits of [w] are 111, true exactly for the six-bit
    tags 100111 (character) and 110111 (special value); if they are 110,
    false; in every other case true. *)
Theorem pair_ptr_p_spec (s : state) (ptr w : Z) :
  ptr mod 4 = 0 → mem s !! ptr = Some w →
  ∃ b, pair_ptr_p ptr s = Ok b s ∧
    (w mod 8 = 7 → (b = true ↔ w mod 64 = 39 ∨ w mod 64 = 55)) ∧
    (w mod 8 = 6 → b = false) ∧
    (w mod 8 ≠ 7 → w mod 8 ≠ 6 → b = true).
Proof.
  intros Hal Hw. unfold pair_ptr_p.
  rewrite (bind_Ok _ _ _ _ _ (load_intro _ _ _ Hal Hw)).
  rewrite !head_tag_mod by lia.
  change (2 ^ 3) with 8. change (2 ^ 6) with 64.
  destruct (w mod 8 =? 7) eqn:E7.
  - apply Z.eqb_eq in E7. eexists. split; [reflexivity|].
    rewrite orb_true_iff, !Z.eqb_eq. repeat split; try tauto; lia.
  - apply Z.eqb_neq in E7. eexists. split; [reflexivity|].
    rewrite negb_true_iff, negb_false_iff, Z.eqb_neq, Z.eqb_eq.
    repeat split; try tauto; lia.
Qed.

Lemma pair_ptr_p_spec_witness :
  ∃ b, pair_ptr_p 16 (set_mem {[16 := 183]} (start_state 0 0))
       = Ok b (set_mem {[16 := 183]} (start_state 0 0)) ∧
    (183 mod 8 = 7 → (b = true ↔ 183 mod 64 = 39 ∨ 183 mod 64 = 55)) ∧
    (183 mod 8 = 6 → b = false) ∧
    (183 mod 8 ≠ 7 → 183 mod 8 ≠ 6 → b = true).
Proof.
  apply (pair_ptr_p_spec (set_mem {[16 := 183]} (start_state 0 0)) 16 183).
  - reflexivity.
  - vm_compute. reflexivity.
Defined.

(** ** The collector at raw records and code blocks *)

Section header_tests.
Context (s : state) (ptr h : Z).
Hypothesis Hal : ptr mod 4 = 0.
Hypothesis Hh : mem s !! ptr = Some h.

Lemma pair_ptr_p_header :
  h mod 8 = 6 ∨ h mod 64 = 23 → pair_ptr_p ptr s = Ok false s.
Proof.
  intros Hm. unfold pair_ptr_p.
  rewrite (bind_Ok _ _ _ _ _ (load_intro _ _ _ Hal Hh)).
  rewrite !head_tag_mod by lia. change (2 ^ 3) with 8. change (2 ^ 6) with 64.
  destruct (Z.eqb_spec (h mod 8) 7) as [E|E].
  - destruct (Z.eqb_spec (h mod 64) 39), (Z.eqb_spec (h mod 64) 55);
      try reflexivity; exfalso; lia.
  - destruct (Z.eqb_spec (h mod 8) 6); [reflexivity|].
    exfalso. Z.div_mod_to_equations. lia.
Qed.

Lemma vec_ptr_p_header :
  h mod 8 = 6 ∨ h mod 64 = 23 → vec_ptr_p ptr s = Ok false s.
Proof.
  intros Hm. unfold vec_ptr_p.
  rewrite (bind_Ok _ _ _ _ _ (load_intro _ _ _ Hal Hh)).
  rewrite head_tag_mod by lia. change (2 ^ 4) with 16.
  destruct (Z.eqb_spec (h mod 16) 15); [|reflexivity].
  exfalso. Z.div_mod_to_equations. lia.
Qed.

Lemma bytev_ptr_p_header :
  h mod 8 = 6 ∨ h mod 64 = 23 → bytev_ptr_p ptr s = Ok false s.
Proof.
  intros Hm. unfold bytev_ptr_p.
  rewrite (bind_Ok _ _ _ _ _ (load_intro _ _ _ Hal Hh)).
  rewrite head_tag_mod by lia. change (2 ^ 6) with 64.
  destruct (Z.eqb_spec (h mod 64) 7); [|reflexivity].
  exfalso. Z.div_mod_to_equations. lia.
Qed.

Lemma code_ptr_p_header :
  code_ptr_p ptr s = Ok (h mod 64 =? 23) s.
Proof.
  unfold code_ptr_p.
  rewrite (bind_Ok _ _ _ _ _ (load_intro _ _ _ Hal Hh)).
  rewrite head_tag_mod by lia. reflexivity.
Qed.

Lemma rec_ptr_p_header : rec_ptr_p ptr s = Ok (h mod 8 =? 6) s.
Proof.
  unfold rec_ptr_p.
  rewrite (bind_Ok _ _ _ _ _ (load_intro _ _ _ Hal Hh)).
  rewrite head_tag_mod by lia. reflexivity.
Qed.

(** For every code block, the size that [mem_copy] computes is the end
    index of the literals plus one plus whatever the local [size] held. *)
Lemma mem_copy_size_code_block (e : Z) :
  h mod 64 = 23 → code_ptr_lit_end ptr s = Ok e s →
  mem_copy_size ptr s = Ok (sint (indeterminate s + (e + 1))) s.
Proof.
  intros Hm He. unfold mem_copy_size.
  rewrite (bind_Ok (get indeterminate) _ s (indeterminate s) s eq_refl).
  rewrite (bind_Ok _ _ _ _ _ (pair_ptr_p_header (or_intror Hm))).
  rewrite (bind_Ok _ _ _ _ _ (vec_ptr_p_header (or_intror Hm))).
  rewrite (bind_Ok _ _ _ _ _ (bytev_ptr_p_header (or_intror Hm))).
  rewrite (bind_Ok _ _ _ _ _ code_ptr_p_header), Hm.
  change (23 =? 23) with true. cbv iota.
  by rewrite (bind_Ok _ _ _ _ _ He).
Qed.

(** For every raw record, [mem_scan] returns the address that lies
    [fixnum_num w] words after the first payload word, rounded: the
    negative count moves the pointer backwards. *)
Lemma mem_scan_raw_record (desc : Z) (s1 : state) (w : Z) :
  h mod 8 = 6 →
  mem_copy (val_ptr_make (val_ptr h 6) 3) s = Ok desc s1 →
  rec_ptr desc mod 4 = 0 →
  <[ptr := rec_header_make desc]> (mem s1) !! rec_ptr desc = Some w →
  fixnum_num w < 0 →
  mem_scan ptr s
  = Ok (Z.land (padd (padd (padd (padd ptr 1) (fixnum_num w)) 0) 1) (Z.lnot 7))
       (set_mem (<[ptr := rec_header_make desc]> (mem s1)) s1).
Proof.
  intros Hm Hcopy Hdal Hw Hneg.
  assert (Hext : mem_scan_extent ptr s
                 = Ok (padd (padd ptr 1) (fixnum_num w), 0)
                      (set_mem (<[ptr := rec_header_make desc]> (mem s1)) s1)).
  { unfold mem_scan_extent.
    rewrite (bind_Ok _ _ _ _ _ (pair_ptr_p_header (or_introl Hm))).
    rewrite (bind_Ok _ _ _ _ _ (vec_ptr_p_header (or_introl Hm))).
    rewrite (bind_Ok _ _ _ _ _ (bytev_ptr_p_header (or_introl Hm))).
    rewrite (bind_Ok _ _ _ _ _ code_ptr_p_header).
    replace (h mod 64 =? 23) with false
      by (symmetry; apply Z.eqb_neq; Z.div_mod_to_equations; lia).
    rewrite (bind_Ok _ _ _ _ _ rec_ptr_p_header), Hm.
    change (6 =? 6) with true. cbv iota.
    assert (Hd : rec_ptr_desc ptr s = Ok (val_ptr_make (val_ptr h 6) 3) s).
    { unfold rec_ptr_desc. by rewrite (bind_Ok _ _ _ _ _ (load_intro _ _ _ Hal Hh)). }
    rewrite (bind_Ok _ _ _ _ _ Hd), (bind_Ok _ _ _ _ _ Hcopy).
    rewrite (bind_Ok _ _ _ _ _ (store_intro ptr _ s1 Hal)).
    rewrite (bind_Ok _ _ _ _ _
               (load_intro (rec_ptr desc) w
                  (set_mem (<[ptr := rec_header_make desc]> (mem s1)) s1) Hdal Hw)).
    apply Z.ltb_lt in Hneg. by rewrite Hneg. }
  unfold mem_scan. rewrite (bind_Ok _ _ _ _ _ Hext). reflexivity.
Qed.
End header_tests.

(** ** The collector on concrete heaps *)

(** C1, the code at a raw record.  In [raw_record_scenario] the record
    starts at 0x10000000 in the destination semispace and has three raw
    words.  [mem_scan] leaves the three words as they are, but it returns
    0x0FFFFFF8, eight bytes before the record, where the address after
    the header and the three words, rounded up to 8 bytes, is
    0x10000010: the negative field 0 is added to the pointer
    ([ptr += size]) instead of its magnitude.  The scan of the
    collection goes on from there, outside the semispace. *)
Theorem mem_scan_raw_record_backwards :
  outcome_of
    ((p <-- raw_record_scenario ;;
      q <-- mem_scan p ;;
      w0 <-- load (padd p 1) ;;
      w1 <-- load (padd p 2) ;;
      w2 <-- load (padd p 3) ;;
      ret (p, q, [w0; w1; w2])) (start_state 0 1000))
  = Returned (0x10000000, 0x0FFFFFF8, [0x11111111; 0x22222222; 0x33333333]) ∧
  Z.land (padd (padd 0x10000000 (1 + Z.abs (-3))) 1) (Z.lnot 7) = 0x10000010 ∧
  outcome_of ((raw_record_scenario ;;; mem_gc_scan) (start_state 0 1000))
  = Undefined.
Proof. repeat apply conj; vm_compute; reflexivity. Qed.

(** C2, the code at a code block.  The block of [code_block_scenario]
    has 12 bytes of code and 2 literals, so its size is 12/4 + 1 + 2 = 6
    words (the end index of the literals plus one), and a collection
    should advance [mem_new_next] by 6 words for it.  When the local
    [size] of [mem_copy] is found to hold 2, the size of a pair copied
    before, the size computed is 8 and 8 words are allocated and copied;
    the size is 6 only if [size] is found to hold 0. *)
Theorem mem_copy_code_block_size :
  outcome_of
    ((p <-- code_block_scenario ;;
      b <-- code_ptr_lit_begin p ;;
      e <-- code_ptr_lit_end p ;;
      ret (b, e)) (start_state 2 1000))
  = Returned (3, 5) ∧
  outcome_of ((p <-- code_block_scenario ;; mem_copy_size p) (start_state 2 1000))
  = Returned 8 ∧
  outcome_of ((code_block_scenario ;;; words_copied_for_roots) (start_state 2 1000))
  = Returned 8 ∧
  outcome_of ((p <-- code_block_scenario ;; mem_copy_size p) (start_state 0 1000))
  = Returned 6 ∧
  outcome_of ((code_block_scenario ;;; words_copied_for_roots) (start_state 0 1000))
  = Returned 6.
Proof. repeat apply conj; vm_compute; reflexivity. Qed.

(** C5, the code at a stray pointer.  In [stray_pointer_scenario] element
    0 of the vector is a pointer, its target lies between [mem_first] and
    [mem_next], and the shadow array holds 0 for the target; [mem_check]
    returns all the same. *)
Theorem mem_check_accepts_stray_pointer :
  outcome_of
    ((stray_pointer_scenario ;;;
      first <-- get mem_first ;;
      next <-- get mem_next ;;
      v <-- load (padd first 1) ;;
      shadow <-- mem_check_pass1 ;;
      s <-- shadow_ref shadow (pdiff (val_ptr_any_tag v) first) ;;
      ret (val_ptr_p v,
           (first <=? val_ptr_any_tag v) && (val_ptr_any_tag v <? next), s))
       (start_state 0 1000))
  = Returned (true, true, 0) ∧
  outcome_of ((stray_pointer_scenario ;;; mem_check) (start_state 0 1000))
  = Returned tt.
Proof. repeat apply conj; vm_compute; reflexivity. Qed.

(** Whatever the shadow array holds, the check of a value slot in the
    second pass of [mem_check] lets every pointer pass whose target lies
    in the heap. *)
Lemma mem_check_value_ignores_shadow (shadow : gmap Z Z) (v : Z) (s : state) :
  val_ptr_p v = true →
  mem_first s ≤ val_ptr_any_tag v ≤ mem_end s →
  0 ≤ pdiff (val_ptr_any_tag v) (mem_first s) < mem_size →
  mem_check_value shadow v s = Ok tt s.
Proof.
  intros Hp [Hlo Hhi] [Hi0 Hi1]. unfold mem_check_value. rewrite Hp.
  rewrite (bind_Ok (get mem_first) _ s (mem_first s) s eq_refl).
  rewrite (bind_Ok (get mem_end) _ s (mem_end s) s eq_refl).
  replace (val_ptr_any_tag v <? mem_first s) with false by (symmetry; lia).
  replace (val_ptr_any_tag v >? mem_end s) with false by (symmetry; lia).
  cbn [orb]. unfold shadow_ref.
  replace (0 <=? pdiff (val_ptr_any_tag v) (mem_first s)) with true by (symmetry; lia).
  replace (pdiff (val_ptr_any_tag v) (mem_first s) <? mem_size) with true
    by (symmetry; lia).
  cbn [andb]. unfold bind, ret. by destruct (_ =? 0).
Qed.

(** ** The evaluator on concrete forms *)

(** At [do_op_step] with a [set] on top whose second argument has been
    evaluated, the value written and returned is element 1 of the form
    evaluated last, not the value in the result vector. *)
Lemma do_op_step_set_reads_form (gc_start : nat) (r : regs) (s : state)
    (tf c a d e f fm x : Z) :
  top_op r = boot_op_set → top_pos r ≠ 1 →
  get_root (top_form gc_start) s = Ok tf s →
  vec_ref tf 1 s = Ok c s →
  car c s = Ok a s →
  cdr c s = Ok d s →
  get_root (env gc_start) s = Ok e s →
  env_up (Z.to_nat (fixnum_num a)) e s = Ok f s →
  get_root (form gc_start) s = Ok fm s →
  vec_ref fm 1 s = Ok x s →
  do_do_op_step gc_start r s
  = (set_root (value gc_start) x ;;;
     fr <-- car f ;;
     x <-- get_root (value gc_start) ;;
     vec_set fr (sint (fixnum_num d + 2)) x ;;;
     r' <-- POP gc_start ;;
     ret (use_value, r')) s.
Proof.
  intros Hop Hpos Htf Hc Ha Hd He Hf Hfm Hx.
  unfold do_do_op_step. rewrite Hop.
  change (boot_op_set =? boot_op_if) with false.
  change (boot_op_set =? boot_op_set) with true. cbv iota.
  apply Z.eqb_neq in Hpos. rewrite Hpos.
  rewrite (bind_Ok _ _ _ _ _ Htf), (bind_Ok _ _ _ _ _ Hc).
  rewrite (bind_Ok _ _ _ _ _ Ha), (bind_Ok _ _ _ _ _ Hd).
  rewrite (bind_Ok _ _ _ _ _ He), (bind_Ok _ _ _ _ _ Hf).
  rewrite (bind_Ok _ _ _ _ _ Hfm), (bind_Ok _ _ _ _ _ Hx).
  reflexivity.
Qed.


(** C4, the code at a [set] whose second argument is an operation.  The
    form [[call [lambda [set (0 . 0) [sum [quote 1] [quote 2]]]] [quote 0]]]
    yields 2, not 3, and after the [set] the slot holds 2 as well: the
    value is taken from element 1 of the form evaluated last
    ([vec_ref (form, 1)]), here [[quote 2]].  For a second argument that
    is not a vector the same read is not even aligned. *)
Theorem boot_eval_set_takes_last_form :
  outcome_of
    (boot_run
       (Op boot_op_call
          [Op boot_op_lambda
             [Op boot_op_set
                [Ref 0 0; Op boot_op_sum [Quote (Fix 1); Quote (Fix 2)]]];
           Quote (Fix 0)])
       (start_state 0 1000))
  = Returned (fixnum_make 2) ∧
  outcome_of
    (boot_run
       (Op boot_op_call
          [Op boot_op_lambda
             [Op boot_op_if
                [Op boot_op_set
                   [Ref 0 0; Op boot_op_sum [Quote (Fix 1); Quote (Fix 2)]];
                 Ref 0 0; Ref 0 0]];
           Quote (Fix 0)])
       (start_state 0 1000))
  = Returned (fixnum_make 2) ∧
  outcome_of
    (boot_run
       (Op boot_op_call
          [Op boot_op_lambda [Op boot_op_set [Ref 0 0; Ref 0 1]];
           Quote (Fix 0); Quote (Fix 7)])
       (start_state 0 1000))
  = Undefined ∧
  outcome_of
    (boot_run
       (Op boot_op_call
          [Op boot_op_lambda [Op boot_op_set [Ref 0 0; Fix 5]];
           Quote (Fix 0)])
       (start_state 0 1000))
  = Undefined.
Proof. repeat apply conj; vm_compute; reflexivity. Qed.

(** C7 as stated fails at [[sum [quote 536870911] [quote 1]]]: the sum
    536870912 is not a small integer, and the evaluator returns the small
    integer -536870912; likewise the product of 32768 and 32768 comes out
    as 0. *)
Lemma boot_eval_sum_overflow_counterexample :
  fixnum_max < 536870911 + 1 ∧
  outcome_of
    (boot_run (Op boot_op_sum [Quote (Fix 536870911); Quote (Fix 1)])
       (start_state 0 1000))
  = Returned (fixnum_make (-536870912)) ∧
  fixnum_make (-536870912) ≠ unspec ∧
  fixnum_max < 32768 * 32768 ∧
  outcome_of
    (boot_run (Op boot_op_mul [Quote (Fix 32768); Quote (Fix 32768)])
       (start_state 0 1000))
  = Returned (fixnum_make 0).
Proof. repeat apply conj; try (vm_compute; reflexivity). vm_compute. discriminate. Qed.

(** ** Relations respected by the collector *)

Section respects.
Context (R : relation state) `{!PreOrder R}.
Hypothesis R_mem : ∀ s m, R s (set_mem m s).

Lemma respects_ret {A} (a : A) : respects R (ret a).
Proof. intros s a' s' [= _ <-]. reflexivity. Qed.

Lemma respects_abort {A} : respects R (@abort A).
Proof. intros s a s' [=]. Qed.

Lemma respects_fault {A} : respects R (@fault A).
Proof. intros s a s' [=]. Qed.

Lemma respects_get {A} (f : state → A) : respects R (get f).
Proof. intros s a s' [= _ <-]. reflexivity. Qed.

Lemma respects_bind {A B} (m : M A) (k : A → M B) :
  respects R m → (∀ a, respects R (k a)) → respects R (bind m k).
Proof.
  intros Hm Hk s b s' H. apply bind_Ok_inv in H as (a & s1 & H1 & H2).
  etrans; [by eapply Hm | by eapply Hk].
Qed.

Lemma respects_load (p : Z) : respects R (load p).
Proof. intros s w s' H. apply load_Ok in H as [-> _]. reflexivity. Qed.

Lemma respects_store (p w : Z) : respects R (store p w).
Proof.
  intros s a s'. unfold store. destruct (p mod 4 =? 0); [|done].
  intros [= _ <-]. apply R_mem.
Qed.

Lemma respects_memcpy (dst src n : Z) : respects R (memcpy dst src n).
Proof.
  intros s a s'. unfold memcpy.
  destruct ((dst mod 4 =? 0) && (src mod 4 =? 0)); [|done].
  intros [= _ <-]. apply R_mem.
Qed.

Lemma respects_for_loop (body : Z → M unit) (n : nat) :
  (∀ i, respects R (body i)) → ∀ i, respects R (for_loop n i body).
Proof.
  intros Hb. induction n as [|n IH]; intros i; cbn [for_loop].
  - apply respects_ret.
  - apply respects_bind; [apply Hb | intros _; apply IH].
Qed.

Lemma respects_while_fuel {A B} (body : A → M (A + B)) (fuel : nat) :
  (∀ a, respects R (body a)) → ∀ a, respects R (while_fuel fuel body a).
Proof.
  intros Hb. induction fuel as [|fuel IH]; intros a; cbn [while_fuel].
  - intros s b s' [=].
  - apply respects_bind; [apply Hb|].
    intros [a'|b]; [apply IH | apply respects_ret].
Qed.

Lemma respects_while {A B} (body : A → M (A + B)) (a : A) :
  (∀ a, respects R (body a)) → respects R (while body a).
Proof. intros Hb s b s' H. by eapply respects_while_fuel. Qed.
End respects.

Global Instance copy_rel_preorder : PreOrder copy_rel.
Proof.
  split.
  - intros s. unfold copy_rel. tauto.
  - intros s1 s2 s3 (Hb1 & Hr1 & Hm1 & Hn1) (Hb2 & Hr2 & Hm2 & Hn2).
    unfold copy_rel. rewrite Hb2, Hr2, Hm2. split_and!; auto.
Qed.

Lemma copy_rel_mem s m : copy_rel s (set_mem m s).
Proof. unfold copy_rel. cbn. tauto. Qed.

Ltac respects_step R_mem :=
  first
    [ apply (respects_ret _)
    | apply (respects_abort _)
    | apply (respects_fault _)
    | apply (respects_get _)
    | apply (respects_load _)
    | apply (respects_store _ R_mem)
    | apply (respects_memcpy _ R_mem)
    | apply (respects_bind _); [|intros ?]
    | match goal with
      | |- respects _ (if ?b then _ else _) => destruct b
      | |- respects _ (let '(_, _) := ?p in _) => destruct p
      end ].

Ltac copy_respects := repeat respects_step copy_rel_mem.


Lemma respects_pair_ptr_p v : respects copy_rel (pair_ptr_p v).
Proof. unfold pair_ptr_p. copy_respects. Qed.
Lemma respects_vec_ptr_p v : respects copy_rel (vec_ptr_p v).
Proof. unfold vec_ptr_p. copy_respects. Qed.
Lemma respects_vec_ptr_len v : respects copy_rel (vec_ptr_len v).
Proof. unfold vec_ptr_len. copy_respects. Qed.
Lemma respects_bytev_ptr_p v : respects copy_rel (bytev_ptr_p v).
Proof. unfold bytev_ptr_p. copy_respects. Qed.
Lemma respects_bytev_ptr_len v : respects copy_rel (bytev_ptr_len v).
Proof. unfold bytev_ptr_len. copy_respects. Qed.
Lemma respects_code_ptr_p v : respects copy_rel (code_ptr_p v).
Proof. unfold code_ptr_p. copy_respects. Qed.
Lemma respects_code_ptr_lit_begin v : respects copy_rel (code_ptr_lit_begin v).
Proof. unfold code_ptr_lit_begin. copy_respects. Qed.
Lemma respects_code_ptr_lit_end v : respects copy_rel (code_ptr_lit_end v).
Proof. unfold code_ptr_lit_end. copy_respects. Qed.
Lemma respects_rec_ptr_p v : respects copy_rel (rec_ptr_p v).
Proof. unfold rec_ptr_p. copy_respects. Qed.
Lemma respects_rec_ptr_desc v : respects copy_rel (rec_ptr_desc v).
Proof. unfold rec_ptr_desc. copy_respects. Qed.
Lemma respects_mem_follow_fwd_ptr p : respects copy_rel (mem_follow_fwd_ptr p).
Proof. unfold mem_follow_fwd_ptr. copy_respects. Qed.

Create HintDb copy_respects.
#[local] Hint Resolve respects_pair_ptr_p respects_vec_ptr_p respects_vec_ptr_len
  respects_bytev_ptr_p respects_bytev_ptr_len respects_code_ptr_p
  respects_code_ptr_lit_begin respects_code_ptr_lit_end respects_rec_ptr_p
  respects_rec_ptr_desc respects_mem_follow_fwd_ptr : copy_respects.

Lemma respects_mem_copy_size p : respects copy_rel (mem_copy_size p).
Proof. unfold mem_copy_size. copy_respects; auto with copy_respects. Qed.

Lemma copy_rel_bump s x :
  copy_rel s (set_mem_new_next (padd (mem_new_next s) (Z.land x (Z.lnot 1))) s).
Proof.
  unfold copy_rel. cbn. split_and!; [done|done| |].
  - rewrite land_lnot_1. unfold padd, wrap. Z.div_mod_to_equations. lia.
  - intros _. apply wrap_range.
Qed.

Lemma respects_mem_copy v : respects copy_rel (mem_copy v).
Proof.
  unfold mem_copy. destruct (negb (val_ptr_p v)); [apply (respects_ret _)|].
  apply (respects_bind _); [apply respects_mem_follow_fwd_ptr | intros new_ptr].
  destruct (negb _); [apply (respects_ret _)|].
  apply (respects_bind _); [apply respects_mem_copy_size | intros size].
  intros s v' s' H.
  apply bind_Ok_inv in H as (np & s1 & [= <- <-] & H).
  apply bind_Ok_inv in H as ([] & s2 & [= <-] & H).
  etrans; [apply (copy_rel_bump s (sint (size + 1)))|].
  assert (Ht : respects copy_rel
                 (memcpy (mem_new_next s) (val_ptr_any_tag v) (wrap (size * 4)) ;;;
                  mem_install_fwd_ptr (val_ptr_any_tag v) (mem_new_next s) ;;;
                  ret (val_ptr_make (mem_new_next s) (val_tag v 3))))
    by copy_respects.
  exact (Ht _ _ _ H).
Qed.
#[local] Hint Resolve respects_mem_copy : copy_respects.

Ltac scan_respects :=
  repeat first [ apply respects_mem_copy | respects_step copy_rel_mem ].

Lemma respects_mem_scan_extent p : respects copy_rel (mem_scan_extent p).
Proof. unfold mem_scan_extent. scan_respects. Qed.

Lemma respects_mem_scan p : respects copy_rel (mem_scan p).
Proof.
  unfold mem_scan.
  apply (respects_bind _); [apply respects_mem_scan_extent|].
  intros [ptr size]. apply (respects_bind _); [|intros ?; apply (respects_ret _)].
  apply (respects_for_loop _). intros i. scan_respects.
Qed.

Lemma respects_mem_gc_scan : respects copy_rel mem_gc_scan.
Proof.
  unfold mem_gc_scan. apply (respects_bind _); [apply (respects_get _)|].
  intros new_first. apply (respects_while _). intros ptr.
  apply (respects_bind _); [apply (respects_get _)|]. intros new_next.
  destruct (ptr <? new_next); [|apply (respects_ret _)].
  apply (respects_bind _); [apply respects_mem_scan|].
  intros ?; apply (respects_ret _).
Qed.

Global Instance roots_rel_preorder : PreOrder roots_rel.
Proof.
  split.
  - intros s. unfold roots_rel. tauto.
  - intros s1 s2 s3 (Hb1 & Hl1 & Hr1 & Hm1 & Hn1) (Hb2 & Hl2 & Hr2 & Hm2 & Hn2).
    unfold roots_rel. rewrite Hb2, Hl2, Hm2. split_and!; auto.
Qed.

Lemma copy_rel_roots_rel s s' : copy_rel s s' → roots_rel s s'.
Proof.
  intros (Hb & Hr & Hm & Hn). unfold roots_rel. rewrite Hr. split_and!; auto.
Qed.

Lemma mem_copy_not_ptr v s : val_ptr_p v = false → mem_copy v s = Ok v s.
Proof. intros H. unfold mem_copy. by rewrite H. Qed.

Lemma get_root_Ok i s v s' :
  get_root i s = Ok v s' → s' = s ∧ roots s !! i = Some v.
Proof.
  unfold get_root. destruct (roots s !! i); [|done]. by intros [= -> ->].
Qed.

Lemma set_root_Ok i v s a s' :
  set_root i v s = Ok a s' →
  s' = set_roots (<[i := v]> (roots s)) s ∧ (i < length (roots s))%nat.
Proof.
  unfold set_root. case_decide; [|done]. by intros [= _ <-].
Qed.

Lemma respects_copy_root (i : nat) :
  respects roots_rel (v <-- get_root i ;; v' <-- mem_copy v ;; set_root i v').
Proof.
  intros s a s' H.
  apply bind_Ok_inv in H as (v & s1 & Hg & H).
  apply get_root_Ok in Hg as [-> Hv].
  apply bind_Ok_inv in H as (v' & s2 & Hc & H).
  apply set_root_Ok in H as [-> Hi].
  pose proof (respects_mem_copy _ _ _ _ Hc) as (Hb & Hr & Hm & Hn).
  unfold roots_rel. cbn. rewrite length_insert, Hr. split_and!; auto.
  intros j w Hj Hw. destruct (decide (i = j)) as [<-|Hne].
  - assert (w = v) as -> by congruence.
    rewrite (mem_copy_not_ptr _ _ Hw) in Hc. injection Hc as <- <-.
    apply list_lookup_insert_eq. by eapply lookup_lt_Some.
  - by rewrite list_lookup_insert_ne.
Qed.

Lemma roots_rel_mem s m : roots_rel s (set_mem m s).
Proof. unfold roots_rel. cbn. tauto. Qed.

Lemma mem_gc_post (n : Z) s p s' :
  malloc_aligned s → mem_gc n s = Ok p s' →
  alloc_post s p s' ∧ mem_next s' = p.
Proof.
  intros Hal H. unfold mem_gc in H.
  apply bind_Ok_inv in H as ([] & s3 & Hbegin & H).
  apply bind_Ok_inv in H as ([] & s4 & Hscan & Hfin).
  (* the roots are copied *)
  unfold mem_gc_begin in Hbegin.
  apply bind_Ok_inv in Hbegin as (b & s1 & [= <- <-] & Hbegin).
  destruct (Hal (malloc_count s)) as [Hb8 Hb32].
  destruct (_ =? 0); [done|].
  apply bind_Ok_inv in Hbegin as ([] & s2 & [= <-] & Hbegin).
  apply bind_Ok_inv in Hbegin as (nr & s2' & [= <- <-] & Hbegin).
  apply (respects_for_loop roots_rel) in Hbegin;
    [|intros i; apply respects_copy_root].
  (* the new semispace is scanned *)
  apply respects_mem_gc_scan, copy_rel_roots_rel in Hscan.
  pose proof (transitivity Hbegin Hscan) as (Hmb & Hlen & Hroots & Hm8 & H32).
  cbn in Hmb, Hlen, Hroots, Hm8, H32.
  (* the old semispace is released *)
  unfold mem_gc_finish in Hfin.
  apply bind_Ok_inv in Hfin as (old & s5 & [= <- <-] & Hfin).
  apply bind_Ok_inv in Hfin as ([] & s5 & [= <-] & Hfin).
  apply bind_Ok_inv in Hfin as ([] & s6 & [= <-] & Hfin).
  apply bind_Ok_inv in Hfin as ([] & s7 & [= <-] & Hfin).
  apply bind_Ok_inv in Hfin as (ne & s8 & [= <- <-] & Hfin).
  apply bind_Ok_inv in Hfin as (nn & s9 & [= <- <-] & Hfin).
  destruct (_ <? n); [done|]. injection Hfin as <- <-. cbn.
  unfold alloc_post. cbn. split; [|done].
  split_and!; auto; lia.
Qed.

Lemma round_up_even_land (n : Z) :
  - 2 ^ 31 ≤ n < 2 ^ 31 - 1 → Z.land (sint (n + 1)) (Z.lnot 1) = round_up_even n.
Proof.
  intros Hn. rewrite sint_small by lia. rewrite land_lnot_1.
  unfold round_up_even. Z.div_mod_to_equations. lia.
Qed.

Lemma padd_even_aligned (p k : Z) :
  p mod 8 = 0 → padd p (Z.land k (Z.lnot 1)) mod 8 = 0.
Proof.
  intros Hp. rewrite land_lnot_1. unfold padd, wrap.
  Z.div_mod_to_equations. lia.
Qed.

Lemma mem_alloc_post (n : Z) s p s' :
  malloc_aligned s → mem_next s mod 8 = 0 → 0 ≤ mem_next s < 2 ^ 32 →
  mem_alloc n s = Ok p s' →
  alloc_post s p s' ∧
  mem_next s' = padd p (Z.land (sint (n + 1)) (Z.lnot 1)) ∧
  ∃ s1, (s1 = s ∨ mem_gc n s = Ok p s1) ∧ p = mem_next s1 ∧
        s' = set_mem_next (padd p (Z.land (sint (n + 1)) (Z.lnot 1))) s1.
Proof.
  intros Hal H8 H32 H. unfold mem_alloc in H.
  apply bind_Ok_inv in H as (ptr & s0 & [= <- <-] & H).
  apply bind_Ok_inv in H as (e & s0 & [= <- <-] & H).
  apply bind_Ok_inv in H as (ptr & s1 & Hgc & H).
  apply bind_Ok_inv in H as ([] & s2 & [= <-] & [= <- <-]).
  destruct (_ || _).
  - destruct (mem_gc_post _ _ _ _ Hal Hgc) as [Hpost Hnext].
    split_and!; [exact Hpost | done |].
    exists s1. split_and!; auto.
  - injection Hgc as <- <-. split_and!.
    + unfold alloc_post. split_and!; auto; lia.
    + done.
    + exists s. split_and!; auto.
Qed.


(** ** Allocation *)

Lemma heap_trace_aligned s objs s' :
  heap_aligned s → heap_trace s objs s' →
  heap_aligned s' ∧
  Forall (λ o : Z * Z * Z,
            let '(n, ptr, next) := o in
            ptr mod 8 = 0 ∧ next mod 8 = 0 ∧
            (- 2 ^ 31 ≤ n < 2 ^ 31 - 1 →
             next = padd ptr (round_up_even n) ∧
             round_up_even n mod 2 = 0 ∧ n ≤ round_up_even n ≤ n + 1)) objs.
Proof.
  intros Hs Ht. induction Ht as [s | s s1 objs s2 [Hn Hb] Ht IH
                                   | s n ptr s1 objs s2 Ha Ht IH].
  - split; [done | constructor].
  - apply IH. destruct Hs as (Hal & H8 & H32).
    unfold heap_aligned, malloc_aligned. rewrite Hn, Hb. done.
  - destruct Hs as (Hal & H8 & H32).
    destruct (mem_alloc_post _ _ _ _ Hal H8 H32 Ha)
      as ((Hp8 & Hp32 & Hmb & _) & Hnext & _).
    assert (Hs1 : heap_aligned s1).
    { unfold heap_aligned, malloc_aligned. rewrite Hmb, Hnext.
      split_and!; [done | by apply padd_even_aligned | apply wrap_range..]. }
    destruct (IH Hs1) as [Hs2 Hobjs]. split; [done|].
    constructor; [|done]. split_and!; [done | apply Hs1 |].
    intros Hrange. rewrite Hnext, round_up_even_land by done.
    unfold round_up_even. split_and!; [done | | |]; Z.div_mod_to_equations; lia.
Qed.

(** C8.  [mem_alloc n] returns the value that [mem_next] has before it is
    advanced (the value left by the collection, when one runs first) and
    advances [mem_next] by [n] rounded up to an even number of words.  So
    in every history of allocations that starts from an 8-aligned heap,
    every object returned starts at an 8-aligned address and has a
    footprint of an even number of words, and the heap stays aligned.
    The collector's own allocation in [mem_copy] keeps [mem_new_next]
    aligned in the same way. *)
Theorem mem_alloc_aligned :
  (∀ (n : Z) (s : state) (ptr : Z) (s' : state),
     - 2 ^ 31 ≤ n < 2 ^ 31 - 1 →
     mem_alloc n s = Ok ptr s' →
     ∃ s1, (s1 = s ∨ mem_gc n s = Ok ptr s1) ∧ ptr = mem_next s1 ∧
           s' = set_mem_next (padd ptr (round_up_even n)) s1) ∧
  (∀ (s : state) (objs : list (Z * Z * Z)) (s' : state),
     heap_aligned s → heap_trace s objs s' →
     heap_aligned s' ∧
     Forall (λ o : Z * Z * Z,
               let '(n, ptr, next) := o in
               ptr mod 8 = 0 ∧ next mod 8 = 0 ∧
               (- 2 ^ 31 ≤ n < 2 ^ 31 - 1 →
                next = padd ptr (round_up_even n) ∧
                round_up_even n mod 2 = 0 ∧ n ≤ round_up_even n ≤ n + 1)) objs) ∧
  (∀ (v : Z) (s : state) (v' : Z) (s' : state),
     mem_copy v s = Ok v' s' →
     mem_new_next s' mod 8 = mem_new_next s mod 8).
Proof.
  split; [|split; [apply heap_trace_aligned|]]; cycle 1.
  { intros v s v' s' H. by destruct (respects_mem_copy v s v' s' H) as (_ & _ & ? & _). }
  intros n s ptr s' Hn H. unfold mem_alloc in H.
  apply bind_Ok_inv in H as (p0 & s0 & [= <- <-] & H).
  apply bind_Ok_inv in H as (e & s0 & [= <- <-] & H).
  apply bind_Ok_inv in H as (p & s1 & Hgc & H).
  apply bind_Ok_inv in H as ([] & s2 & [= <-] & [= <- <-]).
  rewrite round_up_even_land by done. exists s1.
  destruct (_ || _).
  - split_and!; [by right | | done].
    unfold mem_gc in Hgc.
    apply bind_Ok_inv in Hgc as ([] & s3 & _ & Hgc).
    apply bind_Ok_inv in Hgc as ([] & s4 & _ & Hfin).
    unfold mem_gc_finish in Hfin.
    apply bind_Ok_inv in Hfin as (old & s5 & [= <- <-] & Hfin).
    apply bind_Ok_inv in Hfin as ([] & s5 & [= <-] & Hfin).
    apply bind_Ok_inv in Hfin as ([] & s6 & [= <-] & Hfin).
    apply bind_Ok_inv in Hfin as ([] & s7 & [= <-] & Hfin).
    apply bind_Ok_inv in Hfin as (ne & s8 & [= <- <-] & Hfin).
    apply bind_Ok_inv in Hfin as (nn & s9 & [= <- <-] & Hfin).
    destruct (_ <? n); [done|]. by injection Hfin as <- <-.
  - injection Hgc as <- <-. split_and!; auto.
Qed.

(** ** [vec_make] *)

Lemma padd_aligned (q j : Z) : q mod 4 = 0 → padd q j mod 4 = 0.
Proof. intros H. unfold padd, wrap. Z.div_mod_to_equations. lia. Qed.

Lemma padd_inj (q i j : Z) :
  0 ≤ i < 2 ^ 30 → 0 ≤ j < 2 ^ 30 → padd q i = padd q j → i = j.
Proof. unfold padd, wrap. intros Hi Hj H. Z.div_mod_to_equations. lia. Qed.

Lemma vec_fill_loop (v : Z) (idx : nat) (x : Z) (n : nat) :
  vec_ptr v mod 4 = 0 →
  ∀ (i : Z) (s : state),
    0 ≤ i → i + Z.of_nat n ≤ 2 ^ 30 →
    roots s !! idx = Some x →
    ∃ m',
      for_loop n i (λ i, x <-- get_root idx ;; vec_set v i x) s
      = Ok tt (set_mem m' s) ∧
      (∀ j, i ≤ j < i + Z.of_nat n → m' !! padd (vec_ptr v) j = Some x) ∧
      (∀ a, (∀ j, i ≤ j < i + Z.of_nat n → a ≠ padd (vec_ptr v) j) →
            m' !! a = mem s !! a).
Proof.
  intros Hal. induction n as [|n IH]; intros i s Hi Hn Hx.
  - exists (mem s). split_and!.
    + by destruct s.
    + intros j Hj. lia.
    + done.
  - cbn [for_loop].
    assert (Hbody : (x <-- get_root idx ;; vec_set v i x) s
                    = Ok tt (set_mem (<[padd (vec_ptr v) i := x]> (mem s)) s)).
    { unfold bind, get_root. rewrite Hx. unfold vec_set.
      apply store_intro. by apply padd_aligned. }
    rewrite (bind_Ok _ _ _ _ _ Hbody).
    destruct (IH (i + 1) (set_mem (<[padd (vec_ptr v) i := x]> (mem s)) s))
      as (m' & Hrun & Hin & Hout); [lia | lia | done |].
    exists m'. split_and!.
    + exact Hrun.
    + intros j Hj. destruct (decide (j = i)) as [->|Hne].
      * rewrite Hout; [cbn; apply lookup_insert_eq|].
        intros j Hj' Heq. apply padd_inj in Heq; lia.
      * apply Hin. lia.
    + intros a Ha. rewrite Hout.
      * cbn. apply lookup_insert_ne. intros Heq. by apply (Ha i); [lia|].
      * intros j Hj. apply Ha. lia.
Qed.

Lemma head_payload_make (len : Z) :
  0 ≤ len < 2 ^ 28 → head_payload (head_make len 4 15) 4 = len.
Proof.
  intros Hlen. unfold head_payload, head_make.
  rewrite Z.shiftl_mul_pow2, Z.shiftr_div_pow2 by lia.
  change (2 ^ 4) with 16. unfold wrap.
  Z.div_mod_to_equations. lia.
Qed.

(** [vec_alloc] writes the header only: a read of element 0 of the
    vector it returns finds no initialised word. *)
Lemma vec_alloc_leaves_slots_uninitialised :
  outcome_of ((v <-- vec_alloc 3 ;; vec_len v) fresh_heap) = Returned 3 ∧
  outcome_of ((v <-- vec_alloc 3 ;; vec_ref v 0) fresh_heap) = Undefined ∧
  outcome_of ((v <-- vec_make 3 nil ;; vec_ref v 0) fresh_heap) = Returned nil.
Proof. repeat apply conj; vm_compute; reflexivity. Qed.

(** C10.  Whenever the allocation inside [vec_make len init] succeeds,
    [vec_make] returns a vector [v] with [vec_len v = len] in which every
    slot [i < len] holds [init]: the content that the protected variable
    [init] has after the allocation, which is [init] itself unless [init]
    is a heap pointer that the collection has moved.  No slot is left
    uninitialised. *)
Theorem vec_make_spec (s : state) (len init ptr : Z) (s1 : state) :
  heap_aligned s → (length (roots s) < 200)%nat → 0 ≤ len < 2 ^ 28 →
  mem_alloc (len + 1) (set_roots (roots s ++ [init]) s) = Ok ptr s1 →
  ∃ (v : Z) (s2 : state) (init' : Z),
    vec_make len init s = Ok v s2 ∧
    roots s1 !! length (roots s) = Some init' ∧
    (val_ptr_p init = false → init' = init) ∧
    vec_len v s2 = Ok len s2 ∧
    (∀ i, 0 ≤ i < len → vec_ref v i s2 = Ok init' s2).
Proof.
  intros (Hal & H8 & H32) Hroom Hlen Halloc.
  set (sp := set_roots (roots s ++ [init]) s) in *.
  destruct (mem_alloc_post (len + 1) sp ptr s1 Hal H8 H32 Halloc)
    as ((Hp8 & Hp32 & _ & Hlen1 & Hkeep) & _ & _).
  cbn in Hlen1, Hkeep. rewrite length_app in Hlen1. cbn in Hlen1.
  destruct (lookup_lt_is_Some_2 (roots s1) (length (roots s))) as [init' Hinit'];
    [lia|].
  assert (Hp4 : ptr mod 4 = 0) by (Z.div_mod_to_equations; lia).
  assert (Hv : val_ptr (val_ptr_make ptr 2) 2 = ptr).
  { unfold val_ptr, val_ptr_make, wrap. Z.div_mod_to_equations. lia. }
  assert (Hvp4 : vec_ptr (val_ptr_make ptr 2) mod 4 = 0).
  { unfold vec_ptr. rewrite Hv. by apply padd_aligned. }
  set (h := head_make len 4 15).
  set (s1' := set_mem (<[ptr := h]> (mem s1)) s1).
  destruct (vec_fill_loop (val_ptr_make ptr 2) (length (roots s)) init'
              (Z.to_nat len) Hvp4 0 s1')
    as (m' & Hrun & Hin & Hout); [lia | lia | done |].
  exists (val_ptr_make ptr 2),
         (set_roots (take (length (roots s)) (roots s1)) (set_mem m' s1')), init'.
  assert (Hslot : ∀ j, 0 ≤ j < len → ptr ≠ padd (vec_ptr (val_ptr_make ptr 2)) j).
  { intros j Hj. unfold vec_ptr. rewrite Hv. unfold padd, wrap.
    Z.div_mod_to_equations. lia. }
  split_and!.
  - assert (Hprot : GC_PROTECT init s = Ok (length (roots s)) sp).
    { unfold GC_PROTECT. by rewrite decide_True. }
    assert (Hva : vec_alloc len sp = Ok (val_ptr_make ptr 2) s1').
    { unfold vec_alloc. rewrite sint_small by lia.
      rewrite (bind_Ok _ _ _ _ _ Halloc).
      by rewrite (bind_Ok _ _ _ _ _ (store_intro ptr h s1 Hp4)). }
    unfold vec_make.
    rewrite (bind_Ok GC_BEGIN _ s (length (roots s)) s eq_refl).
    rewrite (bind_Ok _ _ _ _ _ Hprot), (bind_Ok _ _ _ _ _ Hva).
    by rewrite (bind_Ok _ _ _ _ _ Hrun).
  - done.
  - intros Hnp. specialize (Hkeep (length (roots s)) init).
    rewrite lookup_app_r, Nat.sub_diag in Hkeep by done.
    specialize (Hkeep eq_refl Hnp). congruence.
  - unfold vec_len, vec_ptr_len. rewrite Hv.
    assert (Hh : mem (set_roots (take (length (roots s)) (roots s1)) (set_mem m' s1')) !! ptr
                 = Some h).
    { cbn. rewrite Hout; [apply lookup_insert_eq|].
      intros j Hj. apply Hslot. lia. }
    rewrite (bind_Ok _ _ _ _ _ (load_intro _ _ _ Hp4 Hh)).
    unfold ret, h. by rewrite head_payload_make.
  - intros i Hi. unfold vec_ref. apply load_intro; [by apply padd_aligned|].
    cbn. apply Hin. lia.
Qed.

Lemma fresh_heap_aligned : heap_aligned fresh_heap.
Proof.
  split; [|split].
  - unfold malloc_aligned.
    change (malloc_base fresh_heap)
      with (λ k : nat, if Nat.even k then 0x10000000 else 0x20000000).
    intros k. cbv beta.
    destruct (Nat.even k); split; [reflexivity | lia | reflexivity | lia].
  - reflexivity.
  - vm_compute. split; [discriminate | reflexivity].
Qed.

Lemma mem_alloc_aligned_witness :
  heap_aligned fresh_heap_2 ∧
  Forall (λ o : Z * Z * Z,
            let '(n, ptr, next) := o in
            ptr mod 8 = 0 ∧ next mod 8 = 0 ∧
            (- 2 ^ 31 ≤ n < 2 ^ 31 - 1 →
             next = padd ptr (round_up_even n) ∧
             round_up_even n mod 2 = 0 ∧ n ≤ round_up_even n ≤ n + 1))
    [(3, 0x20000000, 0x20000010); (2, 0x10000000, 0x10000008)].
Proof.
  apply (proj1 (proj2 mem_alloc_aligned) fresh_heap _ fresh_heap_2).
  - exact fresh_heap_aligned.
  - apply (trace_alloc fresh_heap 3 0x20000000 fresh_heap_1 _ fresh_heap_2);
      [vm_compute; reflexivity|].
    apply (trace_alloc fresh_heap_1 2 0x10000000 fresh_heap_2 _ fresh_heap_2);
      [vm_compute; reflexivity|].
    apply trace_done.
Defined.

Lemma vec_make_spec_witness :
  ∃ (v : Z) (s2 : state) (init' : Z),
    vec_make 3 nil fresh_heap = Ok v s2 ∧
    roots fresh_heap_protected !! length (roots fresh_heap) = Some init' ∧
    (val_ptr_p nil = false → init' = nil) ∧
    vec_len v s2 = Ok 3 s2 ∧
    (∀ i, 0 ≤ i < 3 → vec_ref v i s2 = Ok init' s2).
Proof.
  apply (vec_make_spec fresh_heap 3 nil 0x20000000 fresh_heap_protected).
  - exact fresh_heap_aligned.
  - vm_compute. lia.
  - lia.
  - vm_compute. reflexivity.
Defined.

(** ** Arithmetic of the evaluator *)

Lemma fixnum_make_eq (n : Z) : fixnum_make n = wrap (4 * n).
Proof.
  unfold fixnum_make, val_make. rewrite Z.lor_0_r, Z.shiftl_mul_pow2 by lia.
  f_equal. lia.
Qed.

Lemma fixnum_make_sint (a : Z) : fixnum_make (sint a) = fixnum_make a.
Proof.
  rewrite !fixnum_make_eq. pose proof (wrap_sint a) as H. unfold wrap in *.
  Z.div_mod_to_equations. lia.
Qed.

Lemma fixnum_num_make (z : Z) : fixnum_num (fixnum_make z) = fixnum_wrap z.
Proof.
  rewrite fixnum_make_eq. unfold fixnum_num, val_signed_payload, fixnum_wrap.
  rewrite Z.shiftr_div_pow2 by lia. unfold signed, wrap.
  change (2 ^ 2) with 4.
  repeat match goal with |- context [?a <? ?b] =>
    destruct (Z.ltb_spec a b) end;
  Z.div_mod_to_equations; lia.
Qed.

Lemma fixnum_make_not_unspec (z : Z) : fixnum_make z ≠ unspec.
Proof.
  rewrite fixnum_make_eq. change unspec with 247. unfold wrap.
  Z.div_mod_to_equations. lia.
Qed.

Lemma for_acc_vec (vals : Z) (f : Z → Z → Z) (s : state) (xs : list Z) :
  ∀ i x0,
    (∀ k x, xs !! k = Some x → vec_ref vals (i + Z.of_nat k) s = Ok x s) →
    for_acc (length xs) i (λ i x, w <-- vec_ref vals i ;; ret (f x w)) x0 s
    = Ok (foldl f x0 xs) s.
Proof.
  induction xs as [|w xs IH]; intros i x0 H; [reflexivity|].
  cbn [length for_acc foldl].
  assert (Hw : vec_ref vals i s = Ok w s).
  { specialize (H 0%nat w eq_refl). by rewrite Z.add_0_r in H. }
  unfold bind at 1 2. rewrite Hw. unfold ret at 1.
  apply IH. intros k x Hk. specialize (H (S k) x Hk).
  by replace (i + 1 + Z.of_nat k) with (i + Z.of_nat (S k)) by lia.
Qed.

Lemma wrap_add_l a b : wrap (wrap a + b) = wrap (a + b).
Proof. unfold wrap. by rewrite Zplus_mod_idemp_l. Qed.
Lemma wrap_mul_l a b : wrap (wrap a * b) = wrap (a * b).
Proof. unfold wrap. by rewrite Zmult_mod_idemp_l. Qed.

Lemma foldl_sum_wrap (xs : list Z) : ∀ x0,
  wrap (foldl (λ x w, sint (x + fixnum_num w)) x0 xs)
  = wrap (x0 + foldr Z.add 0 (map fixnum_num xs)).
Proof.
  induction xs as [|w xs IH]; intros x0; cbn [foldl foldr map].
  - f_equal. lia.
  - rewrite IH. rewrite <- wrap_add_l, wrap_sint, wrap_add_l. f_equal. lia.
Qed.

Lemma foldl_mul_wrap (xs : list Z) : ∀ x0,
  wrap (foldl (λ x w, sint (x * fixnum_num w)) x0 xs)
  = wrap (x0 * foldr Z.mul 1 (map fixnum_num xs)).
Proof.
  induction xs as [|w xs IH]; intros x0; cbn [foldl foldr map].
  - f_equal. lia.
  - rewrite IH. rewrite <- wrap_mul_l, wrap_sint, wrap_mul_l. f_equal. lia.
Qed.

Lemma fixnum_make_wrap_eq a b : wrap a = wrap b → fixnum_make a = fixnum_make b.
Proof.
  rewrite !fixnum_make_eq. unfold wrap. intros H.
  Z.div_mod_to_equations. lia.
Qed.

(** C7, as the code has it.  For every result vector, [boot_op_sum_func]
    and [boot_op_mul_func] return the small integer that the sum or the
    product of the arguments wraps around to (modulo 2^30, into
    -2^29 ... 2^29-1).  Nothing is checked: the functions do not abort,
    and the result is never [unspec]. *)
Theorem boot_op_sum_mul_wrap (s : state) (vals : Z) (xs : list Z) :
  vec_len vals s = Ok (Z.of_nat (S (length xs))) s →
  (∀ i x, xs !! i = Some x → vec_ref vals (Z.of_nat (S i)) s = Ok x s) →
  let sum := foldr Z.add 0 (map fixnum_num xs) in
  let prod := foldr Z.mul 1 (map fixnum_num xs) in
  boot_op_sum_func vals s = Ok (fixnum_make sum) s ∧
  boot_op_mul_func vals s = Ok (fixnum_make prod) s ∧
  fixnum_num (fixnum_make sum) = fixnum_wrap sum ∧
  fixnum_num (fixnum_make prod) = fixnum_wrap prod ∧
  fixnum_make sum ≠ unspec ∧ fixnum_make prod ≠ unspec.
Proof.
  intros Hlen Href sum prod.
  assert (Hn : Z.to_nat (Z.of_nat (S (length xs)) - 1) = length xs) by lia.
  assert (Href' : ∀ k x, xs !! k = Some x → vec_ref vals (1 + Z.of_nat k) s = Ok x s).
  { intros k x Hk. specialize (Href k x Hk).
    by replace (1 + Z.of_nat k) with (Z.of_nat (S k)) by lia. }
  repeat apply conj.
  - unfold boot_op_sum_func. rewrite (bind_Ok _ _ _ _ _ Hlen), Hn.
    rewrite (bind_Ok _ _ _ _ _ (for_acc_vec vals _ s xs 1 0 Href')).
    unfold ret. f_equal. apply fixnum_make_wrap_eq.
    rewrite foldl_sum_wrap. f_equal.
  - unfold boot_op_mul_func. rewrite (bind_Ok _ _ _ _ _ Hlen), Hn.
    rewrite (bind_Ok _ _ _ _ _ (for_acc_vec vals _ s xs 1 1 Href')).
    unfold ret. f_equal. apply fixnum_make_wrap_eq.
    rewrite foldl_mul_wrap. f_equal. lia.
  - apply fixnum_num_make.
  - apply fixnum_num_make.
  - apply fixnum_make_not_unspec.
  - apply fixnum_make_not_unspec.
Qed.

Lemma boot_op_sum_mul_wrap_witness :
  let xs := [fixnum_make 536870911; fixnum_make 1] in
  let sum := foldr Z.add 0 (map fixnum_num xs) in
  let prod := foldr Z.mul 1 (map fixnum_num xs) in
  boot_op_sum_func 18 small_vector_state = Ok (fixnum_make sum) small_vector_state ∧
  boot_op_mul_func 18 small_vector_state = Ok (fixnum_make prod) small_vector_state ∧
  fixnum_num (fixnum_make sum) = fixnum_wrap sum ∧
  fixnum_num (fixnum_make prod) = fixnum_wrap prod ∧
  fixnum_make sum ≠ unspec ∧ fixnum_make prod ≠ unspec.
Proof.
  apply (boot_op_sum_mul_wrap small_vector_state 18
           [fixnum_make 536870911; fixnum_make 1]).
  - vm_compute. reflexivity.
  - intros [|[|i]] x Hx; [| |discriminate Hx];
      injection Hx as <-; vm_compute; reflexivity.
Defined.

(** ** The evaluator at [if] *)



(** * Further properties *)

(** ** Encoding and decoding of values *)

Lemma lor_low_bits (a t k : Z) :
  0 ≤ k → 0 ≤ t < 2 ^ k → a mod 2 ^ k = 0 → Z.lor a t = a + t.
Proof.
  intros Hk Ht Ha.
  assert (Hl : Z.land a t = 0).
  { destruct (Z.eq_dec t 0) as [->|Hne]; [apply Z.land_0_r|].
    apply Z.bits_inj'. intros n Hn. rewrite Z.land_spec, Z.bits_0.
    destruct (Z.lt_ge_cases n k) as [Hlt|Hge].
    - rewrite <- (Z.mod_pow2_bits_low a k n) by lia. by rewrite Ha, Z.bits_0.
    - rewrite (Z.bits_above_log2 t n), andb_false_r; [done | lia |].
      apply Z.log2_lt_pow2; [lia|].
      eapply Z.lt_le_trans; [apply Ht|]. apply Z.pow_le_mono_r; lia. }
  pose proof (Z.add_lor_land a t). lia.
Qed.

Lemma val_make_eq (payload shift tag : Z) :
  0 ≤ shift → 0 ≤ tag < 2 ^ shift → 0 ≤ payload → payload * 2 ^ shift < 2 ^ 32 →
  val_make payload shift tag = payload * 2 ^ shift + tag.
Proof.
  intros Hs Ht Hp Hr. unfold val_make.
  rewrite Z.shiftl_mul_pow2 by lia. rewrite wrap_small by nia.
  apply (lor_low_bits _ _ shift); [lia | lia |].
  by rewrite Z.mod_mul by lia.
Qed.

(** X1.  Small integers survive the encoding: for every [n] between
    [fixnum_min] and [fixnum_max], [fixnum_make n] is a 32-bit word that
    [fixnum_p] accepts, that is not a pointer, and from which
    [fixnum_num] gives [n] back; and every 32-bit word that [fixnum_p]
    accepts is [fixnum_make] of its [fixnum_num], which lies between
    [fixnum_min] and [fixnum_max]. *)
Theorem fixnum_round_trip :
  (∀ n : Z, fixnum_min ≤ n ≤ fixnum_max →
     fixnum_num (fixnum_make n) = n ∧
     fixnum_p (fixnum_make n) = true ∧
     val_ptr_p (fixnum_make n) = false ∧
     0 ≤ fixnum_make n < 2 ^ 32) ∧
  (∀ v : Z, 0 ≤ v < 2 ^ 32 → fixnum_p v = true →
     fixnum_min ≤ fixnum_num v ≤ fixnum_max ∧
     fixnum_make (fixnum_num v) = v).
Proof.
  split.
  - intros n Hn. unfold fixnum_min, fixnum_max in Hn. split_and!.
    + rewrite fixnum_num_make. unfold fixnum_wrap. Z.div_mod_to_equations. lia.
    + unfold fixnum_p. rewrite val_tag_mod by lia. rewrite fixnum_make_eq.
      apply Z.eqb_eq. unfold wrap. Z.div_mod_to_equations. lia.
    + unfold val_ptr_p. rewrite !val_tag_mod by lia. rewrite fixnum_make_eq.
      replace (wrap (4 * n) mod 2 ^ 2 =? 0) with true; [done|].
      symmetry. apply Z.eqb_eq. unfold wrap. Z.div_mod_to_equations. lia.
    + rewrite fixnum_make_eq. apply wrap_range.
    + rewrite fixnum_make_eq. apply wrap_range.
  - intros v Hv Hp. unfold fixnum_p in Hp. rewrite val_tag_mod in Hp by lia.
    apply Z.eqb_eq in Hp. change (2 ^ 2) with 4 in Hp.
    assert (Hnum : fixnum_num v = signed v / 4).
    { unfold fixnum_num, val_signed_payload. rewrite Z.shiftr_div_pow2 by lia.
      change (2 ^ 2) with 4. fold (sint (signed v / 4)).
      apply sint_small. unfold signed.
      destruct (v <? 2 ^ 31); Z.div_mod_to_equations; lia. }
    rewrite fixnum_make_eq, Hnum. unfold fixnum_min, fixnum_max, signed, wrap.
    destruct (Z.ltb_spec v (2 ^ 31)); split_and!; Z.div_mod_to_equations; lia.
Qed.

Lemma fixnum_round_trip_witness :
  fixnum_num (fixnum_make (-42)) = -42 ∧ fixnum_make (fixnum_num 168) = 168.
Proof.
  split.
  - apply (proj1 fixnum_round_trip (-42)). unfold fixnum_min, fixnum_max. lia.
  - apply (proj2 fixnum_round_trip 168); [lia | reflexivity].
Defined.

(** X2.  Characters survive the encoding: for every code [c] below 2^26,
    [chr_make c] is a 32-bit word that [chr_p] accepts, that is neither
    a small integer nor a pointer, and from which [chr_code] gives [c]
    back. *)
Theorem chr_round_trip (c : Z) :
  0 ≤ c < 2 ^ 26 →
  chr_code (chr_make c) = c ∧
  chr_p (chr_make c) = true ∧
  fixnum_p (chr_make c) = false ∧
  val_ptr_p (chr_make c) = false ∧
  0 ≤ chr_make c < 2 ^ 32.
Proof.
  intros Hc. unfold chr_make.
  rewrite (val_make_eq c 6 0x27) by lia.
  unfold chr_code, chr_p, fixnum_p, val_ptr_p, val_payload.
  rewrite !val_tag_mod, Z.shiftr_div_pow2 by lia.
  change (2 ^ 6) with 64. change (2 ^ 2) with 4. change (2 ^ 3) with 8.
  assert (H1 : (c * 64 + 39) / 64 = c) by (Z.div_mod_to_equations; lia).
  assert (H2 : (c * 64 + 39) mod 64 = 39) by (Z.div_mod_to_equations; lia).
  assert (H3 : (c * 64 + 39) mod 4 = 3) by (Z.div_mod_to_equations; lia).
  assert (H4 : (c * 64 + 39) mod 8 = 7) by (Z.div_mod_to_equations; lia).
  rewrite H1, H2, H3, H4. split_and!; try done; try lia.
  unfold signed. destruct (Z.ltb_spec c (2 ^ 31)); lia.
Qed.

Lemma chr_round_trip_witness : chr_code (chr_make 955) = 955.
Proof. apply (chr_round_trip 955). lia. Defined.

(** X3.  Tagging an 8-aligned address [p] with a three-bit tag [t] loses
    nothing: [val_ptr] with the same tag and [val_ptr_any_tag] give [p]
    back, [val_tag] gives [t] back, and the word is a pointer for
    [val_ptr_p] exactly when [t] is none of 0, 4 and 7.  For a record
    descriptor (tag 3), the header that [rec_header_make] builds gives
    the descriptor back the way [rec_ptr_desc] decodes it. *)
Theorem val_ptr_round_trip (p t : Z) :
  p mod 8 = 0 → 0 ≤ p < 2 ^ 32 → 0 ≤ t < 8 →
  val_ptr (val_ptr_make p t) t = p ∧
  val_ptr_any_tag (val_ptr_make p t) = p ∧
  val_tag (val_ptr_make p t) 3 = t ∧
  (val_ptr_p (val_ptr_make p t) = true ↔ t ≠ 0 ∧ t ≠ 4 ∧ t ≠ 7) ∧
  (t = 3 → val_ptr_make (val_ptr (rec_header_make (val_ptr_make p t)) 6) 3
           = val_ptr_make p t).
Proof.
  intros Hal Hp Ht.
  assert (Hm : val_ptr_make p t = p + t).
  { unfold val_ptr_make. apply wrap_small. Z.div_mod_to_equations. lia. }
  rewrite Hm. split_and!.
  - unfold val_ptr. replace (p + t - t) with p by lia. by apply wrap_small.
  - unfold val_ptr_any_tag. rewrite land_lnot_7. Z.div_mod_to_equations. lia.
  - rewrite val_tag_mod by lia. change (2 ^ 3) with 8. Z.div_mod_to_equations. lia.
  - unfold val_ptr_p. rewrite !val_tag_mod by lia.
    change (2 ^ 2) with 4. change (2 ^ 3) with 8.
    rewrite andb_true_iff, !negb_true_iff, !Z.eqb_neq.
    Z.div_mod_to_equations. lia.
  - intros ->. unfold rec_header_make, val_ptr, val_ptr_make, wrap.
    Z.div_mod_to_equations. lia.
Qed.

Lemma val_ptr_round_trip_witness :
  val_ptr (val_ptr_make 0x10000008 3) 3 = 0x10000008.
Proof. apply (val_ptr_round_trip 0x10000008 3); [reflexivity | lia | lia]. Defined.

(** ** The kinds of heap objects *)

Lemma head_payload_div (h k : Z) : 0 ≤ k → head_payload h k = h / 2 ^ k.
Proof. intros Hk. unfold head_payload. by apply Z.shiftr_div_pow2. Qed.

Lemma first_word_cases (h : Z) :
  Z.b2z (if h mod 8 =? 7 then (h mod 64 =? 39) || (h mod 64 =? 55)
         else negb (h mod 8 =? 6))
  + Z.b2z (h mod 16 =? 15) + Z.b2z (h mod 64 =? 7)
  + Z.b2z (h mod 64 =? 23) + Z.b2z (h mod 8 =? 6) = 1.
Proof.
  destruct (Z.eqb_spec (h mod 8) 7), (Z.eqb_spec (h mod 64) 39),
    (Z.eqb_spec (h mod 64) 55), (Z.eqb_spec (h mod 8) 6),
    (Z.eqb_spec (h mod 16) 15), (Z.eqb_spec (h mod 64) 7),
    (Z.eqb_spec (h mod 64) 23); cbn; try reflexivity;
    exfalso; Z.div_mod_to_equations; lia.
Qed.

Section first_word.
Context (s : state) (ptr h : Z).
Hypothesis Hal : ptr mod 4 = 0.
Hypothesis Hh : mem s !! ptr = Some h.

Lemma pair_ptr_p_word :
  pair_ptr_p ptr s
  = Ok (if h mod 8 =? 7 then (h mod 64 =? 39) || (h mod 64 =? 55)
        else negb (h mod 8 =? 6)) s.
Proof.
  unfold pair_ptr_p. rewrite (bind_Ok _ _ _ _ _ (load_intro _ _ _ Hal Hh)).
  rewrite !head_tag_mod by lia. change (2 ^ 3) with 8. change (2 ^ 6) with 64.
  by destruct (h mod 8 =? 7).
Qed.

Lemma vec_ptr_p_word : vec_ptr_p ptr s = Ok (h mod 16 =? 15) s.
Proof.
  unfold vec_ptr_p. rewrite (bind_Ok _ _ _ _ _ (load_intro _ _ _ Hal Hh)).
  by rewrite head_tag_mod by lia.
Qed.

Lemma bytev_ptr_p_word : bytev_ptr_p ptr s = Ok (h mod 64 =? 7) s.
Proof.
  unfold bytev_ptr_p. rewrite (bind_Ok _ _ _ _ _ (load_intro _ _ _ Hal Hh)).
  by rewrite head_tag_mod by lia.
Qed.

Lemma vec_ptr_len_word : vec_ptr_len ptr s = Ok (h / 16) s.
Proof.
  unfold vec_ptr_len. rewrite (bind_Ok _ _ _ _ _ (load_intro _ _ _ Hal Hh)).
  by rewrite head_payload_div by lia.
Qed.

Lemma bytev_ptr_len_word : bytev_ptr_len ptr s = Ok (h / 64) s.
Proof.
  unfold bytev_ptr_len. rewrite (bind_Ok _ _ _ _ _ (load_intro _ _ _ Hal Hh)).
  by rewrite head_payload_div by lia.
Qed.

End first_word.

(** X4.  The first word of a heap object decides its kind, and the five
    tests that the collector and the heap checker apply in turn
    ([pair_ptr_p], [vec_ptr_p], [bytev_ptr_p], [code_ptr_p],
    [rec_ptr_p]) are exclusive and exhaustive: on every initialised,
    aligned word exactly one of them answers true.  So the order of the
    tests does not matter and their final [else abort ()] is never
    reached. *)
Theorem heap_object_kinds (s : state) (ptr h : Z) :
  ptr mod 4 = 0 → mem s !! ptr = Some h →
  ∃ b1 b2 b3 b4 b5 : bool,
    pair_ptr_p ptr s = Ok b1 s ∧ vec_ptr_p ptr s = Ok b2 s ∧
    bytev_ptr_p ptr s = Ok b3 s ∧ code_ptr_p ptr s = Ok b4 s ∧
    rec_ptr_p ptr s = Ok b5 s ∧
    Z.b2z b1 + Z.b2z b2 + Z.b2z b3 + Z.b2z b4 + Z.b2z b5 = 1.
Proof.
  intros Hal Hh.
  exists (if h mod 8 =? 7 then (h mod 64 =? 39) || (h mod 64 =? 55)
          else negb (h mod 8 =? 6)),
         (h mod 16 =? 15), (h mod 64 =? 7), (h mod 64 =? 23), (h mod 8 =? 6).
  split_and!.
  - by apply pair_ptr_p_word.
  - by apply vec_ptr_p_word.
  - by apply bytev_ptr_p_word.
  - by apply code_ptr_p_header.
  - by apply rec_ptr_p_header.
  - apply first_word_cases.
Qed.

Lemma heap_object_kinds_witness :
  ∃ b1 b2 b3 b4 b5 : bool,
    pair_ptr_p 16 small_vector_state = Ok b1 small_vector_state ∧
    vec_ptr_p 16 small_vector_state = Ok b2 small_vector_state ∧
    bytev_ptr_p 16 small_vector_state = Ok b3 small_vector_state ∧
    code_ptr_p 16 small_vector_state = Ok b4 small_vector_state ∧
    rec_ptr_p 16 small_vector_state = Ok b5 small_vector_state ∧
    Z.b2z b1 + Z.b2z b2 + Z.b2z b3 + Z.b2z b4 + Z.b2z b5 = 1.
Proof.
  apply (heap_object_kinds small_vector_state 16 (head_make 3 4 15)).
  - reflexivity.
  - vm_compute. reflexivity.
Defined.

(** ** Where the collector can abort *)

Lemma bind_Abort_inv {A B} (m : M A) (k : A → M B) s :
  bind m k s = Abort → m s = Abort ∨ ∃ a s1, m s = Ok a s1 ∧ k a s1 = Abort.
Proof. unfold bind. destruct (m s) as [a s1| | |]; try done; eauto. Qed.

Lemma no_abort_ret {A} (a : A) : no_abort (ret a).
Proof. done. Qed.
Lemma no_abort_fault {A} : no_abort (@fault A).
Proof. done. Qed.
Lemma no_abort_get {A} (f : state → A) : no_abort (get f).
Proof. done. Qed.
Lemma no_abort_modify f : no_abort (modify f).
Proof. done. Qed.
Lemma no_abort_load p : no_abort (load p).
Proof. intros s. unfold load. by destruct (_ =? _), (mem s !! p). Qed.
Lemma no_abort_store p w : no_abort (store p w).
Proof. intros s. unfold store. by destruct (_ =? _). Qed.
Lemma no_abort_memcpy d p n : no_abort (memcpy d p n).
Proof. intros s. unfold memcpy. by destruct (_ && _). Qed.
Lemma no_abort_get_root i : no_abort (get_root i).
Proof. intros s. unfold get_root. by destruct (roots s !! i). Qed.
Lemma no_abort_set_root i v : no_abort (set_root i v).
Proof. intros s. unfold set_root. by case_decide. Qed.

Lemma no_abort_bind {A B} (m : M A) (k : A → M B) :
  no_abort m → (∀ a, no_abort (k a)) → no_abort (bind m k).
Proof.
  intros Hm Hk s H. apply bind_Abort_inv in H as [H|(a & s1 & _ & H)].
  - by apply (Hm s).
  - by apply (Hk a s1).
Qed.

Lemma no_abort_for_loop body n :
  (∀ i, no_abort (body i)) → ∀ i, no_abort (for_loop n i body).
Proof.
  intros Hb. induction n as [|n IH]; intros i; cbn [for_loop].
  - apply no_abort_ret.
  - apply no_abort_bind; [apply Hb | intros _; apply IH].
Qed.

Lemma no_abort_while_fuel {A B} (body : A → M (A + B)) fuel :
  (∀ a, no_abort (body a)) → ∀ a, no_abort (while_fuel fuel body a).
Proof.
  intros Hb. induction fuel as [|fuel IH]; intros a; cbn [while_fuel]; [done|].
  apply no_abort_bind; [apply Hb|]. intros [a'|b]; [apply IH | apply no_abort_ret].
Qed.

Lemma no_abort_while {A B} (body : A → M (A + B)) a :
  (∀ a, no_abort (body a)) → no_abort (while body a).
Proof. intros Hb s. by apply no_abort_while_fuel. Qed.

Ltac no_abort_step :=
  first
    [ apply no_abort_ret
    | apply no_abort_fault
    | apply no_abort_get
    | apply no_abort_modify
    | apply no_abort_load
    | apply no_abort_store
    | apply no_abort_memcpy
    | apply no_abort_get_root
    | apply no_abort_set_root
    | apply no_abort_bind; [|intros ?]
    | match goal with
      | |- no_abort (if ?b then _ else _) => destruct b
      | |- no_abort (let '(_, _) := ?p in _) => destruct p
      end ].

Lemma no_abort_mem_follow_fwd_ptr p : no_abort (mem_follow_fwd_ptr p).
Proof. unfold mem_follow_fwd_ptr. repeat no_abort_step. Qed.

Lemma load_cases p s :
  (∃ h, load p s = Ok h s ∧ p mod 4 = 0 ∧ mem s !! p = Some h) ∨ load p s = Fault.
Proof.
  unfold load. destruct (Z.eqb_spec (p mod 4) 0); [|by right].
  destruct (mem s !! p) as [h|]; [left; eauto | by right].
Qed.

Lemma no_abort_mem_copy_size ptr : no_abort (mem_copy_size ptr).
Proof.
  intros s. destruct (load_cases ptr s) as [(h & _ & Hal & Hh)|Hf].
  - unfold mem_copy_size.
    rewrite (bind_Ok (get indeterminate) _ s (indeterminate s) s eq_refl).
    rewrite (bind_Ok _ _ _ _ _ (pair_ptr_p_word s ptr h Hal Hh)).
    pose proof (first_word_cases h) as Hcases.
    set (b1 := if h mod 8 =? 7 then (h mod 64 =? 39) || (h mod 64 =? 55)
               else negb (h mod 8 =? 6)) in *.
    destruct b1; [done|].
    rewrite (bind_Ok _ _ _ _ _ (vec_ptr_p_word s ptr h Hal Hh)).
    destruct (h mod 16 =? 15).
    { apply no_abort_bind; [|intros ?; apply no_abort_ret].
      unfold vec_ptr_len. repeat no_abort_step. }
    rewrite (bind_Ok _ _ _ _ _ (bytev_ptr_p_word s ptr h Hal Hh)).
    destruct (h mod 64 =? 7).
    { apply no_abort_bind; [|intros ?; apply no_abort_ret].
      unfold bytev_ptr_len. repeat no_abort_step. }
    rewrite (bind_Ok _ _ _ _ _ (code_ptr_p_header s ptr h Hal Hh)).
    destruct (h mod 64 =? 23).
    { apply no_abort_bind; [|intros ?; apply no_abort_ret].
      unfold code_ptr_lit_end, code_ptr_lit_begin, bytev_ptr_len.
      repeat no_abort_step. }
    rewrite (bind_Ok _ _ _ _ _ (rec_ptr_p_header s ptr h Hal Hh)).
    destruct (h mod 8 =? 6); [|cbn in Hcases; lia].
    apply no_abort_bind; [unfold rec_ptr_desc; repeat no_abort_step|].
    intros d. apply no_abort_bind; [apply no_abort_mem_follow_fwd_ptr|].
    intros ?. repeat no_abort_step.
  - unfold mem_copy_size, pair_ptr_p, bind, get. by rewrite Hf.
Qed.

Lemma no_abort_mem_copy v : no_abort (mem_copy v).
Proof.
  unfold mem_copy. destruct (negb (val_ptr_p v)); [apply no_abort_ret|].
  apply no_abort_bind; [apply no_abort_mem_follow_fwd_ptr | intros np].
  destruct (negb _); [apply no_abort_ret|].
  apply no_abort_bind; [apply no_abort_mem_copy_size | intros size].
  unfold mem_install_fwd_ptr. repeat no_abort_step.
Qed.

Lemma no_abort_mem_scan_extent ptr : no_abort (mem_scan_extent ptr).
Proof.
  intros s. destruct (load_cases ptr s) as [(h & _ & Hal & Hh)|Hf].
  - unfold mem_scan_extent.
    rewrite (bind_Ok _ _ _ _ _ (pair_ptr_p_word s ptr h Hal Hh)).
    pose proof (first_word_cases h) as Hcases.
    set (b1 := if h mod 8 =? 7 then (h mod 64 =? 39) || (h mod 64 =? 55)
               else negb (h mod 8 =? 6)) in *.
    destruct b1; [done|].
    rewrite (bind_Ok _ _ _ _ _ (vec_ptr_p_word s ptr h Hal Hh)).
    destruct (h mod 16 =? 15).
    { apply no_abort_bind; [|intros ?; apply no_abort_ret].
      unfold vec_ptr_len. repeat no_abort_step. }
    rewrite (bind_Ok _ _ _ _ _ (bytev_ptr_p_word s ptr h Hal Hh)).
    destruct (h mod 64 =? 7).
    { apply no_abort_bind; [|intros ?; apply no_abort_ret].
      unfold bytev_ptr_len. repeat no_abort_step. }
    rewrite (bind_Ok _ _ _ _ _ (code_ptr_p_header s ptr h Hal Hh)).
    destruct (h mod 64 =? 23).
    { unfold code_ptr_lit_end, code_ptr_lit_begin, bytev_ptr_len.
      repeat no_abort_step. }
    rewrite (bind_Ok _ _ _ _ _ (rec_ptr_p_header s ptr h Hal Hh)).
    destruct (h mod 8 =? 6); [|cbn in Hcases; lia].
    apply no_abort_bind; [unfold rec_ptr_desc; repeat no_abort_step|].
    intros d. apply no_abort_bind; [apply no_abort_mem_copy|].
    intros ?. repeat no_abort_step.
  - unfold mem_scan_extent, pair_ptr_p, bind. by rewrite Hf.
Qed.

Lemma no_abort_mem_scan ptr : no_abort (mem_scan ptr).
Proof.
  unfold mem_scan. apply no_abort_bind; [apply no_abort_mem_scan_extent|].
  intros [p size]. apply no_abort_bind; [|intros ?; apply no_abort_ret].
  apply no_abort_for_loop. intros i.
  apply no_abort_bind; [apply no_abort_load | intros x].
  apply no_abort_bind; [apply no_abort_mem_copy | intros y].
  apply no_abort_store.
Qed.

Lemma no_abort_mem_gc_scan : no_abort mem_gc_scan.
Proof.
  unfold mem_gc_scan. apply no_abort_bind; [apply no_abort_get | intros nf].
  apply no_abort_while. intros ptr.
  apply no_abort_bind; [apply no_abort_get | intros nn].
  destruct (ptr <? nn); [|apply no_abort_ret].
  apply no_abort_bind; [apply no_abort_mem_scan | intros ?; apply no_abort_ret].
Qed.

(** X5.  The collector calls [abort] in two situations only.  [mem_copy]
    and [mem_scan] never do, whatever the heap holds; and when [mem_gc n]
    aborts, either [malloc] returned the null pointer for the new
    semispace, or the copying and scanning ran to their end and fewer
    than [n] words are free in the new semispace. *)
Theorem collector_aborts_only_when_out_of_memory :
  (∀ v, no_abort (mem_copy v)) ∧
  (∀ ptr, no_abort (mem_scan ptr)) ∧
  (∀ n s, mem_gc n s = Abort →
     malloc_base s (malloc_count s) = 0 ∨
     ∃ s1, (mem_gc_begin ;;; mem_gc_scan) s = Ok tt s1 ∧
           pdiff (mem_new_end s1) (mem_new_next s1) < n).
Proof.
  split; [exact no_abort_mem_copy|]. split; [exact no_abort_mem_scan|].
  intros n s H. unfold mem_gc in H.
  apply bind_Abort_inv in H as [H|([] & s1 & Hb & H)].
  - left. unfold mem_gc_begin in H.
    apply bind_Abort_inv in H as [H|(b & s0 & [= <- <-] & H)]; [done|].
    destruct (Z.eqb_spec (malloc_base s (malloc_count s)) 0); [done|].
    exfalso. revert H. generalize (set_malloc_count (S (malloc_count s)) s).
    apply no_abort_bind; [apply no_abort_modify | intros ?].
    apply no_abort_bind; [apply no_abort_get | intros nr].
    apply no_abort_for_loop. intros i.
    apply no_abort_bind; [apply no_abort_get_root | intros v].
    apply no_abort_bind; [apply no_abort_mem_copy | intros v'].
    apply no_abort_set_root.
  - apply bind_Abort_inv in H as [H|([] & s2 & Hs & H)].
    + by apply no_abort_mem_gc_scan in H.
    + right. exists s2. split.
      * by rewrite (bind_Ok _ _ _ _ _ Hb).
      * unfold mem_gc_finish, free, bind, get, modify in H. cbn in H.
        destruct (Z.ltb_spec (pdiff (mem_new_end s2) (mem_new_next s2)) n); done.
Qed.

Lemma collector_aborts_only_when_out_of_memory_witness :
  malloc_base fresh_heap (malloc_count fresh_heap) = 0 ∨
  ∃ s1, (mem_gc_begin ;;; mem_gc_scan) fresh_heap = Ok tt s1 ∧
        pdiff (mem_new_end s1) (mem_new_next s1) < 217001.
Proof.
  apply (proj2 (proj2 collector_aborts_only_when_out_of_memory) 217001 fresh_heap).
  vm_compute. reflexivity.
Defined.

Lemma no_abort_mem_check_size ptr : no_abort (mem_check_size ptr).
Proof.
  intros s. destruct (load_cases ptr s) as [(h & _ & Hal & Hh)|Hf].
  - unfold mem_check_size.
    rewrite (bind_Ok _ _ _ _ _ (pair_ptr_p_word s ptr h Hal Hh)).
    pose proof (first_word_cases h) as Hcases.
    set (b1 := if h mod 8 =? 7 then (h mod 64 =? 39) || (h mod 64 =? 55)
               else negb (h mod 8 =? 6)) in *.
    destruct b1; [done|].
    rewrite (bind_Ok _ _ _ _ _ (vec_ptr_p_word s ptr h Hal Hh)).
    destruct (h mod 16 =? 15).
    { apply no_abort_bind; [|intros ?; apply no_abort_ret].
      unfold vec_ptr_len. repeat no_abort_step. }
    rewrite (bind_Ok _ _ _ _ _ (bytev_ptr_p_word s ptr h Hal Hh)).
    destruct (h mod 64 =? 7).
    { apply no_abort_bind; [|intros ?; apply no_abort_ret].
      unfold bytev_ptr_len. repeat no_abort_step. }
    rewrite (bind_Ok _ _ _ _ _ (code_ptr_p_header s ptr h Hal Hh)).
    destruct (h mod 64 =? 23).
    { apply no_abort_bind; [|intros ?; apply no_abort_ret].
      unfold code_ptr_lit_end, code_ptr_lit_begin, bytev_ptr_len.
      repeat no_abort_step. }
    rewrite (bind_Ok _ _ _ _ _ (rec_ptr_p_header s ptr h Hal Hh)).
    destruct (Z.eqb_spec (h mod 8) 6) as [H6|]; [|cbn in Hcases; lia].
    assert (Hd : rec_ptr_desc ptr s = Ok (val_ptr_make (val_ptr h 6) 3) s).
    { unfold rec_ptr_desc. by rewrite (bind_Ok _ _ _ _ _ (load_intro _ _ _ Hal Hh)). }
    rewrite (bind_Ok _ _ _ _ _ Hd).
    replace (rec_p (val_ptr_make (val_ptr h 6) 3)) with true.
    + cbn [negb]. repeat no_abort_step.
    + symmetry. unfold rec_p. rewrite val_tag_mod by lia. apply Z.eqb_eq.
      unfold val_ptr_make, val_ptr, wrap. change (2 ^ 3) with 8.
      Z.div_mod_to_equations. lia.
  - unfold mem_check_size, pair_ptr_p, bind. by rewrite Hf.
Qed.

(** X6.  The first pass of [mem_check] never calls [abort]: its test
    that a record has a sensible descriptor, [if (!rec_p (desc)) abort
    ()], cannot fail, because [rec_ptr_desc] builds the descriptor with
    the record tag from whatever the header holds, and the final [else
    abort ()] is never reached. *)
Theorem mem_check_pass1_never_aborts :
  (∀ h, h mod 8 = 6 → rec_p (val_ptr_make (val_ptr h 6) 3) = true) ∧
  (∀ ptr, no_abort (mem_check_size ptr)) ∧
  no_abort mem_check_pass1.
Proof.
  split_and!.
  - intros h Hh. unfold rec_p. rewrite val_tag_mod by lia. apply Z.eqb_eq.
    unfold val_ptr_make, val_ptr, wrap. change (2 ^ 3) with 8.
    Z.div_mod_to_equations. lia.
  - exact no_abort_mem_check_size.
  - unfold mem_check_pass1.
    apply no_abort_bind; [apply no_abort_get | intros first].
    apply no_abort_while. intros [ptr shadow].
    apply no_abort_bind; [apply no_abort_get | intros next].
    destruct (ptr <? next); [|apply no_abort_ret].
    apply no_abort_bind; [apply no_abort_mem_check_size | intros size].
    destruct (_ && _); [apply no_abort_ret | apply no_abort_fault].
Qed.

Lemma mem_check_pass1_never_aborts_witness :
  rec_p (val_ptr_make (val_ptr 0x2000000e 6) 3) = true.
Proof. apply (proj1 mem_check_pass1_never_aborts 0x2000000e). reflexivity. Defined.

(** ** What [mem_copy] does to the heap *)

Lemma padd_small (p k : Z) : 0 ≤ p + 4 * k < 2 ^ 32 → padd p k = p + 4 * k.
Proof. apply wrap_small. Qed.

Lemma memcpy_words_spec (n : nat) :
  ∀ (dst src : Z) (m : gmap Z Z),
    0 ≤ dst → 0 ≤ src →
    dst + 4 * Z.of_nat n ≤ 2 ^ 32 → src + 4 * Z.of_nat n ≤ 2 ^ 32 →
    src + 4 * Z.of_nat n ≤ dst ∨ dst + 4 * Z.of_nat n ≤ src →
    (∀ i, 0 ≤ i < Z.of_nat n →
          memcpy_words n dst src m !! (dst + 4 * i) = m !! (src + 4 * i)) ∧
    (∀ a, (∀ i, 0 ≤ i < Z.of_nat n → a ≠ dst + 4 * i) →
          memcpy_words n dst src m !! a = m !! a).
Proof.
  induction n as [|n IH]; intros dst src m Hd Hs Hdn Hsn Hdis.
  - split; [lia | done].
  - cbn [memcpy_words].
    set (m1 := match m !! src with
               | Some w => <[dst := w]> m
               | None => delete dst m
               end).
    assert (Hm1 : m1 !! dst = m !! src).
    { unfold m1. destruct (m !! src) eqn:E;
        [by rewrite lookup_insert_eq | by rewrite lookup_delete_eq]. }
    assert (Hm1' : ∀ a, a ≠ dst → m1 !! a = m !! a).
    { intros a Ha. unfold m1. destruct (m !! src);
        [by rewrite lookup_insert_ne | by rewrite lookup_delete_ne]. }
    destruct n as [|n'].
    { cbn [memcpy_words]. split.
      - intros i Hi. assert (i = 0) as -> by lia. by rewrite !Z.add_0_r.
      - intros a Ha. apply Hm1'. specialize (Ha 0). rewrite Z.add_0_r in Ha.
        apply Ha. lia. }
    rewrite !padd_small by lia.
    destruct (IH (dst + 4 * 1) (src + 4 * 1) m1) as [Hin Hout]; try lia.
    split.
    + intros i Hi. destruct (decide (i = 0)) as [->|Hne].
      * rewrite !Z.add_0_r, Hout; [done|]. intros j Hj. lia.
      * replace (dst + 4 * i) with (dst + 4 * 1 + 4 * (i - 1)) by lia.
        rewrite Hin by lia. rewrite Hm1' by lia. f_equal. lia.
    + intros a Ha. rewrite Hout.
      * apply Hm1'. specialize (Ha 0). rewrite Z.add_0_r in Ha. apply Ha. lia.
      * intros j Hj. specialize (Ha (j + 1)). lia.
Qed.

(** X7.  [mem_copy] of a pointer to an object that has not been copied
    yet, of [size] words, lying clear of the free part of the
    destination semispace: the result is the address [mem_new_next] with
    the tag of the argument; [mem_new_next] advances by [size] rounded
    up to even; the [size] words of the object are at the new address;
    the first word of the old object becomes the forwarding pointer;
    nothing else changes; and copying the same pointer again returns the
    same result and changes nothing. *)
Theorem mem_copy_fresh (v : Z) (s : state) (size : Z) :
  let ptr := val_ptr_any_tag v in
  let new := mem_new_next s in
  val_ptr_p v = true →
  mem_follow_fwd_ptr ptr s = Ok ptr s →
  mem_copy_size ptr s = Ok size s →
  0 < size < 2 ^ 28 →
  0 ≤ ptr → ptr + 4 * size ≤ 2 ^ 32 →
  new mod 8 = 0 → 0 ≤ new → new + 4 * (size + 1) < 2 ^ 32 →
  mem_new_first s ≤ new < mem_new_end s →
  ptr + 4 * size ≤ new ∨ new + 4 * size ≤ ptr →
  ∃ s',
    mem_copy v s = Ok (val_ptr_make new (val_tag v 3)) s' ∧
    val_ptr_any_tag (val_ptr_make new (val_tag v 3)) = new ∧
    val_tag (val_ptr_make new (val_tag v 3)) 3 = val_tag v 3 ∧
    mem_new_next s' = new + 4 * round_up_even size ∧
    (∀ i, 0 ≤ i < size → mem s' !! (new + 4 * i) = mem s !! (ptr + 4 * i)) ∧
    mem s' !! ptr = Some (val_ptr_make new 1) ∧
    (∀ a, a ≠ ptr → ¬ new ≤ a < new + 4 * size → mem s' !! a = mem s !! a) ∧
    mem_copy v s' = Ok (val_ptr_make new (val_tag v 3)) s'.
Proof.
  intros ptr new Hp Hfw Hsz Hsize Hptr Hptr' Hn8 Hn0 Hn32 Hnew Hdis.
  assert (Hal : ptr mod 4 = 0).
  { unfold ptr, val_ptr_any_tag. rewrite land_lnot_7. Z.div_mod_to_equations. lia. }
  assert (Htag : 0 ≤ val_tag v 3 < 8).
  { rewrite val_tag_mod by lia. apply Z.mod_pos_bound. lia. }
  assert (Hbump : padd new (Z.land (sint (size + 1)) (Z.lnot 1))
                  = new + 4 * round_up_even size).
  { rewrite round_up_even_land by lia. apply padd_small.
    unfold round_up_even. Z.div_mod_to_equations. lia. }
  set (m1 := memcpy_words (Z.to_nat (wrap (size * 4) / 4)) new ptr (mem s)).
  set (s' := set_mem (<[ptr := val_ptr_make new 1]> m1)
               (set_mem_new_next (new + 4 * round_up_even size) s)).
  assert (Hwords : Z.of_nat (Z.to_nat (wrap (size * 4) / 4)) = size).
  { rewrite wrap_small by lia. Z.div_mod_to_equations. lia. }
  destruct (memcpy_words_spec (Z.to_nat (wrap (size * 4) / 4)) new ptr (mem s))
    as [Hin Hout]; try lia.
  rewrite Hwords in Hin, Hout. fold m1 in Hin, Hout.
  assert (Hrun : mem_copy v s = Ok (val_ptr_make new (val_tag v 3)) s').
  { unfold mem_copy. rewrite Hp. cbn [negb]. fold ptr.
    rewrite (bind_Ok _ _ _ _ _ Hfw), Z.eqb_refl. cbn [negb].
    rewrite (bind_Ok _ _ _ _ _ Hsz).
    rewrite (bind_Ok (get mem_new_next) _ s new s eq_refl).
    unfold bind at 1. unfold modify at 1. rewrite Hbump.
    unfold bind at 1. unfold memcpy.
    replace (new mod 4 =? 0) with true
      by (symmetry; apply Z.eqb_eq; Z.div_mod_to_equations; lia).
    replace (ptr mod 4 =? 0) with true by (symmetry; by apply Z.eqb_eq).
    cbn [andb]. unfold mem_install_fwd_ptr.
    by rewrite (bind_Ok _ _ _ _ _ (store_intro ptr _ _ Hal)). }
  assert (Hv' : val_ptr_make new (val_tag v 3) = new + val_tag v 3).
  { unfold val_ptr_make. apply wrap_small. lia. }
  assert (Hf : val_ptr_make new 1 = new + 1).
  { unfold val_ptr_make. apply wrap_small. lia. }
  exists s'. split_and!.
  - exact Hrun.
  - rewrite Hv'. unfold val_ptr_any_tag. rewrite land_lnot_7.
    Z.div_mod_to_equations. lia.
  - rewrite Hv', (val_tag_mod (new + _)) by lia. change (2 ^ 3) with 8.
    Z.div_mod_to_equations. lia.
  - reflexivity.
  - intros i Hi. cbn. rewrite lookup_insert_ne by lia. by apply Hin.
  - cbn. apply lookup_insert_eq.
  - intros a Ha Hout'. cbn. rewrite lookup_insert_ne by done.
    apply Hout. intros i Hi. lia.
  - unfold mem_copy. rewrite Hp. cbn [negb]. fold ptr.
    assert (Hfw' : mem_follow_fwd_ptr ptr s' = Ok new s').
    { unfold mem_follow_fwd_ptr.
      assert (Hl : mem s' !! ptr = Some (val_ptr_make new 1))
        by (cbn; apply lookup_insert_eq).
      rewrite (bind_Ok _ _ _ _ _ (load_intro _ _ _ Hal Hl)).
      rewrite (bind_Ok (get mem_new_first) _ s' (mem_new_first s) s' eq_refl).
      rewrite (bind_Ok (get mem_new_end) _ s' (mem_new_end s) s' eq_refl).
      rewrite Hf. rewrite val_tag_mod by lia. change (2 ^ 3) with 8.
      assert (Hvp : val_ptr (new + 1) 1 = new).
      { unfold val_ptr. replace (new + 1 - 1) with new by lia.
        apply wrap_small. lia. }
      rewrite Hvp.
      replace ((new + 1) mod 8 =? 1) with true
        by (symmetry; apply Z.eqb_eq; Z.div_mod_to_equations; lia).
      replace (mem_new_first s <=? new) with true by (symmetry; lia).
      replace (new <? mem_new_end s) with true by (symmetry; lia).
      reflexivity. }
    rewrite (bind_Ok _ _ _ _ _ Hfw').
    replace (new =? ptr) with false by (symmetry; lia). reflexivity.
Qed.

Lemma mem_copy_fresh_witness :
  ∃ s',
    mem_copy 0x20000002 collecting_heap = Ok 0x10000002 s' ∧
    val_ptr_any_tag 0x10000002 = 0x10000000 ∧
    val_tag 0x10000002 3 = 2 ∧
    mem_new_next s' = 0x10000000 + 4 * round_up_even 4 ∧
    (∀ i, 0 ≤ i < 4 →
          mem s' !! (0x10000000 + 4 * i)
          = mem collecting_heap !! (0x20000000 + 4 * i)) ∧
    mem s' !! 0x20000000 = Some 0x10000001 ∧
    (∀ a, a ≠ 0x20000000 → ¬ 0x10000000 ≤ a < 0x10000000 + 4 * 4 →
          mem s' !! a = mem collecting_heap !! a) ∧
    mem_copy 0x20000002 s' = Ok 0x10000002 s'.
Proof.
  apply (mem_copy_fresh 0x20000002 collecting_heap 4).
  - reflexivity.
  - vm_compute. reflexivity.
  - vm_compute. reflexivity.
  - lia.
  - vm_compute. discriminate.
  - vm_compute. discriminate.
  - vm_compute. reflexivity.
  - vm_compute. discriminate.
  - vm_compute. reflexivity.
  - vm_compute. split; [discriminate | reflexivity].
  - right. vm_compute. discriminate.
Defined.

(** ** How far [mem_scan] advances *)

Lemma signed_small (w : Z) : w < 2 ^ 31 → signed w = w.
Proof. intros H. unfold signed. by rewrite (proj2 (Z.ltb_lt _ _) H). Qed.

(** Scanning slots that hold no pointers changes nothing. *)
Lemma scan_loop_no_pointers (p : Z) (s : state) (n : nat) :
  ∀ i,
    (∀ j, i ≤ j < i + Z.of_nat n →
          padd p j mod 4 = 0 ∧
          ∃ x, mem s !! padd p j = Some x ∧ val_ptr_p x = false) →
    for_loop n i
      (λ i, x <-- load (padd p i) ;; y <-- mem_copy x ;; store (padd p i) y) s
    = Ok tt s.
Proof.
  induction n as [|n IH]; intros i H; cbn [for_loop]; [done|].
  destruct (H i) as (Hal & x & Hx & Hnp); [lia|].
  assert (Hbody : (x <-- load (padd p i) ;; y <-- mem_copy x ;;
                   store (padd p i) y) s = Ok tt s).
  { rewrite (bind_Ok _ _ _ _ _ (load_intro _ _ _ Hal Hx)).
    rewrite (bind_Ok (mem_copy x) _ s x s)
      by (unfold mem_copy; by rewrite Hnp).
    rewrite store_intro by done. rewrite insert_id by done. by destruct s. }
  rewrite (bind_Ok _ _ _ _ _ Hbody). apply IH. intros j Hj. apply H. lia.
Qed.

Lemma mem_scan_result (ptr : Z) (s : state) (p' n q : Z) (s' : state) :
  mem_scan_extent ptr s = Ok (p', n) s →
  mem_scan ptr s = Ok q s' →
  q = Z.land (padd (padd p' n) 1) (Z.lnot 7).
Proof.
  intros He H. unfold mem_scan in H. rewrite (bind_Ok _ _ _ _ _ He) in H.
  apply bind_Ok_inv in H as ([] & s1 & _ & [= <- _]). done.
Qed.

(** X8.  [mem_scan] and [mem_copy] agree on the footprint of pairs,
    vectors and byte vectors.  For an object at an 8-aligned address
    whose first word says it is none of a code block and a record, and
    for which [mem_copy] computes [size] words: [size] is positive;
    whenever [mem_scan] returns, it returns the address [4 * size]
    bytes further on, rounded up to 8, which is where [mem_copy] put
    the next object; and when no slot of the object holds a pointer,
    [mem_scan] does return and leaves the state as it is. *)
Theorem mem_scan_advance (s : state) (ptr h size : Z) :
  ptr mod 8 = 0 → 0 ≤ ptr → mem s !! ptr = Some h → 0 ≤ h < 2 ^ 32 →
  h mod 64 ≠ 23 → h mod 8 ≠ 6 →
  mem_copy_size ptr s = Ok size s →
  ptr + 4 * (size + 1) < 2 ^ 32 →
  0 < size ∧
  (∀ q s', mem_scan ptr s = Ok q s' → q = ptr + 4 * round_up_even size) ∧
  (∀ p' n, mem_scan_extent ptr s = Ok (p', n) s →
           (∀ i, 0 ≤ i < n →
                 ∃ x, mem s !! padd p' i = Some x ∧ val_ptr_p x = false) →
           mem_scan ptr s = Ok (ptr + 4 * round_up_even size) s).
Proof.
  intros H8 H0 Hh Hh32 Hnc Hnr Hsz H32.
  assert (Hal : ptr mod 4 = 0) by (Z.div_mod_to_equations; lia).
  assert (Hld : load ptr s = Ok h s) by (by apply load_intro).
  assert (Hext : ∃ p' n,
             mem_scan_extent ptr s = Ok (p', n) s ∧ 0 < size ∧
             0 ≤ n < 2 ^ 30 ∧ p' mod 4 = 0 ∧ 0 ≤ p' ∧ p' + 4 * (n + 1) < 2 ^ 32 ∧
             Z.land (padd (padd p' n) 1) (Z.lnot 7) = ptr + 4 * round_up_even size).
  { unfold mem_copy_size in Hsz. unfold mem_scan_extent.
    rewrite (bind_Ok (get indeterminate) _ s (indeterminate s) s eq_refl) in Hsz.
    rewrite (bind_Ok _ _ _ _ _ (pair_ptr_p_word s ptr h Hal Hh)) in Hsz.
    rewrite (bind_Ok _ _ _ _ _ (pair_ptr_p_word s ptr h Hal Hh)).
    set (b := if h mod 8 =? 7 then (h mod 64 =? 39) || (h mod 64 =? 55)
              else negb (h mod 8 =? 6)) in *.
    destruct b eqn:Hb.
    { injection Hsz as <-. exists ptr, 2. split_and!; try done; try lia.
      rewrite !padd_small by (rewrite ?padd_small; lia). rewrite land_lnot_7.
      unfold round_up_even. Z.div_mod_to_equations. lia. }
    rewrite (bind_Ok _ _ _ _ _ (vec_ptr_p_word s ptr h Hal Hh)) in Hsz.
    rewrite (bind_Ok _ _ _ _ _ (vec_ptr_p_word s ptr h Hal Hh)).
    destruct (Z.eqb_spec (h mod 16) 15) as [Hv|Hv].
    { rewrite (bind_Ok _ _ _ _ _ (vec_ptr_len_word s ptr h Hal Hh)) in Hsz.
      rewrite (bind_Ok _ _ _ _ _ (vec_ptr_len_word s ptr h Hal Hh)).
      assert (Hl : 0 ≤ h / 16 < 2 ^ 28) by (Z.div_mod_to_equations; lia).
      rewrite sint_small in Hsz by lia. injection Hsz as <-.
      rewrite signed_small by lia.
      eexists _, _. split; [reflexivity|].
      rewrite !padd_small by (rewrite ?padd_small; lia).
      split_and!; try lia;
        rewrite ?land_lnot_7; unfold round_up_even; Z.div_mod_to_equations; lia. }
    rewrite (bind_Ok _ _ _ _ _ (bytev_ptr_p_word s ptr h Hal Hh)) in Hsz.
    rewrite (bind_Ok _ _ _ _ _ (bytev_ptr_p_word s ptr h Hal Hh)).
    destruct (Z.eqb_spec (h mod 64) 7) as [Hb7|Hb7].
    { rewrite (bind_Ok _ _ _ _ _ (bytev_ptr_len_word s ptr h Hal Hh)) in Hsz.
      rewrite (bind_Ok _ _ _ _ _ (bytev_ptr_len_word s ptr h Hal Hh)).
      assert (Hl : 0 ≤ h / 64 < 2 ^ 26) by (Z.div_mod_to_equations; lia).
      rewrite (wrap_small (h / 64 + 3)) in * by lia.
      assert (Hw : 0 < (h / 64 + 3) / 4 + 1 < 2 ^ 25)
        by (Z.div_mod_to_equations; lia).
      rewrite sint_small in Hsz by lia. injection Hsz as <-.
      rewrite (wrap_small ((h / 64 + 3) / 4 + 1)) by lia.
      eexists _, _. split; [reflexivity|].
      rewrite !padd_small by (rewrite ?padd_small; lia).
      split_and!; try lia;
        rewrite ?land_lnot_7; unfold round_up_even; Z.div_mod_to_equations; lia. }
    exfalso. unfold b in Hb.
    destruct (Z.eqb_spec (h mod 8) 7).
    - apply orb_false_iff in Hb as [H1 H2]. apply Z.eqb_neq in H1, H2.
      Z.div_mod_to_equations. lia.
    - apply negb_false_iff, Z.eqb_eq in Hb. done. }
  destruct Hext as (p' & n & He & Hpos & Hn & Hp4 & Hp0 & Hp32 & Hq).
  split; [done|]. split.
  - intros q s' H. rewrite <- Hq. by eapply mem_scan_result.
  - intros p'' n' He' Hslots. rewrite He in He'. injection He' as <- <-.
    unfold mem_scan. rewrite (bind_Ok _ _ _ _ _ He).
    rewrite (bind_Ok _ _ s tt s), Hq; [done|].
    apply scan_loop_no_pointers. intros j Hj.
    split; [by apply padd_aligned|]. apply Hslots. lia.
Qed.

Lemma mem_scan_advance_witness :
  0 < 4 ∧
  (∀ q s', mem_scan 16 small_vector_state = Ok q s' →
           q = 16 + 4 * round_up_even 4) ∧
  (∀ p' n, mem_scan_extent 16 small_vector_state = Ok (p', n) small_vector_state →
           (∀ i, 0 ≤ i < n →
                 ∃ x, mem small_vector_state !! padd p' i = Some x ∧
                      val_ptr_p x = false) →
           mem_scan 16 small_vector_state
           = Ok (16 + 4 * round_up_even 4) small_vector_state).
Proof.
  apply (mem_scan_advance small_vector_state 16 (head_make 3 4 15) 4).
  - reflexivity.
  - lia.
  - vm_compute. reflexivity.
  - vm_compute. split; [discriminate | reflexivity].
  - vm_compute. discriminate.
  - vm_compute. discriminate.
  - vm_compute. reflexivity.
  - lia.
Defined.

(** ** What an allocation does to the semispaces *)

Lemma respects_modify (R : relation state) (f : state → state) :
  (∀ s, R s (f s)) → respects R (modify f).
Proof. intros H s a s' [= _ <-]. apply H. Qed.

Lemma respects_get_root (R : relation state) `{!PreOrder R} (i : nat) :
  respects R (get_root i).
Proof. intros s v s' H. apply get_root_Ok in H as [-> _]. reflexivity. Qed.

Lemma respects_set_root (R : relation state) (i : nat) (v : Z) :
  (∀ s r, R s (set_roots r s)) → respects R (set_root i v).
Proof. intros H s a s' Hs. apply set_root_Ok in Hs as [-> _]. apply H. Qed.

Global Instance space_rel_preorder : PreOrder space_rel.
Proof.
  split.
  - intros s. unfold space_rel. tauto.
  - intros s1 s2 s3 H1 H2. unfold space_rel in *.
    destruct H1 as (? & ? & ? & ? & ? & ? & ? & ? & ?).
    destruct H2 as (? & ? & ? & ? & ? & ? & ? & ? & ?). split_and!; congruence.
Qed.

Lemma space_rel_mem s m : space_rel s (set_mem m s).
Proof. unfold space_rel. cbn. tauto. Qed.
Lemma space_rel_new_next x s : space_rel s (set_mem_new_next x s).
Proof. unfold space_rel. cbn. tauto. Qed.
Lemma space_rel_roots s r : space_rel s (set_roots r s).
Proof. unfold space_rel. cbn. tauto. Qed.

Ltac space_respects :=
  repeat first
    [ respects_step space_rel_mem
    | apply respects_modify; intros ?; apply space_rel_new_next
    | apply (respects_get_root _)
    | apply respects_set_root; apply space_rel_roots ].

Lemma space_mem_follow_fwd_ptr p : respects space_rel (mem_follow_fwd_ptr p).
Proof. unfold mem_follow_fwd_ptr. space_respects. Qed.

Lemma space_mem_copy_size p : respects space_rel (mem_copy_size p).
Proof.
  unfold mem_copy_size, pair_ptr_p, vec_ptr_p, vec_ptr_len, bytev_ptr_p,
    bytev_ptr_len, code_ptr_p, code_ptr_lit_end, rec_ptr_p, rec_ptr_desc,
    mem_follow_fwd_ptr.
  space_respects.
Qed.

Lemma space_mem_copy v : respects space_rel (mem_copy v).
Proof.
  unfold mem_copy, mem_install_fwd_ptr.
  destruct (negb (val_ptr_p v)); [apply (respects_ret _)|].
  apply (respects_bind _); [apply space_mem_follow_fwd_ptr | intros new_ptr].
  destruct (negb _); [apply (respects_ret _)|].
  apply (respects_bind _); [apply space_mem_copy_size | intros size].
  space_respects.
Qed.

Lemma space_mem_scan p : respects space_rel (mem_scan p).
Proof.
  unfold mem_scan.
  apply (respects_bind _).
  - unfold mem_scan_extent, pair_ptr_p, vec_ptr_p, vec_ptr_len, bytev_ptr_p,
      bytev_ptr_len, code_ptr_p, code_ptr_lit_begin, code_ptr_lit_end,
      rec_ptr_p, rec_ptr_desc.
    repeat first [ apply space_mem_copy | respects_step space_rel_mem ].
  - intros [ptr size].
    apply (respects_bind _); [|intros ?; apply (respects_ret _)].
    apply (respects_for_loop _). intros i.
    repeat first [ apply space_mem_copy | respects_step space_rel_mem ].
Qed.

Lemma space_mem_gc_scan : respects space_rel mem_gc_scan.
Proof.
  unfold mem_gc_scan. apply (respects_bind _); [apply (respects_get _)|].
  intros new_first. apply (respects_while _). intros ptr.
  apply (respects_bind _); [apply (respects_get _)|]. intros new_next.
  destruct (_ <? _); [|apply (respects_ret _)].
  apply (respects_bind _); [apply space_mem_scan|].
  intros ?. apply (respects_ret _).
Qed.

Lemma space_copy_roots n i :
  respects space_rel
    (for_loop n i (λ i, v <-- get_root (Z.to_nat i) ;; v' <-- mem_copy v ;;
                        set_root (Z.to_nat i) v')).
Proof.
  apply (respects_for_loop _). intros j.
  repeat first [ apply space_mem_copy | space_respects ].
Qed.

Lemma mem_alloc_run (n : Z) (s : state) (p : Z) (s' : state) :
  mem_alloc n s = Ok p s' →
  mem_first s' = malloc_base s (malloc_count s) ∧
  mem_first s' ≠ 0 ∧
  mem_end s' = padd (mem_first s') mem_size ∧
  malloc_count s' = S (malloc_count s) ∧
  mem_new_first s' = 0 ∧
  n ≤ pdiff (mem_end s') p ∧
  mem_next s' = padd p (Z.land (sint (n + 1)) (Z.lnot 1)) ∧
  (∀ a, mem_first s ≤ a < mem_first s + mem_size * 4 → mem s' !! a = None) ∧
  indeterminate s' = indeterminate s ∧ loop_bound s' = loop_bound s.
Proof.
  intros H. unfold mem_alloc in H.
  apply bind_Ok_inv in H as (ptr & s0 & [= <- <-] & H).
  apply bind_Ok_inv in H as (e & s0 & [= <- <-] & H).
  apply bind_Ok_inv in H as (ptr & s1 & Hgc & H).
  apply bind_Ok_inv in H as ([] & s2 & [= <-] & [= <- <-]).
  rewrite orb_true_r in Hgc. unfold mem_gc in Hgc.
  apply bind_Ok_inv in Hgc as ([] & s3 & Hbegin & H).
  apply bind_Ok_inv in H as ([] & s4 & Hscan & Hfin).
  unfold mem_gc_begin in Hbegin.
  apply bind_Ok_inv in Hbegin as (b & sb & [= <- <-] & Hbegin).
  destruct (_ =? 0) eqn:Hnz; [done|]. apply Z.eqb_neq in Hnz.
  apply bind_Ok_inv in Hbegin as ([] & sb & [= <-] & Hbegin).
  apply bind_Ok_inv in Hbegin as (nr & sb' & [= <- <-] & Hbegin).
  apply space_copy_roots in Hbegin. apply space_mem_gc_scan in Hscan.
  pose proof (transitivity Hbegin Hscan)
    as (Hf & Hn & He & Hnf & Hne & Hmb & Hmc & Hi & Hlb).
  cbn in Hf, Hn, He, Hnf, Hne, Hmb, Hmc, Hi, Hlb.
  unfold mem_gc_finish in Hfin.
  apply bind_Ok_inv in Hfin as (old & s5 & [= <- <-] & Hfin).
  apply bind_Ok_inv in Hfin as ([] & s5 & [= <-] & Hfin).
  apply bind_Ok_inv in Hfin as ([] & s6 & [= <-] & Hfin).
  apply bind_Ok_inv in Hfin as ([] & s7 & [= <-] & Hfin).
  apply bind_Ok_inv in Hfin as (ne & s8 & [= <- <-] & Hfin).
  apply bind_Ok_inv in Hfin as (nn & s9 & [= <- <-] & Hfin).
  destruct (_ <? n) eqn:Hroom; [done|]. apply Z.ltb_ge in Hroom.
  injection Hfin as <- <-. cbn in *.
  rewrite Hnf, Hne, Hmc. split_and!; try done.
  - by rewrite <- Hne.
  - intros a Ha. apply map_lookup_filter_None. right. intros w _. cbn.
    rewrite Hf. lia.
Qed.

(** X9.  With [DEBUG_GC_BEFORE_ALLOC] on, every [mem_alloc n] that returns
    has moved the heap: the heap is now the block that [malloc] handed
    out for the collection, which is not null, and ends [mem_size] words
    after its start; the destination semispace is cleared; at least [n]
    words were free at the address returned; [mem_next] is the address
    returned plus [n] rounded up to even; and every word of the old
    semispace has been freed, so a pointer into it that was not
    protected is dangling. *)
Theorem mem_alloc_switches_semispace (n : Z) (s : state) (p : Z) (s' : state) :
  mem_alloc n s = Ok p s' →
  mem_first s' = malloc_base s (malloc_count s) ∧
  mem_first s' ≠ 0 ∧
  mem_end s' = padd (mem_first s') mem_size ∧
  malloc_count s' = S (malloc_count s) ∧
  mem_new_first s' = 0 ∧
  n ≤ pdiff (mem_end s') p ∧
  mem_next s' = padd p (Z.land (sint (n + 1)) (Z.lnot 1)) ∧
  (∀ a, mem_first s ≤ a < mem_first s + mem_size * 4 → mem s' !! a = None).
Proof.
  intros H.
  destruct (mem_alloc_run n s p s' H) as (? & ? & ? & ? & ? & ? & ? & ? & _).
  done.
Qed.

Lemma mem_alloc_switches_semispace_witness :
  mem_first fresh_heap_1 = malloc_base fresh_heap (malloc_count fresh_heap) ∧
  mem_first fresh_heap_1 ≠ 0 ∧
  mem_end fresh_heap_1 = padd (mem_first fresh_heap_1) mem_size ∧
  malloc_count fresh_heap_1 = S (malloc_count fresh_heap) ∧
  mem_new_first fresh_heap_1 = 0 ∧
  3 ≤ pdiff (mem_end fresh_heap_1) 0x20000000 ∧
  mem_next fresh_heap_1 = padd 0x20000000 (Z.land (sint (3 + 1)) (Z.lnot 1)) ∧
  (∀ a, mem_first fresh_heap ≤ a < mem_first fresh_heap + mem_size * 4 →
        mem fresh_heap_1 !! a = None).
Proof.
  apply (mem_alloc_switches_semispace 3 fresh_heap 0x20000000 fresh_heap_1).
  vm_compute. reflexivity.
Defined.

(** ** Pairs, records and vectors *)

Lemma GC_PROTECT_intro (v : Z) (s : state) :
  (length (roots s) < 200)%nat →
  GC_PROTECT v s = Ok (length (roots s)) (set_roots (roots s ++ [v]) s).
Proof. intros H. unfold GC_PROTECT. by rewrite decide_True. Qed.

Lemma GC_PROTECT_bind {B} (v : Z) (r : list Z) (k : nat → M B) (s : state) :
  (length r < 200)%nat →
  bind (GC_PROTECT v) k (set_roots r s) = k (length r) (set_roots (r ++ [v]) s).
Proof.
  intros Hr. apply bind_Ok. rewrite GC_PROTECT_intro by done. done.
Qed.

Lemma set_root_intro (i : nat) (v : Z) (s : state) :
  (i < length (roots s))%nat →
  set_root i v s = Ok tt (set_roots (<[i := v]> (roots s)) s).
Proof. intros H. unfold set_root. by rewrite decide_True. Qed.

Lemma get_root_intro (i : nat) (v : Z) (s : state) :
  roots s !! i = Some v → get_root i s = Ok v s.
Proof. intros H. unfold get_root. by rewrite H. Qed.

(** X10.  Whenever the allocation inside [cons a d] succeeds, [cons]
    returns a pair-tagged value whose [car] and [cdr] are the two
    protected variables as they are after the allocation, which are [a]
    and [d] themselves when these are not heap pointers; the root stack
    is as long as before; and [set_car] and [set_cdr] replace one
    component and leave the other. *)
Theorem cons_car_cdr (s : state) (a d ptr : Z) (s1 : state) :
  heap_aligned s → (length (roots s) + 1 < 200)%nat →
  mem_alloc 2 (set_roots ((roots s ++ [a]) ++ [d]) s) = Ok ptr s1 →
  ∃ (v : Z) (s2 : state) (a' d' : Z),
    cons a d s = Ok v s2 ∧
    roots s1 !! length (roots s) = Some a' ∧
    roots s1 !! S (length (roots s)) = Some d' ∧
    (val_ptr_p a = false → a' = a) ∧
    (val_ptr_p d = false → d' = d) ∧
    pair_p v = true ∧
    car v s2 = Ok a' s2 ∧
    cdr v s2 = Ok d' s2 ∧
    length (roots s2) = length (roots s) ∧
    (∀ x, ∃ s3, set_car v x s2 = Ok tt s3 ∧
                car v s3 = Ok x s3 ∧ cdr v s3 = Ok d' s3) ∧
    (∀ x, ∃ s3, set_cdr v x s2 = Ok tt s3 ∧
                car v s3 = Ok a' s3 ∧ cdr v s3 = Ok x s3).
Proof.
  intros (Hal & H8 & H32) Hroom Halloc.
  set (sa := set_roots (roots s ++ [a]) s).
  set (sp := set_roots ((roots s ++ [a]) ++ [d]) s) in *.
  destruct (mem_alloc_post 2 sp ptr s1 Hal H8 H32 Halloc)
    as ((Hp8 & Hp32 & _ & Hlen1 & Hkeep) & _ & _).
  cbn in Hlen1, Hkeep. rewrite !length_app in Hlen1. cbn in Hlen1.
  destruct (lookup_lt_is_Some_2 (roots s1) (length (roots s))) as [a' Ha']; [lia|].
  destruct (lookup_lt_is_Some_2 (roots s1) (S (length (roots s)))) as [d' Hd']; [lia|].
  assert (Hp4 : ptr mod 4 = 0) by (Z.div_mod_to_equations; lia).
  assert (Hv : val_ptr_make ptr 1 = ptr + 1).
  { unfold val_ptr_make. apply wrap_small. Z.div_mod_to_equations. lia. }
  assert (Hpp : pair_ptr (val_ptr_make ptr 1) = ptr).
  { unfold pair_ptr, val_ptr. rewrite Hv.
    replace (ptr + 1 - 1) with ptr by lia. apply wrap_small. lia. }
  assert (Hq4 : padd ptr 1 mod 4 = 0) by (by apply padd_aligned).
  assert (Hne : padd ptr 1 ≠ ptr).
  { unfold padd, wrap. Z.div_mod_to_equations. lia. }
  set (m2 := <[padd ptr 1 := d']> (<[ptr := a']> (mem s1))).
  set (s2 := set_roots (take (length (roots s)) (roots s1)) (set_mem m2 s1)).
  exists (val_ptr_make ptr 1), s2, a', d'.
  split_and!.
  - assert (Hpa : GC_PROTECT a s = Ok (length (roots s)) sa).
    { unfold GC_PROTECT. rewrite decide_True by lia. done. }
    assert (Hpd : GC_PROTECT d sa = Ok (S (length (roots s))) sp).
    { unfold GC_PROTECT. cbn. rewrite length_app. cbn.
      rewrite decide_True by lia. by rewrite Nat.add_1_r. }
    unfold cons.
    rewrite (bind_Ok GC_BEGIN _ s (length (roots s)) s eq_refl).
    rewrite (bind_Ok _ _ _ _ _ Hpa), (bind_Ok _ _ _ _ _ Hpd).
    unfold pair_alloc at 1.
    rewrite (bind_Ok (bind (mem_alloc 2) _) _ sp (val_ptr_make ptr 1) s1)
      by (by rewrite (bind_Ok _ _ _ _ _ Halloc)).
    unfold set_car, set_cdr. rewrite Hpp.
    unfold bind at 1. unfold get_root at 1. rewrite Ha'.
    rewrite (bind_Ok _ _ _ _ _ (store_intro ptr a' s1 Hp4)).
    unfold bind at 1. unfold get_root at 1. cbn [roots set_mem]. rewrite Hd'.
    rewrite (bind_Ok _ _ _ _ _ (store_intro (padd ptr 1) d' _ Hq4)).
    reflexivity.
  - done.
  - done.
  - intros Hnp. specialize (Hkeep (length (roots s)) a).
    rewrite lookup_app_l, lookup_app_r, Nat.sub_diag in Hkeep
      by (rewrite ?length_app; cbn; lia).
    specialize (Hkeep eq_refl Hnp). congruence.
  - intros Hnp. specialize (Hkeep (S (length (roots s))) d).
    rewrite lookup_app_r in Hkeep by (rewrite ?length_app; cbn; lia).
    rewrite length_app in Hkeep. cbn in Hkeep.
    replace (S (length (roots s)) - (length (roots s) + 1))%nat with 0%nat
      in Hkeep by lia.
    specialize (Hkeep eq_refl Hnp). congruence.
  - unfold pair_p. rewrite Hv, val_tag_mod by lia. change (2 ^ 3) with 8.
    apply Z.eqb_eq. Z.div_mod_to_equations. lia.
  - unfold car. rewrite Hpp. apply load_intro; [done|].
    cbn. unfold m2. rewrite lookup_insert_ne by done. apply lookup_insert_eq.
  - unfold cdr. rewrite Hpp. apply load_intro; [done|].
    cbn. apply lookup_insert_eq.
  - cbn. rewrite length_take. lia.
  - intros x. eexists. unfold set_car, car, cdr. rewrite Hpp.
    split; [by apply store_intro|]. split.
    + apply load_intro; [done|]. cbn. apply lookup_insert_eq.
    + apply load_intro; [done|]. cbn. rewrite lookup_insert_ne by done.
      apply lookup_insert_eq.
  - intros x. eexists. unfold set_cdr, car, cdr. rewrite Hpp.
    split; [by apply store_intro|]. split.
    + apply load_intro; [done|]. cbn. rewrite lookup_insert_ne by done.
      unfold m2. rewrite lookup_insert_ne by done. apply lookup_insert_eq.
    + apply load_intro; [done|]. cbn. apply lookup_insert_eq.
Qed.

Lemma cons_car_cdr_witness :
  ∃ (v : Z) (s2 : state) (a' d' : Z),
    cons (fixnum_make 1) nil fresh_heap = Ok v s2 ∧
    roots fresh_heap_consing !! length (roots fresh_heap) = Some a' ∧
    roots fresh_heap_consing !! S (length (roots fresh_heap)) = Some d' ∧
    (val_ptr_p (fixnum_make 1) = false → a' = fixnum_make 1) ∧
    (val_ptr_p nil = false → d' = nil) ∧
    pair_p v = true ∧
    car v s2 = Ok a' s2 ∧
    cdr v s2 = Ok d' s2 ∧
    length (roots s2) = length (roots fresh_heap) ∧
    (∀ x, ∃ s3, set_car v x s2 = Ok tt s3 ∧
                car v s3 = Ok x s3 ∧ cdr v s3 = Ok d' s3) ∧
    (∀ x, ∃ s3, set_cdr v x s2 = Ok tt s3 ∧
                car v s3 = Ok a' s3 ∧ cdr v s3 = Ok x s3).
Proof.
  apply (cons_car_cdr fresh_heap (fixnum_make 1) nil 0x20000000
           fresh_heap_consing).
  - exact fresh_heap_aligned.
  - vm_compute. lia.
  - vm_compute. reflexivity.
Defined.

Lemma rec_make_protect_run (args : list Z) :
  ∀ (r : list Z) (s : state),
    (length r + length args ≤ 200)%nat →
    rec_make_protect (length args) args (set_roots r s)
    = Ok tt (set_roots (r ++ args) s).
Proof.
  induction args as [|a args IH]; intros r s Hroom; cbn [length rec_make_protect].
  - by rewrite app_nil_r.
  - cbn [length] in Hroom. rewrite GC_PROTECT_bind by lia.
    rewrite IH by (rewrite length_app; cbn; lia).
    by rewrite <- app_assoc.
Qed.

Lemma rec_fill_loop (v : Z) (g : nat) (n : nat) :
  rec_ptr v mod 4 = 0 →
  ∀ (i : Z) (s : state),
    0 ≤ i → i + Z.of_nat n ≤ 2 ^ 30 →
    (g + 1 + Z.to_nat i + n ≤ length (roots s))%nat →
    ∃ m',
      for_loop n i (λ i, x <-- get_root (g + 1 + Z.to_nat i) ;; rec_set v i x) s
      = Ok tt (set_mem m' s) ∧
      (∀ j, i ≤ j < i + Z.of_nat n →
            m' !! padd (rec_ptr v) j = roots s !! (g + 1 + Z.to_nat j)%nat) ∧
      (∀ a, (∀ j, i ≤ j < i + Z.of_nat n → a ≠ padd (rec_ptr v) j) →
            m' !! a = mem s !! a).
Proof.
  intros Hal. induction n as [|n IH]; intros i s Hi Hn Hlen.
  - exists (mem s). split_and!.
    + by destruct s.
    + intros j Hj. lia.
    + done.
  - cbn [for_loop].
    destruct (lookup_lt_is_Some_2 (roots s) (g + 1 + Z.to_nat i)) as [x Hx];
      [lia|].
    assert (Hbody : (x <-- get_root (g + 1 + Z.to_nat i) ;; rec_set v i x) s
                    = Ok tt (set_mem (<[padd (rec_ptr v) i := x]> (mem s)) s)).
    { rewrite (bind_Ok _ _ _ _ _ (get_root_intro _ _ s Hx)). unfold rec_set.
      apply store_intro. by apply padd_aligned. }
    rewrite (bind_Ok _ _ _ _ _ Hbody).
    destruct (IH (i + 1) (set_mem (<[padd (rec_ptr v) i := x]> (mem s)) s))
      as (m' & Hrun & Hin & Hout); [lia | lia | cbn [roots set_mem]; lia |].
    exists m'. split_and!.
    + exact Hrun.
    + intros j Hj. destruct (decide (j = i)) as [->|Hne].
      * rewrite Hout; [cbn; by rewrite lookup_insert_eq|].
        intros j Hj' Heq. apply padd_inj in Heq; lia.
      * rewrite Hin by lia. done.
    + intros a Ha. rewrite Hout.
      * cbn. apply lookup_insert_ne. intros Heq. by apply (Ha i); [lia|].
      * intros j Hj. apply Ha. lia.
Qed.

(** X11.  Whenever the allocation inside [rec_make] succeeds, for a type
    whose field 0 holds the number of the arguments given, [rec_make]
    returns a record-tagged value; its descriptor, read back with
    [rec_desc], is the protected type as it is after the allocation;
    field [i], read back with [rec_ref], is the [i]-th protected
    argument as it is after the allocation, which is the argument itself
    when that is not a heap pointer; and the root stack is cut back to
    what it was. *)
Theorem rec_make_spec (s : state) (type : Z) (args : list Z) (w ptr : Z)
    (s1 : state) :
  let g := length (roots s) in
  let n := Z.of_nat (length args) in
  heap_aligned s → (g + length args < 200)%nat →
  rec_ref type 0 s = Ok w s → fixnum_num w = n →
  mem_alloc (n + 1) (set_roots (roots s ++ type :: args) s) = Ok ptr s1 →
  ∃ (v : Z) (s2 : state),
    rec_make type args s = Ok v s2 ∧
    rec_p v = true ∧
    (∀ t, roots s1 !! g = Some t → rec_p t = true → 0 ≤ t < 2 ^ 32 →
          rec_desc v s2 = Ok t s2) ∧
    (∀ i x, roots s1 !! (g + 1 + i)%nat = Some x → (i < length args)%nat →
            rec_ref v (Z.of_nat i) s2 = Ok x s2) ∧
    (∀ i a, args !! i = Some a → val_ptr_p a = false →
            rec_ref v (Z.of_nat i) s2 = Ok a s2) ∧
    roots s2 = take g (roots s1).
Proof.
  intros g n (Hal & H8 & H32) Hroom Hw Hn Halloc.
  set (sp := set_roots (roots s ++ type :: args) s) in *.
  destruct (mem_alloc_post (n + 1) sp ptr s1 Hal H8 H32 Halloc)
    as ((Hp8 & Hp32 & _ & Hlen1 & Hkeep) & _ & _).
  change (roots sp) with (roots s ++ type :: args) in Hlen1, Hkeep.
  rewrite length_app in Hlen1. cbn [length] in Hlen1. fold g in Hlen1.
  assert (Hp4 : ptr mod 4 = 0) by (Z.div_mod_to_equations; lia).
  set (v := val_ptr_make ptr 3).
  assert (Hv : v = ptr + 3).
  { unfold v, val_ptr_make. apply wrap_small. Z.div_mod_to_equations. lia. }
  assert (Hvp : val_ptr v 3 = ptr).
  { unfold val_ptr. rewrite Hv. replace (ptr + 3 - 3) with ptr by lia.
    by apply wrap_small. }
  assert (Hrp4 : rec_ptr v mod 4 = 0).
  { unfold rec_ptr. rewrite Hvp. by apply padd_aligned. }
  assert (Hhdr : padd (rec_ptr v) (-1) = ptr).
  { unfold rec_ptr. rewrite Hvp. unfold padd, wrap. Z.div_mod_to_equations. lia. }
  assert (Hslot : ∀ j, 0 ≤ j < 2 ^ 30 - 1 → ptr ≠ padd (rec_ptr v) j).
  { intros j Hj. unfold rec_ptr. rewrite Hvp. unfold padd, wrap.
    Z.div_mod_to_equations. lia. }
  destruct (lookup_lt_is_Some_2 (roots s1) g) as [t Ht]; [lia|].
  set (h := rec_header_make t).
  set (s1' := set_mem (<[ptr := h]> (mem s1)) s1).
  destruct (rec_fill_loop v g (length args) Hrp4 0 s1')
    as (m' & Hrun & Hin & Hout);
    [lia | lia | cbn [roots s1' set_mem]; lia |].
  set (s2 := set_roots (take g (roots s1)) (set_mem m' s1')).
  assert (Hfield : ∀ i x, roots s1 !! (g + 1 + i)%nat = Some x →
                          (i < length args)%nat →
                          rec_ref v (Z.of_nat i) s2 = Ok x s2).
  { intros i x Hx Hi. unfold rec_ref. apply load_intro; [by apply padd_aligned|].
    cbn [mem s2 set_roots set_mem]. rewrite Hin by lia.
    cbn [roots s1' set_mem]. by rewrite Nat2Z.id. }
  exists v, s2. split_and!.
  - unfold rec_make. rewrite (bind_Ok _ _ _ _ _ Hw), Hn.
    unfold n. rewrite !Nat2Z.id.
    rewrite (bind_Ok GC_BEGIN _ s g s eq_refl).
    rewrite (bind_Ok (GC_PROTECT type) _ s g (set_roots (roots s ++ [type]) s))
      by (apply GC_PROTECT_intro; lia).
    rewrite (bind_Ok _ _ _ tt sp).
    2:{ rewrite rec_make_protect_run by (rewrite length_app; cbn; lia).
        unfold sp. by rewrite <- app_assoc. }
    unfold rec_alloc. rewrite (wrap_small (Z.of_nat _)) by lia.
    rewrite sint_small by lia. fold n.
    rewrite (bind_Ok (bind (mem_alloc _) _) _ sp v s1)
      by (by rewrite (bind_Ok _ _ _ _ _ Halloc)).
    rewrite (bind_Ok _ _ _ _ _ (get_root_intro g t s1 Ht)).
    unfold rec_set_desc. rewrite Hhdr.
    rewrite (bind_Ok _ _ _ _ _ (store_intro ptr h s1 Hp4)).
    fold s1'. by rewrite (bind_Ok _ _ _ _ _ Hrun).
  - unfold rec_p. rewrite Hv, val_tag_mod by lia. change (2 ^ 3) with 8.
    apply Z.eqb_eq. Z.div_mod_to_equations. lia.
  - intros t' Ht' Hrec Ht32. rewrite Ht in Ht'. injection Ht' as <-.
    unfold rec_desc, rec_ptr_desc. rewrite Hvp.
    assert (Hh : mem s2 !! ptr = Some h).
    { cbn [mem s2 set_roots set_mem]. rewrite Hout; [apply lookup_insert_eq|].
      intros j Hj. apply Hslot. lia. }
    rewrite (bind_Ok _ _ _ _ _ (load_intro _ _ _ Hp4 Hh)).
    unfold ret. f_equal. unfold h, rec_header_make, val_ptr_make, val_ptr.
    unfold rec_p in Hrec. rewrite val_tag_mod in Hrec by lia.
    change (2 ^ 3) with 8 in Hrec. apply Z.eqb_eq in Hrec.
    unfold wrap. Z.div_mod_to_equations. lia.
  - exact Hfield.
  - intros i a Ha Hnp. apply Hfield; [|by eapply lookup_lt_Some].
    apply Hkeep; [|done]. rewrite lookup_app_r by (fold g; lia).
    replace (g + 1 + i - length (roots s))%nat with (S i) by (unfold g; lia).
    done.
  - done.
Qed.

Lemma record_type_heap_aligned : heap_aligned record_type_heap.
Proof.
  split; [|split].
  - unfold malloc_aligned.
    change (malloc_base record_type_heap)
      with (λ k : nat, if Nat.even k then 0x10000000 else 0x20000000).
    intros k. cbv beta.
    destruct (Nat.even k); split; [reflexivity | lia | reflexivity | lia].
  - vm_compute. reflexivity.
  - vm_compute. split; [discriminate | reflexivity].
Qed.

Lemma rec_make_spec_witness :
  ∃ (v : Z) (s2 : state),
    rec_make 0x20000003 [fixnum_make 1; nil] record_type_heap = Ok v s2 ∧
    rec_p v = true ∧
    (∀ t, roots record_type_heap_making !! length (roots record_type_heap)
          = Some t →
          rec_p t = true → 0 ≤ t < 2 ^ 32 → rec_desc v s2 = Ok t s2) ∧
    (∀ i x, roots record_type_heap_making
              !! (length (roots record_type_heap) + 1 + i)%nat = Some x →
            (i < length [fixnum_make 1; nil])%nat →
            rec_ref v (Z.of_nat i) s2 = Ok x s2) ∧
    (∀ i a, [fixnum_make 1; nil] !! i = Some a → val_ptr_p a = false →
            rec_ref v (Z.of_nat i) s2 = Ok a s2) ∧
    roots s2 = take (length (roots record_type_heap))
                 (roots record_type_heap_making).
Proof.
  apply (rec_make_spec record_type_heap 0x20000003 [fixnum_make 1; nil]
           (fixnum_make 2) 0x10000010 record_type_heap_making).
  - exact record_type_heap_aligned.
  - vm_compute. lia.
  - vm_compute. reflexivity.
  - reflexivity.
  - vm_compute. reflexivity.
Defined.

(** X12.  [vec_set] and [vec_ref] check no bounds: for every index [i],
    negative or not, [vec_set v i x] stores [x] in the word [i] words
    after the first slot; [vec_ref v i] reads it back; every other slot
    reads as before; and the index -1 is the header, so that after
    [vec_set v (-1) x] the length of the vector is the header payload of
    [x], while after a store at any other index it is what it was. *)
Theorem vec_set_no_bounds_check (s : state) (v i x : Z) :
  vec_ptr v mod 4 = 0 → - 2 ^ 29 ≤ i < 2 ^ 29 →
  ∃ s',
    vec_set v i x s = Ok tt s' ∧
    vec_ref v i s' = Ok x s' ∧
    (∀ j w, - 2 ^ 29 ≤ j < 2 ^ 29 → j ≠ i →
            vec_ref v j s = Ok w s → vec_ref v j s' = Ok w s') ∧
    (i = -1 → vec_len v s' = Ok (head_payload x 4) s') ∧
    (i ≠ -1 → ∀ l, vec_len v s = Ok l s → vec_len v s' = Ok l s').
Proof.
  intros Hal Hi.
  assert (Hne : ∀ j, - 2 ^ 29 ≤ j < 2 ^ 29 → j ≠ i →
                     padd (vec_ptr v) i ≠ padd (vec_ptr v) j).
  { intros j Hj Hji. unfold padd, wrap. Z.div_mod_to_equations. lia. }
  assert (Hhdr : padd (vec_ptr v) (-1) = val_ptr v 2).
  { unfold vec_ptr, padd, val_ptr, wrap. Z.div_mod_to_equations. lia. }
  assert (Hq4 : ∀ j, padd (vec_ptr v) j mod 4 = 0)
    by (intros j; by apply padd_aligned).
  unfold vec_set, vec_ref, vec_len, vec_ptr_len.
  set (q := vec_ptr v) in *. clearbody q. rewrite <- Hhdr.
  exists (set_mem (<[padd q i := x]> (mem s)) s). split_and!.
  - by apply store_intro.
  - apply load_intro; [done|]. cbn. apply lookup_insert_eq.
  - intros j w Hj Hji Hw. apply load_Ok in Hw as (_ & Hj4 & Hw).
    apply load_intro; [done|]. cbn. rewrite lookup_insert_ne by auto. done.
  - intros ->.
    unfold bind. rewrite (load_intro (padd q (-1)) x); [done | done |].
    cbn. apply lookup_insert_eq.
  - intros Hi1 l Hl.
    apply bind_Ok_inv in Hl as (h & s0 & Hh & [= <- <-]).
    apply load_Ok in Hh as (_ & Hp4 & Hh).
    unfold bind. rewrite (load_intro (padd q (-1)) h); [done | done |].
    cbn. rewrite lookup_insert_ne; [done|]. apply Hne; lia.
Qed.

Lemma vec_set_no_bounds_check_witness :
  ∃ s',
    vec_set 18 (-1) (fixnum_make 5) small_vector_state = Ok tt s' ∧
    vec_ref 18 (-1) s' = Ok (fixnum_make 5) s' ∧
    (∀ j w, - 2 ^ 29 ≤ j < 2 ^ 29 → j ≠ -1 →
            vec_ref 18 j small_vector_state = Ok w small_vector_state →
            vec_ref 18 j s' = Ok w s') ∧
    (-1 = -1 → vec_len 18 s' = Ok (head_payload (fixnum_make 5) 4) s') ∧
    (-1 ≠ -1 → ∀ l, vec_len 18 small_vector_state = Ok l small_vector_state →
                    vec_len 18 s' = Ok l s').
Proof.
  apply (vec_set_no_bounds_check small_vector_state 18 (-1) (fixnum_make 5)).
  - reflexivity.
  - lia.
Defined.

(** ** The evaluator on self-evaluating forms *)

(** X13.  A form that is not a heap pointer (a small integer, a
    character, [nil], a boolean, the unspecified value) evaluates to
    itself: whenever the allocation of the sentinel frame succeeds and
    the loop bound allows two transfers of control, [boot_eval] returns
    the form itself and cuts the root stack back to what it was when
    [boot_eval] was entered. *)
Theorem boot_eval_immediate (s : state) (form0 ptr : Z) (s1 : state) :
  heap_aligned s → (length (roots s) + 6 < 200)%nat → (2 ≤ loop_bound s)%nat →
  val_ptr_p form0 = false →
  mem_alloc 2 (set_roots ((roots s ++ [form0; nil; nil; nil; nil; nil])
                            ++ [fixnum_make boot_op_sum]) s) = Ok ptr s1 →
  ∃ s', boot_eval form0 s = Ok form0 s' ∧
        roots s' = take (length (roots s)) (roots s1).
Proof.
  intros (Hal & H8 & H32) Hroom Hfuel Hnp Halloc.
  set (g := length (roots s)).
  set (r6 := roots s ++ [form0; nil; nil; nil; nil; nil]).
  set (s6 := set_roots r6 s).
  set (sp := set_roots (r6 ++ [fixnum_make boot_op_sum]) s) in *.
  assert (Hlen6 : length r6 = (g + 6)%nat).
  { unfold r6. rewrite length_app. done. }
  destruct (mem_alloc_post 2 sp ptr s1 Hal H8 H32 Halloc)
    as ((Hp8 & Hp32 & _ & Hlen1 & Hkeep) & _ & _).
  destruct (mem_alloc_run 2 sp ptr s1 Halloc)
    as (_ & _ & _ & _ & _ & _ & _ & _ & _ & Hlb).
  change (roots sp) with (r6 ++ [fixnum_make boot_op_sum]) in Hlen1, Hkeep.
  change (loop_bound sp) with (loop_bound s) in Hlb.
  rewrite length_app, Hlen6 in Hlen1. cbn [length] in Hlen1.
  assert (Hp4 : ptr mod 4 = 0) by (Z.div_mod_to_equations; lia).
  assert (Hr6 : ∀ k v, [form0; nil; nil; nil; nil; nil] !! k = Some v →
                       r6 !! (g + k)%nat = Some v).
  { intros k v Hk'. unfold r6. rewrite lookup_app_r by (unfold g; lia).
    replace (g + k - length (roots s))%nat with k by (unfold g; lia). done. }
  (* the prologue *)
  assert (Henter6 :
    (GC_PROTECT form0 ;;; GC_PROTECT nil ;;; GC_PROTECT nil ;;;
     GC_PROTECT nil ;;; GC_PROTECT nil ;;; GC_PROTECT nil ;;;
     set_root (top_result g) nil) s = Ok tt s6).
  { rewrite (bind_Ok (GC_PROTECT form0) _ s g (set_roots (roots s ++ [form0]) s))
      by (apply GC_PROTECT_intro; lia).
    do 5 (rewrite GC_PROTECT_bind by (rewrite ?length_app; cbn [length]; lia)).
    rewrite set_root_intro.
    2:{ cbn [roots set_roots]. rewrite ?length_app. cbn [length].
        unfold top_result. fold g. lia. }
    f_equal. cbn [roots set_roots]. rewrite <- !app_assoc. cbn [app].
    fold r6. rewrite list_insert_id; [done|].
    unfold top_result. by apply Hr6. }
  (* the sentinel frame *)
  set (h := head_make 1 4 15).
  set (q := vec_ptr (val_ptr_make ptr 2)).
  assert (Hv : val_ptr (val_ptr_make ptr 2) 2 = ptr).
  { unfold val_ptr, val_ptr_make, wrap. Z.div_mod_to_equations. lia. }
  destruct (lookup_lt_is_Some_2 (roots s1) (g + 6)) as [x Hx]; [lia|].
  set (m2 := <[padd q 0 := x]> (<[ptr := h]> (mem s1))).
  set (s7 := set_roots (take (g + 6) (roots s1)) (set_mem m2 s1)).
  assert (Hvm : vec_make 1 (fixnum_make boot_op_sum) s6
                = Ok (val_ptr_make ptr 2) s7).
  { unfold vec_make.
    rewrite (bind_Ok GC_BEGIN _ s6 (g + 6)%nat s6)
      by (unfold GC_BEGIN, get; cbn [roots s6 set_roots]; by rewrite Hlen6).
    rewrite (bind_Ok (GC_PROTECT _) _ s6 (g + 6)%nat sp).
    2:{ rewrite GC_PROTECT_intro by (cbn [roots s6 set_roots]; lia).
        cbn [roots s6 set_roots]. by rewrite Hlen6. }
    unfold vec_alloc. change (sint (1 + 1)) with 2.
    rewrite (bind_Ok (bind (mem_alloc 2) _) _ sp (val_ptr_make ptr 2)
               (set_mem (<[ptr := h]> (mem s1)) s1)).
    2:{ rewrite (bind_Ok _ _ _ _ _ Halloc).
        by rewrite (bind_Ok _ _ _ _ _ (store_intro ptr h s1 Hp4)). }
    change (Z.to_nat 1) with 1%nat. cbn [for_loop].
    rewrite (bind_Ok (bind (bind (get_root _) _) _) _ _ tt
               (set_mem m2 s1)); [done|].
    rewrite (bind_Ok (bind (get_root _) _) _ _ tt (set_mem m2 s1)); [done|].
    rewrite (bind_Ok _ _ _ _ _
               (get_root_intro (g + 6) x (set_mem (<[ptr := h]> (mem s1)) s1) Hx)).
    unfold vec_set. fold q.
    rewrite store_intro; [done|].
    apply padd_aligned. unfold q, vec_ptr. rewrite Hv. by apply padd_aligned. }
  assert (Hroot : ∀ k v, [form0; nil; nil; nil; nil; nil] !! k = Some v →
                         val_ptr_p v = false →
                         take (g + 6) (roots s1) !! (g + k)%nat = Some v).
  { intros k v Hk Hv'. pose proof (lookup_lt_Some _ _ _ Hk) as Hlt.
    cbn [length] in Hlt. rewrite lookup_take_lt by lia.
    apply Hkeep; [|done]. apply lookup_app_l_Some. by apply Hr6. }
  set (r7 := <[top_form g := val_ptr_make ptr 2]> (take (g + 6) (roots s1))).
  set (s8 := set_roots r7 (set_mem m2 s1)).
  assert (Hlen7 : length r7 = (g + 6)%nat).
  { unfold r7. rewrite length_insert, length_take. lia. }
  assert (Henter : boot_eval_enter form0 s = Ok g s8).
  { unfold boot_eval_enter.
    rewrite (bind_Ok GC_BEGIN _ s g s eq_refl).
    revert Henter6. unfold bind at 1 2 3 4 5 6. unfold bind at 1 2 3 4 5 6 7.
    destruct (GC_PROTECT form0 s) as [? sa| | |]; [|done..].
    destruct (GC_PROTECT nil sa) as [? sb| | |]; [|done..].
    destruct (GC_PROTECT nil sb) as [? sc| | |]; [|done..].
    destruct (GC_PROTECT nil sc) as [? sd| | |]; [|done..].
    destruct (GC_PROTECT nil sd) as [? se| | |]; [|done..].
    destruct (GC_PROTECT nil se) as [? sf| | |]; [|done..].
    intros ->.
    rewrite (bind_Ok _ _ _ _ _ Hvm).
    rewrite (bind_Ok _ _ _ _ _ (set_root_intro (top_form g) _ s7
               ltac:(cbn [roots s7 set_roots]; rewrite length_take;
                     unfold top_form; lia))).
    done. }
  assert (Hnil : val_ptr_p nil = false) by reflexivity.
  assert (Hroot7 : ∀ k v, [form0; nil; nil; nil; nil; nil] !! k = Some v →
                          val_ptr_p v = false → k ≠ 4%nat →
                          r7 !! (g + k)%nat = Some v).
  { intros k v Hk Hv' Hne. unfold r7, top_form.
    rewrite list_lookup_insert_ne by lia. by apply Hroot. }
  exists (set_roots (take g (<[value g := form0]> r7)) (set_mem m2 s1)).
  split.
  - unfold boot_eval. rewrite (bind_Ok _ _ _ _ _ Henter).
    unfold while. change (loop_bound s8) with (loop_bound s1). rewrite Hlb.
    destruct (loop_bound s) as [|[|fuel]]; [lia | lia |].
    cbn [while_fuel].
    assert (Hstep1 : boot_eval_step g (eval_form, Regs boot_op_sum 1) s8
                     = Ok (inl (use_value, Regs boot_op_sum 1))
                          (set_roots (<[value g := form0]> r7) (set_mem m2 s1))).
    { unfold boot_eval_step. cbn [fst snd]. unfold do_eval_form.
      rewrite (bind_Ok (bind (get_root _) _) _ s8 (use_value, Regs boot_op_sum 1)
                 (set_roots (<[value g := form0]> r7) (set_mem m2 s1)));
        [done|].
      rewrite (bind_Ok _ _ _ _ _ (get_root_intro (form g) form0 s8
                 ltac:(unfold form; rewrite <- (Nat.add_0_r g);
                       by apply Hroot7))).
      assert (pair_p form0 = false ∧ vec_p form0 = false) as [-> ->].
      { revert Hnp. unfold val_ptr_p, pair_p, vec_p.
        rewrite !val_tag_mod by lia. change (2 ^ 2) with 4.
        change (2 ^ 3) with 8.
        intros [H%negb_false_iff|H%negb_false_iff]%andb_false_iff;
          apply Z.eqb_eq in H; split; apply Z.eqb_neq;
          Z.div_mod_to_equations; lia. }
      rewrite (bind_Ok _ _ _ _ _ (set_root_intro (value g) form0 s8
                 ltac:(cbn [roots s8 set_roots]; rewrite Hlen7;
                       unfold value; lia))).
      done. }
    rewrite (bind_Ok _ _ _ _ _ Hstep1).
    cbn [while_fuel].
    rewrite (bind_Ok _ _ _ (inr form0)
               (set_roots (take g (<[value g := form0]> r7)) (set_mem m2 s1)));
      [done|].
    unfold boot_eval_step. cbn [fst snd]. unfold do_use_value.
    set (sv := set_roots (<[value g := form0]> r7) (set_mem m2 s1)).
    assert (Htr : roots sv !! top_result g = Some nil).
    { cbn [roots sv set_roots]. unfold value, top_result.
      rewrite list_lookup_insert_ne by lia. by apply Hroot7. }
    assert (Hval : roots sv !! value g = Some form0).
    { cbn [roots sv set_roots]. apply list_lookup_insert_eq.
      rewrite Hlen7. unfold value. lia. }
    rewrite (bind_Ok _ _ _ _ _ (get_root_intro _ _ sv Htr)).
    change (nil =? nil) with true. cbv iota.
    rewrite (bind_Ok _ _ _ _ _ (get_root_intro _ _ sv Hval)).
    done.
  - cbn [roots set_roots]. unfold r7, value, top_form.
    rewrite !take_insert_ge by lia. rewrite take_take. f_equal. lia.
Qed.

Lemma boot_eval_immediate_witness :
  ∃ s', boot_eval (fixnum_make 42) fresh_heap = Ok (fixnum_make 42) s' ∧
        roots s' = take (length (roots fresh_heap)) (roots fresh_heap_entering).
Proof.
  apply (boot_eval_immediate fresh_heap (fixnum_make 42) 0x20000000
           fresh_heap_entering).
  - exact fresh_heap_aligned.
  - vm_compute. lia.
  - vm_compute. lia.
  - reflexivity.
  - vm_compute. reflexivity.
Defined.

(** ** The reader: small-integer literals *)

Lemma decimal_ge (ds : list Z) :
  ∀ num, 0 ≤ num → Forall (λ d, 0 ≤ d ≤ 9) ds → num ≤ decimal num ds.
Proof.
  induction ds as [|d ds IH]; intros num Hnum Hds; cbn; [lia|].
  inversion_clear Hds as [|? ? Hd Hds'].
  etrans; [|apply IH]; [lia | lia | done].
Qed.

Lemma isdigit_digit_char (d : Z) : 0 ≤ d ≤ 9 → isdigit (digit_char d) = true.
Proof. intros Hd. unfold isdigit, digit_char. lia. Qed.

(** The loop over a run of digits whose value stays in range. *)
Lemma boot_read_to_fixnum_loop_digits (sign end_ : Z) (rest : list Z)
    (ds : list Z) :
  sign = 1 ∨ sign = -1 →
  ∀ (pre : list Z) (num : Z) (fuel : nat),
    Forall (λ d, 0 ≤ d ≤ 9) ds → 0 ≤ num →
    fixnum_min ≤ sign * decimal num ds ≤ fixnum_max →
    Z.of_nat (length pre + length ds) ≤ end_ →
    boot_read_to_fixnum_loop (length ds + fuel)
      (pre ++ map digit_char ds ++ rest) sign end_ (Z.of_nat (length pre)) num
    = boot_read_to_fixnum_loop fuel
        (pre ++ map digit_char ds ++ rest) sign end_
        (Z.of_nat (length pre + length ds)) (decimal num ds).
Proof.
  intros Hsign.
  induction ds as [|d ds IH]; intros pre num fuel Hds Hnum Hrange Hend.
  - cbn. by rewrite Nat.add_0_r.
  - inversion_clear Hds as [|? ? Hd Hds'].
    cbn [length Nat.add boot_read_to_fixnum_loop].
    cbn [length] in Hend.
    replace (Z.of_nat (length pre) <? end_) with true by (symmetry; lia).
    cbn [map app].
    rewrite Nat2Z.id, (list_lookup_middle pre _ _ _ eq_refl).
    rewrite isdigit_digit_char by done.
    pose proof (decimal_ge ds (10 * num + d) ltac:(lia) Hds') as Hge.
    change (decimal num (d :: ds)) with (decimal (10 * num + d) ds) in *.
    unfold fixnum_min, fixnum_max in *.
    assert (Hnum' : sint (10 * num + (digit_char d - 48)) = 10 * num + d).
    { unfold digit_char. rewrite sint_small; lia. }
    rewrite !Hnum'.
    rewrite (sint_small (sign * (10 * num + d))) by lia.
    replace (_ || _) with false by (symmetry; apply orb_false_iff; lia).
    specialize (IH (pre ++ [digit_char d]) (10 * num + d) fuel Hds').
    rewrite <- !app_assoc, length_app in IH. cbn [app length] in IH.
    cbn [map app].
    replace (Z.of_nat (length pre) + 1) with (Z.of_nat (length pre + 1)) by lia.
    rewrite IH by lia. do 2 f_equal. lia.
Qed.

Lemma boot_read_to_fixnum_first (c : Z) (tl : list Z) (n : Z) :
  boot_read_to_fixnum (c :: tl) n
  = let '(sign, ptr) :=
      if c =? 45 then (-1, 1) else if c =? 43 then (1, 1) else (1, 0) in
    if ptr =? n then Some bool_f
    else boot_read_to_fixnum_loop (S (Z.to_nat n)) (c :: tl) sign n ptr 0.
Proof. reflexivity. Qed.

(** X14.  [boot_read_to_fixnum] on a token that starts with an optional
    sign and at least one decimal digit, the digits denoting a number
    that with the sign lies between [fixnum_min] and [fixnum_max].  If
    the token ends after the digits, the result is that small integer,
    which [fixnum_num] decodes to the number.  If a character that is
    not a digit follows, the result is [bool_f] (the token is not a
    number).  If one more digit follows and takes the number out of the
    range without overflowing the [sword], the result is [unspec],
    whatever follows.  A sign alone gives [bool_f]. *)
Theorem boot_read_to_fixnum_decimal (sc : list Z) (sign : Z) (ds rest : list Z) :
  let tok := sc ++ map digit_char ds in
  let len := Z.of_nat (length tok) in
  (sc = [] ∧ sign = 1) ∨ (sc = [45] ∧ sign = -1) ∨ (sc = [43] ∧ sign = 1) →
  ds ≠ [] → Forall (λ d, 0 ≤ d ≤ 9) ds →
  fixnum_min ≤ sign * decimal 0 ds ≤ fixnum_max →
  boot_read_to_fixnum (tok ++ rest) len
  = Some (fixnum_make (sign * decimal 0 ds)) ∧
  fixnum_num (fixnum_make (sign * decimal 0 ds)) = sign * decimal 0 ds ∧
  (∀ c n, isdigit c = false → len < n →
          boot_read_to_fixnum (tok ++ c :: rest) n = Some bool_f) ∧
  (∀ d n, 0 ≤ d ≤ 9 → len < n →
          ¬ fixnum_min ≤ sign * (10 * decimal 0 ds + d) ≤ fixnum_max →
          10 * decimal 0 ds + d < 2 ^ 31 →
          boot_read_to_fixnum (tok ++ digit_char d :: rest) n = Some unspec) ∧
  (sc ≠ [] → boot_read_to_fixnum (sc ++ rest) 1 = Some bool_f).
Proof.
  intros tok len Hsc Hne Hds Hrange.
  assert (Hsign : sign = 1 ∨ sign = -1) by (destruct Hsc as [[]|[[]|[]]]; auto).
  pose proof (decimal_ge ds 0 ltac:(lia) Hds) as Hv.
  assert (Hlen : len = Z.of_nat (length sc + length ds)).
  { unfold len, tok. by rewrite length_app, length_map. }
  assert (Hlds : (0 < length ds)%nat) by (destruct ds; [done | cbn; lia]).
  (* the code before the loop *)
  assert (Hstart : ∀ tail n, len ≤ n →
            boot_read_to_fixnum (tok ++ tail) n
            = boot_read_to_fixnum_loop (S (Z.to_nat n)) (tok ++ tail) sign n
                (Z.of_nat (length sc)) 0).
  { intros tail n Hn. unfold tok.
    destruct ds as [|d ds']; [done|]. inversion_clear Hds as [|? ? Hd _].
    cbn [length] in Hlen.
    destruct Hsc as [[-> ->]|[[-> ->]|[-> ->]]]; cbn [app map length];
      cbn [length] in Hlen; rewrite boot_read_to_fixnum_first.
    - replace (digit_char d =? 45) with false
        by (symmetry; unfold digit_char; lia).
      replace (digit_char d =? 43) with false
        by (symmetry; unfold digit_char; lia).
      cbv iota. cbn [length] in Hlen.
      by replace (0 =? n) with false by (symmetry; lia).
    - change (45 =? 45) with true. cbv iota.
      by replace (1 =? n) with false by (symmetry; lia).
    - change (43 =? 45) with false. change (43 =? 43) with true. cbv iota.
      by replace (1 =? n) with false by (symmetry; lia). }
  (* the loop over the digits *)
  assert (Hloop : ∀ tail n, len ≤ n →
            boot_read_to_fixnum (tok ++ tail) n
            = boot_read_to_fixnum_loop (S (Z.to_nat n - length ds))
                (tok ++ tail) sign n len (decimal 0 ds)).
  { intros tail n Hn. rewrite Hstart by done. unfold tok.
    rewrite <- app_assoc.
    replace (S (Z.to_nat n)) with (length ds + S (Z.to_nat n - length ds))%nat
      by lia.
    rewrite (boot_read_to_fixnum_loop_digits sign n tail ds Hsign sc 0 _ Hds);
      [by rewrite Hlen | lia | done | lia]. }
  unfold fixnum_min, fixnum_max in *.
  split_and!.
  - rewrite Hloop by lia. cbn [boot_read_to_fixnum_loop].
    rewrite Z.ltb_irrefl, Z.eqb_refl. by rewrite sint_small by lia.
  - rewrite fixnum_num_make. unfold fixnum_wrap. Z.div_mod_to_equations. lia.
  - intros c n Hc Hn. rewrite Hloop by lia. cbn [boot_read_to_fixnum_loop].
    replace (len <? n) with true by (symmetry; lia).
    unfold len. rewrite Nat2Z.id, (list_lookup_middle tok _ _ _ eq_refl), Hc.
    fold len. by replace (len =? n) with false by (symmetry; lia).
  - intros d n Hd Hn Hout H31. rewrite Hloop by lia.
    unfold fixnum_min, fixnum_max in Hout.
    cbn [boot_read_to_fixnum_loop].
    replace (len <? n) with true by (symmetry; lia).
    unfold len. rewrite Nat2Z.id, (list_lookup_middle tok _ _ _ eq_refl).
    rewrite isdigit_digit_char by done.
    assert (Hnum' : sint (10 * decimal 0 ds + (digit_char d - 48))
                    = 10 * decimal 0 ds + d).
    { unfold digit_char. rewrite sint_small; lia. }
    rewrite !Hnum'. rewrite sint_small by lia.
    replace (_ || _) with true; [done|].
    symmetry. apply orb_true_iff. unfold fixnum_min, fixnum_max.
    destruct Hsign as [-> | ->]; lia.
  - intros Hsc'. destruct Hsc as [[-> ->]|[[-> ->]|[-> ->]]]; done.
Qed.

Lemma boot_read_to_fixnum_decimal_witness :
  boot_read_to_fixnum ([45; 52; 50] ++ [0; 0]) 3 = Some (fixnum_make (- 42)).
Proof.
  apply (boot_read_to_fixnum_decimal [45] (-1) [4; 2] [0; 0]).
  - right. left. split; reflexivity.
  - discriminate.
  - repeat constructor; lia.
  - vm_compute. split; discriminate.
Defined.

(** ** Collections whose result is known *)

(** Copying roots that are not pointers changes nothing. *)
Lemma copy_roots_no_pointers (s : state) (n : nat) :
  ∀ i : nat,
    (i + n ≤ length (roots s))%nat →
    (∀ j v, roots s !! j = Some v → val_ptr_p v = false) →
    for_loop n (Z.of_nat i)
      (λ i, v <-- get_root (Z.to_nat i) ;; v' <-- mem_copy v ;;
            set_root (Z.to_nat i) v') s
    = Ok tt s.
Proof.
  induction n as [|n IH]; intros i Hlen Hnp; cbn [for_loop]; [done|].
  destruct (lookup_lt_is_Some_2 (roots s) i) as [v Hv]; [lia|].
  assert (Hbody : (v <-- get_root (Z.to_nat (Z.of_nat i)) ;; v' <-- mem_copy v ;;
                   set_root (Z.to_nat (Z.of_nat i)) v') s = Ok tt s).
  { rewrite Nat2Z.id.
    rewrite (bind_Ok _ _ _ _ _ (get_root_intro i v s Hv)).
    rewrite (bind_Ok (mem_copy v) _ s v s)
      by (unfold mem_copy; by rewrite (Hnp i v Hv)).
    rewrite set_root_intro by (by eapply lookup_lt_Some).
    rewrite list_insert_id by done. by destruct s. }
  rewrite (bind_Ok _ _ _ _ _ Hbody).
  replace (Z.of_nat i + 1) with (Z.of_nat (S i)) by lia.
  apply IH; [lia | done].
Qed.

(** X15.  When no root is a pointer, everything in the heap is garbage
    and a collection reclaims all of it: if [malloc] returns a block
    [b] that is not null and [n] is at most [mem_size], [mem_gc n]
    returns [b] and leaves an empty heap that starts at [b], the roots
    as they were, and the memory as it was except that the old
    semispace is freed; so [mem_alloc n] returns [b] itself. *)
Theorem mem_gc_without_pointer_roots (s : state) (n : Z) :
  let b := malloc_base s (malloc_count s) in
  Forall (λ v, val_ptr_p v = false) (roots s) →
  (1 ≤ loop_bound s)%nat →
  b ≠ 0 → 0 ≤ b → b + 4 * mem_size < 2 ^ 32 → n ≤ mem_size →
  ∃ s',
    mem_gc n s = Ok b s' ∧
    mem_first s' = b ∧ mem_next s' = b ∧ mem_end s' = b + 4 * mem_size ∧
    roots s' = roots s ∧
    (∀ a, mem s' !! a
          = if bool_decide (mem_first s ≤ a < mem_first s + mem_size * 4)
            then None else mem s !! a) ∧
    mem_alloc n s
    = Ok b (set_mem_next (padd b (Z.land (sint (n + 1)) (Z.lnot 1))) s').
Proof.
  intros b Hroots Hfuel Hb Hb0 Hb32 Hn.
  set (s1 := set_new_space b b (padd b mem_size)
               (set_malloc_count (S (malloc_count s)) s)).
  assert (Hend : padd b mem_size = b + 4 * mem_size).
  { apply wrap_small. unfold mem_size in *. lia. }
  assert (Hbegin : mem_gc_begin s = Ok tt s1).
  { unfold mem_gc_begin.
    rewrite (bind_Ok (malloc _) _ s b (set_malloc_count (S (malloc_count s)) s) eq_refl).
    apply Z.eqb_neq in Hb. rewrite Hb.
    rewrite (bind_Ok (modify _) _ _ tt s1 eq_refl).
    rewrite (bind_Ok (get _) _ s1 (length (roots s)) s1 eq_refl).
    apply (copy_roots_no_pointers s1 (length (roots s)) 0); [done|].
    intros j v Hv. rewrite Forall_forall in Hroots. apply Hroots.
    by eapply list_elem_of_lookup_2. }
  assert (Hscan : mem_gc_scan s1 = Ok tt s1).
  { unfold mem_gc_scan.
    rewrite (bind_Ok (get mem_new_first) _ s1 b s1 eq_refl).
    unfold while. change (loop_bound s1) with (loop_bound s).
    destruct (loop_bound s) as [|fuel]; [lia|]. cbn [while_fuel].
    rewrite (bind_Ok (bind (get mem_new_next) _) _ s1 (inr tt) s1); [done|].
    rewrite (bind_Ok (get mem_new_next) _ s1 b s1 eq_refl).
    by rewrite Z.ltb_irrefl. }
  set (s' := set_new_space 0 b (padd b mem_size)
               (set_space b b (padd b mem_size)
                  (set_mem (filter (λ kv, ¬ (mem_first s ≤ kv.1
                                             < mem_first s + mem_size * 4))
                                   (mem s)) s1))).
  assert (Hgc : mem_gc n s = Ok b s').
  { unfold mem_gc. rewrite (bind_Ok _ _ _ _ _ Hbegin), (bind_Ok _ _ _ _ _ Hscan).
    unfold mem_gc_finish, free, bind, get, modify. cbn.
    fold b. replace (pdiff (padd b mem_size) b <? n) with false; [done|].
    symmetry. apply Z.ltb_ge. rewrite Hend. unfold pdiff.
    replace (b + 4 * mem_size - b) with (4 * mem_size) by lia.
    rewrite sint_small by (unfold mem_size; lia).
    rewrite Z.mul_comm, Z.quot_mul by lia. done. }
  exists s'. split_and!; try done.
  - intros a. cbn. case_bool_decide as Ha.
    + apply map_lookup_filter_None. right. intros w _. cbn. tauto.
    + destruct (mem s !! a) as [w|] eqn:Hw.
      * apply map_lookup_filter_Some. done.
      * apply map_lookup_filter_None. by left.
  - unfold mem_alloc.
    rewrite (bind_Ok (get mem_next) _ s (mem_next s) s eq_refl).
    rewrite (bind_Ok (get mem_end) _ s (mem_end s) s eq_refl).
    rewrite orb_true_r. by rewrite (bind_Ok _ _ _ _ _ Hgc).
Qed.

Lemma mem_gc_without_pointer_roots_witness :
  ∃ s',
    mem_gc 3 fresh_heap = Ok (malloc_base fresh_heap (malloc_count fresh_heap)) s' ∧
    mem_first s' = malloc_base fresh_heap (malloc_count fresh_heap) ∧
    mem_next s' = malloc_base fresh_heap (malloc_count fresh_heap) ∧
    mem_end s' = malloc_base fresh_heap (malloc_count fresh_heap) + 4 * mem_size ∧
    roots s' = roots fresh_heap ∧
    (∀ a, mem s' !! a
          = if bool_decide (mem_first fresh_heap ≤ a
                            < mem_first fresh_heap + mem_size * 4)
            then None else mem fresh_heap !! a) ∧
    mem_alloc 3 fresh_heap
    = Ok (malloc_base fresh_heap (malloc_count fresh_heap))
         (set_mem_next
            (padd (malloc_base fresh_heap (malloc_count fresh_heap))
                  (Z.land (sint (3 + 1)) (Z.lnot 1))) s').
Proof.
  apply (mem_gc_without_pointer_roots fresh_heap 3).
  - apply Forall_nil. exact I.
  - vm_compute. lia.
  - vm_compute. discriminate.
  - vm_compute. discriminate.
  - vm_compute. reflexivity.
  - vm_compute. discriminate.
Defined.

(** The layout of a pair, a vector or a byte vector follows from its
    first word: the size that [mem_copy] computes and the slots that
    [mem_scan] visits, [n] slots from word [off] on, which end where
    the object ends. *)
Lemma object_layout (s : state) (ptr h size : Z) :
  ptr mod 4 = 0 → mem s !! ptr = Some h → 0 ≤ h < 2 ^ 32 →
  h mod 64 ≠ 23 → h mod 8 ≠ 6 →
  mem_copy_size ptr s = Ok size s →
  0 < size < 2 ^ 29 ∧
  ∃ off n,
    0 ≤ off ∧ 0 ≤ n ∧ off + n = size ∧ (h mod 64 = 7 → n = 0) ∧
    ∀ s2 ptr2,
      ptr2 mod 4 = 0 → mem s2 !! ptr2 = Some h →
      mem_copy_size ptr2 s2 = Ok size s2 ∧
      (0 ≤ ptr2 → ptr2 + 4 * (size + 1) < 2 ^ 32 →
       mem_scan_extent ptr2 s2 = Ok (ptr2 + 4 * off, n) s2).
Proof.
  intros Hal Hh Hh32 Hnc Hnr Hsz.
  unfold mem_copy_size in Hsz.
  rewrite (bind_Ok (get indeterminate) _ s (indeterminate s) s eq_refl) in Hsz.
  rewrite (bind_Ok _ _ _ _ _ (pair_ptr_p_word s ptr h Hal Hh)) in Hsz.
  set (b := if h mod 8 =? 7 then (h mod 64 =? 39) || (h mod 64 =? 55)
            else negb (h mod 8 =? 6)) in *.
  destruct b eqn:Hb.
  { injection Hsz as <-. split; [lia|]. exists 0, 2.
    split_and!; try lia.
    { intros H7. exfalso. unfold b in Hb.
      replace (h mod 8 =? 7) with true in Hb
        by (symmetry; apply Z.eqb_eq; Z.div_mod_to_equations; lia).
      apply orb_true_iff in Hb as [Hb|Hb]; apply Z.eqb_eq in Hb; lia. }
    intros s2 ptr2 Hal2 Hh2.
    unfold mem_copy_size, mem_scan_extent.
    rewrite (bind_Ok (get indeterminate) _ s2 (indeterminate s2) s2 eq_refl).
    rewrite !(bind_Ok _ _ _ _ _ (pair_ptr_p_word s2 ptr2 h Hal2 Hh2)).
    fold b. rewrite Hb. by rewrite Z.add_0_r. }
  rewrite (bind_Ok _ _ _ _ _ (vec_ptr_p_word s ptr h Hal Hh)) in Hsz.
  destruct (Z.eqb_spec (h mod 16) 15) as [Hv|Hv].
  { rewrite (bind_Ok _ _ _ _ _ (vec_ptr_len_word s ptr h Hal Hh)) in Hsz.
    assert (Hl : 0 ≤ h / 16 < 2 ^ 28) by (Z.div_mod_to_equations; lia).
    rewrite sint_small in Hsz by lia. injection Hsz as <-.
    split; [lia|]. exists 1, (h / 16).
    split_and!; try lia; try (intros; exfalso; Z.div_mod_to_equations; lia).
    intros s2 ptr2 Hal2 Hh2.
    unfold mem_copy_size, mem_scan_extent.
    rewrite (bind_Ok (get indeterminate) _ s2 (indeterminate s2) s2 eq_refl).
    rewrite !(bind_Ok _ _ _ _ _ (pair_ptr_p_word s2 ptr2 h Hal2 Hh2)).
    fold b. rewrite Hb.
    rewrite !(bind_Ok _ _ _ _ _ (vec_ptr_p_word s2 ptr2 h Hal2 Hh2)).
    replace (h mod 16 =? 15) with true by (symmetry; by apply Z.eqb_eq).
    rewrite !(bind_Ok _ _ _ _ _ (vec_ptr_len_word s2 ptr2 h Hal2 Hh2)).
    rewrite sint_small, signed_small by lia. split; [done|].
    intros H0 H32. by rewrite padd_small by lia. }
  rewrite (bind_Ok _ _ _ _ _ (bytev_ptr_p_word s ptr h Hal Hh)) in Hsz.
  destruct (Z.eqb_spec (h mod 64) 7) as [Hb7|Hb7].
  { rewrite (bind_Ok _ _ _ _ _ (bytev_ptr_len_word s ptr h Hal Hh)) in Hsz.
    assert (Hl : 0 ≤ h / 64 < 2 ^ 26) by (Z.div_mod_to_equations; lia).
    rewrite (wrap_small (h / 64 + 3)) in Hsz by lia.
    assert (Hw : 0 < (h / 64 + 3) / 4 + 1 < 2 ^ 25)
      by (Z.div_mod_to_equations; lia).
    rewrite sint_small in Hsz by lia. injection Hsz as <-.
    split; [lia|]. exists ((h / 64 + 3) / 4 + 1), 0.
    split_and!; try lia; try (intros; exfalso; Z.div_mod_to_equations; lia).
    intros s2 ptr2 Hal2 Hh2.
    unfold mem_copy_size, mem_scan_extent.
    rewrite (bind_Ok (get indeterminate) _ s2 (indeterminate s2) s2 eq_refl).
    rewrite !(bind_Ok _ _ _ _ _ (pair_ptr_p_word s2 ptr2 h Hal2 Hh2)).
    fold b. rewrite Hb.
    rewrite !(bind_Ok _ _ _ _ _ (vec_ptr_p_word s2 ptr2 h Hal2 Hh2)).
    replace (h mod 16 =? 15) with false by (symmetry; by apply Z.eqb_neq).
    rewrite !(bind_Ok _ _ _ _ _ (bytev_ptr_p_word s2 ptr2 h Hal2 Hh2)).
    replace (h mod 64 =? 7) with true by (symmetry; by apply Z.eqb_eq).
    rewrite !(bind_Ok _ _ _ _ _ (bytev_ptr_len_word s2 ptr2 h Hal2 Hh2)).
    rewrite (wrap_small (h / 64 + 3)) by lia.
    rewrite sint_small by lia.
    rewrite (wrap_small ((h / 64 + 3) / 4 + 1)) by lia.
    split; [done|]. intros H0 H32. by rewrite padd_small by lia. }
  exfalso. unfold b in Hb.
  destruct (Z.eqb_spec (h mod 8) 7).
  - apply orb_false_iff in Hb as [H1 H2]. apply Z.eqb_neq in H1, H2.
    Z.div_mod_to_equations. lia.
  - apply negb_false_iff, Z.eqb_eq in Hb. done.
Qed.

(** [mem_copy] of a pointer to an object that has not been copied, with
    the state it leaves. *)
Lemma mem_copy_run (v : Z) (s : state) (size : Z) :
  let ptr := val_ptr_any_tag v in
  let new := mem_new_next s in
  val_ptr_p v = true →
  mem_follow_fwd_ptr ptr s = Ok ptr s →
  mem_copy_size ptr s = Ok size s →
  0 < size < 2 ^ 29 →
  new mod 8 = 0 → 0 ≤ new → new + 4 * (size + 1) < 2 ^ 32 →
  mem_copy v s
  = Ok (val_ptr_make new (val_tag v 3))
       (set_mem (<[ptr := val_ptr_make new 1]>
                   (memcpy_words (Z.to_nat size) new ptr (mem s)))
                (set_mem_new_next (new + 4 * round_up_even size) s)).
Proof.
  intros ptr new Hp Hfw Hsz Hsize Hn8 Hn0 Hn32.
  assert (Hal : ptr mod 4 = 0).
  { unfold ptr, val_ptr_any_tag. rewrite land_lnot_7. Z.div_mod_to_equations. lia. }
  assert (Hbump : padd new (Z.land (sint (size + 1)) (Z.lnot 1))
                  = new + 4 * round_up_even size).
  { rewrite round_up_even_land by lia. apply padd_small.
    unfold round_up_even. Z.div_mod_to_equations. lia. }
  assert (Hwords : wrap (size * 4) / 4 = size).
  { rewrite wrap_small by lia. Z.div_mod_to_equations. lia. }
  unfold mem_copy. rewrite Hp. cbn [negb]. fold ptr.
  rewrite (bind_Ok _ _ _ _ _ Hfw), Z.eqb_refl. cbn [negb].
  rewrite (bind_Ok _ _ _ _ _ Hsz).
  rewrite (bind_Ok (get mem_new_next) _ s new s eq_refl).
  unfold bind at 1. unfold modify at 1. rewrite Hbump.
  unfold bind at 1. unfold memcpy.
  replace (new mod 4 =? 0) with true
    by (symmetry; apply Z.eqb_eq; Z.div_mod_to_equations; lia).
  replace (ptr mod 4 =? 0) with true by (symmetry; by apply Z.eqb_eq).
  cbn [andb]. unfold mem_install_fwd_ptr. rewrite Hwords.
  by rewrite (bind_Ok _ _ _ _ _ (store_intro ptr _ _ Hal)).
Qed.

Lemma for_loop_app (body : Z → M unit) (a b : nat) :
  ∀ (i : Z) (s : state),
    for_loop (a + b) i body s
    = (for_loop a i body ;;; for_loop b (i + Z.of_nat a) body) s.
Proof.
  induction a as [|a IH]; intros i s.
  - cbn [Nat.add for_loop]. unfold bind, ret. by rewrite Z.add_0_r.
  - cbn [Nat.add for_loop]. unfold bind.
    destruct (body i s) as [[] s1| | |]; [|done..].
    specialize (IH (i + 1) s1). unfold bind in IH. rewrite IH.
    by replace (i + 1 + Z.of_nat a) with (i + Z.of_nat (S a)) by lia.
Qed.

(** Copying a range of roots that holds no pointers changes nothing. *)
Lemma copy_roots_range (s : state) (n : nat) :
  ∀ i : nat,
    (i + n ≤ length (roots s))%nat →
    (∀ j w, (i ≤ j < i + n)%nat → roots s !! j = Some w → val_ptr_p w = false) →
    for_loop n (Z.of_nat i)
      (λ i, v <-- get_root (Z.to_nat i) ;; v' <-- mem_copy v ;;
            set_root (Z.to_nat i) v') s
    = Ok tt s.
Proof.
  induction n as [|n IH]; intros i Hlen Hnp; cbn [for_loop]; [done|].
  destruct (lookup_lt_is_Some_2 (roots s) i) as [v Hv]; [lia|].
  assert (Hbody : (v <-- get_root (Z.to_nat (Z.of_nat i)) ;; v' <-- mem_copy v ;;
                   set_root (Z.to_nat (Z.of_nat i)) v') s = Ok tt s).
  { rewrite Nat2Z.id.
    rewrite (bind_Ok _ _ _ _ _ (get_root_intro i v s Hv)).
    rewrite (bind_Ok (mem_copy v) _ s v s)
      by (apply mem_copy_not_ptr; apply (Hnp i v); [lia | done]).
    rewrite set_root_intro by (by eapply lookup_lt_Some).
    rewrite list_insert_id by done. by destruct s. }
  rewrite (bind_Ok _ _ _ _ _ Hbody).
  replace (Z.of_nat i + 1) with (Z.of_nat (S i)) by lia.
  apply IH; [lia|]. intros j w Hj. apply Hnp. lia.
Qed.

(** X16.  A collection preserves a live object.  Let one root be a
    pointer to a pair, a vector or a byte vector of [size] words in the
    old semispace, whose words are initialised and, unless it is a byte
    vector, are no pointers, and let no other root be a pointer.  If
    [malloc] returns a fresh 8-aligned block [b] clear of the old
    semispace, the object and the [n] words asked for fit, and the loop
    bound allows two turns of the scan loop, then [mem_gc n] returns the
    address after the copy; the root is [b] with the tag it had; the
    other roots are as they were; the [size] words at [b] are those of
    the object; and the heap is the block [b] up to the address
    returned. *)
Theorem mem_gc_preserves_rooted_object (s : state) (n : Z) (i : nat)
    (v h size : Z) :
  let ptr := val_ptr_any_tag v in
  let b := malloc_base s (malloc_count s) in
  let v' := val_ptr_make b (val_tag v 3) in
  roots s !! i = Some v → val_ptr_p v = true →
  (∀ j w, j ≠ i → roots s !! j = Some w → val_ptr_p w = false) →
  mem s !! ptr = Some h → 0 ≤ h < 2 ^ 32 → h mod 64 ≠ 23 → h mod 8 ≠ 6 →
  mem_copy_size ptr s = Ok size s →
  (∀ k, 0 ≤ k < size →
        ∃ x, mem s !! (ptr + 4 * k) = Some x ∧
             (h mod 64 ≠ 7 → val_ptr_p x = false)) →
  b ≠ 0 → b mod 8 = 0 → 0 ≤ b → b + 4 * mem_size < 2 ^ 32 →
  0 ≤ mem_first s → mem_first s + 4 * mem_size < 2 ^ 32 →
  mem_first s ≤ ptr → ptr + 4 * size ≤ mem_first s + 4 * mem_size →
  b + 4 * mem_size ≤ mem_first s ∨ mem_first s + 4 * mem_size ≤ b →
  0 ≤ n → n + round_up_even size ≤ mem_size →
  (2 ≤ loop_bound s)%nat →
  ∃ s',
    mem_gc n s = Ok (b + 4 * round_up_even size) s' ∧
    roots s' = <[i := v']> (roots s) ∧
    val_ptr_any_tag v' = b ∧ val_tag v' 3 = val_tag v 3 ∧
    (∀ k, 0 ≤ k < size → mem s' !! (b + 4 * k) = mem s !! (ptr + 4 * k)) ∧
    mem_first s' = b ∧ mem_next s' = b + 4 * round_up_even size.
Proof.
  intros ptr b v' Hroot Hp Hothers Hh Hh32 Hnc Hnr Hsz Hwords
    Hb Hb8 Hb0 Hb32 Hf0 Hf32 Hlo Hhi Hdisj Hn Hroom Hfuel.
  assert (Hal : ptr mod 4 = 0).
  { unfold ptr, val_ptr_any_tag. rewrite land_lnot_7. Z.div_mod_to_equations. lia. }
  assert (Hp8 : ptr mod 8 = 0).
  { unfold ptr, val_ptr_any_tag. rewrite land_lnot_7. Z.div_mod_to_equations. lia. }
  destruct (object_layout s ptr h size Hal Hh Hh32 Hnc Hnr Hsz)
    as (Hsize & off & cnt & Hoff & Hcnt & Hsum & Hbytev & Hlayout).
  assert (Hrus : size ≤ round_up_even size ≤ size + 1)
    by (unfold round_up_even; Z.div_mod_to_equations; lia).
  assert (Hrus2 : round_up_even size mod 2 = 0)
    by (unfold round_up_even; Z.div_mod_to_equations; lia).
  assert (Htag : 0 ≤ val_tag v 3 < 8).
  { rewrite val_tag_mod by lia. apply Z.mod_pos_bound. lia. }
  assert (Hms : mem_size = 217000) by reflexivity.
  assert (Htop : b + 4 * (size + 1) < 2 ^ 32)
    by (Z.div_mod_to_equations; lia).
  assert (Hv' : v' = b + val_tag v 3).
  { unfold v', val_ptr_make. apply wrap_small. lia. }
  assert (Hend : padd b mem_size = b + 4 * mem_size).
  { apply wrap_small. lia. }
  (* the first word is no forwarding pointer *)
  assert (Hh1 : h mod 8 ≠ 1).
  { destruct (Hwords 0) as (x & Hx & Hnp); [lia|].
    rewrite Z.add_0_r in Hx. rewrite Hh in Hx. injection Hx as <-.
    destruct (Z.eq_dec (h mod 64) 7) as [H7|H7];
      [Z.div_mod_to_equations; lia|].
    specialize (Hnp H7). unfold val_ptr_p in Hnp.
    rewrite !val_tag_mod in Hnp by lia.
    change (2 ^ 2) with 4 in Hnp. change (2 ^ 3) with 8 in Hnp.
    apply andb_false_iff in Hnp as [Hnp|Hnp];
      apply negb_false_iff, Z.eqb_eq in Hnp; Z.div_mod_to_equations; lia. }
  (* the new semispace *)
  set (s1 := set_new_space b b (padd b mem_size)
               (set_malloc_count (S (malloc_count s)) s)).
  assert (Hfw : mem_follow_fwd_ptr ptr s1 = Ok ptr s1).
  { unfold mem_follow_fwd_ptr.
    rewrite (bind_Ok _ _ _ _ _ (load_intro ptr h s1 Hal Hh)).
    rewrite (bind_Ok (get mem_new_first) _ s1 b s1 eq_refl).
    rewrite (bind_Ok (get mem_new_end) _ s1 (padd b mem_size) s1 eq_refl).
    rewrite val_tag_mod by lia. change (2 ^ 3) with 8.
    by replace (h mod 8 =? 1) with false by (symmetry; by apply Z.eqb_neq). }
  destruct (Hlayout s1 ptr Hal Hh) as [Hsz1 _].
  assert (Hcopy : mem_copy v s1
                  = Ok v' (set_mem (<[ptr := val_ptr_make b 1]>
                                      (memcpy_words (Z.to_nat size) b ptr (mem s)))
                             (set_mem_new_next (b + 4 * round_up_even size) s1))).
  { by apply (mem_copy_run v s1 size). }
  destruct (memcpy_words_spec (Z.to_nat size) b ptr (mem s)) as [Hin Hout];
    [lia | lia | lia | lia | lia |].
  rewrite Z2Nat.id in Hin, Hout by lia.
  set (m2 := <[ptr := val_ptr_make b 1]> (memcpy_words (Z.to_nat size) b ptr (mem s)))
    in *.
  assert (Hcopied : ∀ k, 0 ≤ k < size → m2 !! (b + 4 * k) = mem s !! (ptr + 4 * k)).
  { intros k Hk. unfold m2. rewrite lookup_insert_ne by lia. by apply Hin. }
  set (s2 := set_mem m2 (set_mem_new_next (b + 4 * round_up_even size) s1)) in *.
  set (s3 := set_roots (<[i := v']> (roots s)) s2).
  (* the roots *)
  pose proof (lookup_lt_Some _ _ _ Hroot) as Hi.
  assert (Hbegin : mem_gc_begin s = Ok tt s3).
  { unfold mem_gc_begin.
    rewrite (bind_Ok (malloc _) _ s b (set_malloc_count (S (malloc_count s)) s) eq_refl).
    apply Z.eqb_neq in Hb. rewrite Hb.
    rewrite (bind_Ok (modify _) _ _ tt s1 eq_refl).
    rewrite (bind_Ok (get _) _ s1 (length (roots s)) s1 eq_refl).
    replace (length (roots s)) with (i + S (length (roots s) - S i))%nat by lia.
    rewrite for_loop_app.
    rewrite (bind_Ok _ _ _ tt s1).
    2:{ apply (copy_roots_range s1 i 0); [cbn; lia|].
        intros j w Hj. apply Hothers. lia. }
    cbn [for_loop]. rewrite Z.add_0_l, Nat2Z.id.
    rewrite (bind_Ok _ _ s1 tt s3).
    2:{ rewrite (bind_Ok _ _ _ _ _ (get_root_intro i v s1 Hroot)).
        rewrite (bind_Ok _ _ _ _ _ Hcopy).
        by rewrite set_root_intro by done. }
    replace (Z.of_nat i + 1) with (Z.of_nat (S i)) by lia.
    apply copy_roots_range.
    - cbn [roots s3 set_roots]. rewrite length_insert. lia.
    - intros j w Hj. cbn [roots s3 set_roots].
      rewrite list_lookup_insert_ne by lia. apply Hothers. lia. }
  (* the scan *)
  assert (Hh3 : mem s3 !! b = Some h).
  { cbn [mem s3 s2 set_roots set_mem]. specialize (Hcopied 0 ltac:(lia)).
    rewrite !Z.add_0_r in Hcopied. by rewrite Hcopied. }
  destruct (Hlayout s3 b) as [_ Hext3];
    [Z.div_mod_to_equations; lia | done |].
  specialize (Hext3 ltac:(lia) ltac:(lia)).
  assert (Hscan1 : mem_scan b s3 = Ok (b + 4 * round_up_even size) s3).
  { unfold mem_scan. rewrite (bind_Ok _ _ _ _ _ Hext3).
    rewrite (bind_Ok _ _ s3 tt s3).
    - unfold ret. f_equal.
      rewrite !padd_small by (rewrite ?padd_small; lia).
      rewrite land_lnot_7. unfold round_up_even. Z.div_mod_to_equations. lia.
    - apply scan_loop_no_pointers. intros j Hj.
      rewrite padd_small by lia. split; [Z.div_mod_to_equations; lia|].
      destruct (Hwords (off + j)) as (x & Hx & Hnp); [lia|].
      exists x. split.
      + cbn [mem s3 s2 set_roots set_mem].
        replace (b + 4 * off + 4 * j) with (b + 4 * (off + j)) by lia.
        rewrite Hcopied by lia. done.
      + apply Hnp. intros H7. specialize (Hbytev H7). lia. }
  assert (Hscan : mem_gc_scan s3 = Ok tt s3).
  { unfold mem_gc_scan.
    rewrite (bind_Ok (get mem_new_first) _ s3 b s3 eq_refl).
    unfold while. change (loop_bound s3) with (loop_bound s).
    destruct (loop_bound s) as [|[|fuel]]; [lia | lia |]. cbn [while_fuel].
    rewrite (bind_Ok _ _ s3 (inl (b + 4 * round_up_even size)) s3).
    2:{ rewrite (bind_Ok (get mem_new_next) _ s3 (b + 4 * round_up_even size) s3 eq_refl).
        replace (b <? b + 4 * round_up_even size) with true by (symmetry; lia).
        by rewrite (bind_Ok _ _ _ _ _ Hscan1). }
    rewrite (bind_Ok _ _ s3 (inr tt) s3); [done|].
    rewrite (bind_Ok (get mem_new_next) _ s3 (b + 4 * round_up_even size) s3 eq_refl).
    by rewrite Z.ltb_irrefl. }
  (* the old semispace is released *)
  set (s' := set_new_space 0 (b + 4 * round_up_even size) (padd b mem_size)
               (set_space b (b + 4 * round_up_even size) (padd b mem_size)
                  (set_mem (filter (λ kv, ¬ (mem_first s ≤ kv.1
                                             < mem_first s + mem_size * 4))
                                   m2) s3))).
  exists s'. split_and!.
  - unfold mem_gc. rewrite (bind_Ok _ _ _ _ _ Hbegin), (bind_Ok _ _ _ _ _ Hscan).
    unfold mem_gc_finish, free, bind, get, modify. cbn.
    fold b. fold m2.
    replace (pdiff (padd b mem_size) (b + 4 * round_up_even size) <? n)
      with false; [done|].
    symmetry. apply Z.ltb_ge. rewrite Hend. unfold pdiff.
    replace (b + 4 * mem_size - (b + 4 * round_up_even size))
      with ((mem_size - round_up_even size) * 4) by lia.
    rewrite sint_small by lia. rewrite Z.quot_mul by lia. lia.
  - done.
  - rewrite Hv'. unfold val_ptr_any_tag. rewrite land_lnot_7.
    Z.div_mod_to_equations. lia.
  - rewrite Hv', (val_tag_mod (b + _)) by lia. change (2 ^ 3) with 8.
    Z.div_mod_to_equations. lia.
  - intros k Hk. cbn [mem s' set_new_space set_space set_mem].
    rewrite <- Hcopied by done.
    destruct (m2 !! (b + 4 * k)) as [w|] eqn:Hw.
    + apply map_lookup_filter_Some. split; [done|]. cbn. lia.
    + apply map_lookup_filter_None. by left.
  - done.
  - done.
Qed.

Lemma mem_gc_preserves_rooted_object_witness :
  ∃ s',
    mem_gc 2 rooted_vector_heap
    = Ok (malloc_base rooted_vector_heap (malloc_count rooted_vector_heap)
          + 4 * round_up_even 4) s' ∧
    roots s'
    = <[0%nat := val_ptr_make
                   (malloc_base rooted_vector_heap (malloc_count rooted_vector_heap))
                   (val_tag 0x20000002 3)]> (roots rooted_vector_heap) ∧
    val_ptr_any_tag
      (val_ptr_make
         (malloc_base rooted_vector_heap (malloc_count rooted_vector_heap))
         (val_tag 0x20000002 3))
    = malloc_base rooted_vector_heap (malloc_count rooted_vector_heap) ∧
    val_tag
      (val_ptr_make
         (malloc_base rooted_vector_heap (malloc_count rooted_vector_heap))
         (val_tag 0x20000002 3)) 3
    = val_tag 0x20000002 3 ∧
    (∀ k, 0 ≤ k < 4 →
          mem s' !! (malloc_base rooted_vector_heap
                       (malloc_count rooted_vector_heap) + 4 * k)
          = mem rooted_vector_heap !! (val_ptr_any_tag 0x20000002 + 4 * k)) ∧
    mem_first s'
    = malloc_base rooted_vector_heap (malloc_count rooted_vector_heap) ∧
    mem_next s'
    = malloc_base rooted_vector_heap (malloc_count rooted_vector_heap)
      + 4 * round_up_even 4.
Proof.
  apply (mem_gc_preserves_rooted_object rooted_vector_heap 2 0 0x20000002
           (head_make 3 4 15) 4).
  - vm_compute. reflexivity.
  - reflexivity.
  - intros [|j] w Hj Hw; [done|]. vm_compute in Hw. discriminate.
  - vm_compute. reflexivity.
  - vm_compute. split; [discriminate | reflexivity].
  - vm_compute. discriminate.
  - vm_compute. discriminate.
  - vm_compute. reflexivity.
  - intros k Hk.
    assert (k = 0 ∨ k = 1 ∨ k = 2 ∨ k = 3) as [-> | [-> | [-> | ->]]] by lia.
    + exists (head_make 3 4 15). split; [vm_compute; reflexivity | reflexivity].
    + exists (fixnum_make 7). split; [vm_compute; reflexivity | reflexivity].
    + exists (fixnum_make 7). split; [vm_compute; reflexivity | reflexivity].
    + exists (fixnum_make 7). split; [vm_compute; reflexivity | reflexivity].
  - vm_compute. discriminate.
  - vm_compute. reflexivity.
  - vm_compute. discriminate.
  - vm_compute. reflexivity.
  - vm_compute. discriminate.
  - vm_compute. reflexivity.
  - vm_compute. discriminate.
  - vm_compute. discriminate.
  - left. vm_compute. discriminate.
  - lia.
  - vm_compute. discriminate.
  - vm_compute. lia.
Defined.

(** ** The reader: finishing a construct *)

Lemma cell_addresses (p q : Z) :
  p mod 8 = 0 → q mod 8 = 0 → 0 ≤ p → p + 4 < 2 ^ 32 → 0 ≤ q → q + 4 < 2 ^ 32 →
  p mod 4 = 0 ∧ padd p 1 mod 4 = 0 ∧ padd p 1 = p + 4 ∧ padd p 1 ≠ p ∧
  (p ≠ q → padd p 1 ≠ q ∧ padd p 1 ≠ padd q 1 ∧ p ≠ padd q 1).
Proof.
  intros. unfold padd, wrap. split_and!; Z.div_mod_to_equations; lia.
Qed.

Lemma cells_ok_cons c cells :
  cells_ok (c :: cells) ↔
  (pair_ptr c.1 ∉ (λ c, pair_ptr c.1) <$> cells) ∧
  (c.1 ≠ nil ∧ pair_ptr c.1 mod 8 = 0 ∧ 0 ≤ pair_ptr c.1 ∧
   pair_ptr c.1 + 4 < 2 ^ 32) ∧
  cells_ok cells.
Proof.
  unfold cells_ok. rewrite fmap_cons, NoDup_cons, Forall_cons. tauto.
Qed.

Lemma cells_ok_app_cons acc c cells :
  cells_ok (acc ++ c :: cells) → cells_ok ((c :: acc) ++ cells).
Proof.
  unfold cells_ok. intros [Hnd Hall]. split.
  - revert Hnd. rewrite !fmap_app, !fmap_cons. cbn [app].
    intros Hnd. apply NoDup_app in Hnd as (H1 & H2 & H3).
    apply NoDup_cons in H3 as [H3 H4].
    apply NoDup_cons. split.
    + rewrite elem_of_app. intros [H|H]; [by apply (H2 _ H); left | done].
    + apply NoDup_app. split_and!; [done | | done].
      intros x Hx Hx'. apply (H2 x Hx). by right.
  - apply Forall_app in Hall as [Ha Hc]. apply Forall_cons in Hc as [Hc Hcs].
    cbn [app]. apply Forall_cons. split; [done|]. by apply Forall_app.
Qed.

(** A store outside the cells of a list leaves the list. *)
Lemma heap_list_frame (m m' : gmap Z Z) (cells : list (Z * Z)) :
  ∀ v tl,
    (∀ c, c ∈ cells →
          m' !! pair_ptr c.1 = m !! pair_ptr c.1 ∧
          m' !! padd (pair_ptr c.1) 1 = m !! padd (pair_ptr c.1) 1) →
    heap_list m v cells tl → heap_list m' v cells tl.
Proof.
  induction cells as [|c cells IH]; intros v tl Hsame H; [done|].
  destruct H as (Hv & Hcar & next & Hcdr & Hrest).
  destruct (Hsame c) as [H1 H2]; [by left|].
  cbn [heap_list]. rewrite H1, H2. split_and!; [done..|].
  exists next. split; [done|]. apply IH; [|done].
  intros c' Hc'. apply Hsame. by right.
Qed.

Lemma heap_list_set_cdr (m : gmap Z Z) (p x : Z) (cells : list (Z * Z)) v tl :
  pair_ptr p mod 8 = 0 → 0 ≤ pair_ptr p → pair_ptr p + 4 < 2 ^ 32 →
  pair_ptr p ∉ (λ c, pair_ptr c.1) <$> cells →
  Forall (λ c, c.1 ≠ nil ∧ pair_ptr c.1 mod 8 = 0 ∧
               0 ≤ pair_ptr c.1 ∧ pair_ptr c.1 + 4 < 2 ^ 32) cells →
  heap_list m v cells tl →
  heap_list (<[padd (pair_ptr p) 1 := x]> m) v cells tl.
Proof.
  intros Hp8 Hp0 Hp32 Hnotin Hall. apply heap_list_frame.
  intros c Hc. rewrite Forall_forall in Hall.
  destruct (Hall c Hc) as (_ & Hc8 & Hc0 & Hc32).
  assert (Hne : pair_ptr p ≠ pair_ptr c.1).
  { intros Heq. apply Hnotin. rewrite Heq.
    by apply (list_elem_of_fmap_2 (λ c, pair_ptr c.1)). }
  destruct (cell_addresses (pair_ptr p) (pair_ptr c.1)) as (_ & _ & _ & _ & Hd);
    try done.
  destruct (Hd Hne) as (H1 & H2 & H3).
  by rewrite !lookup_insert_ne.
Qed.

(** The [while] loop of [boot_read_finish] reverses the list in place. *)
Lemma boot_read_finish_step_loop (cells : list (Z * Z)) :
  ∀ (acc : list (Z * Z)) (s : state) (x y n tl : Z) (fuel : nat),
    cells_ok (acc ++ cells) →
    heap_list (mem s) y cells nil →
    heap_list (mem s) x acc tl →
    (length cells < fuel)%nat →
    0 ≤ n → n + Z.of_nat (length cells) < 2 ^ 31 →
    ∃ m' v,
      while_fuel fuel boot_read_finish_step (x, y, n) s
      = Ok (v, n + Z.of_nat (length cells)) (set_mem m' s) ∧
      heap_list m' v (rev cells ++ acc) tl ∧
      (∀ a, (∀ c, c ∈ cells → a ≠ padd (pair_ptr c.1) 1) → m' !! a = mem s !! a).
Proof.
  induction cells as [|c cells IH]; intros acc s x y n tl fuel Hok Hy Hx Hfuel Hn Hn'.
  - destruct fuel as [|fuel]; [cbn in Hfuel; lia|].
    cbn in Hy. subst y. exists (mem s), x. split_and!.
    + cbn [while_fuel]. unfold boot_read_finish_step at 1.
      rewrite Z.eqb_refl. cbn [negb]. unfold bind, ret. cbn [length].
      rewrite Z.add_0_r. by destruct s.
    + done.
    + done.
  - destruct fuel as [|fuel]; [cbn in Hfuel; lia|]. cbn [length] in Hfuel, Hn'.
    destruct Hy as (-> & Hcar & next & Hcdr & Hrest).
    pose proof (cells_ok_app_cons _ _ _ Hok) as Hok'.
    cbn [app] in Hok'. apply cells_ok_cons in Hok' as (Hnotin & (Hnn & H8 & H0 & H32) & Hok'').
    destruct Hok'' as [_ Hall]. apply Forall_app in Hall as [Hall_acc Hall_cells].
    rewrite fmap_app, elem_of_app in Hnotin.
    destruct (cell_addresses (pair_ptr c.1) (pair_ptr c.1))
      as (Hc4 & Hd4 & _ & Hdc & _); try done.
    set (m1 := <[padd (pair_ptr c.1) 1 := x]> (mem s)).
    assert (Hstep : boot_read_finish_step (x, c.1, n) s
                    = Ok (inl (c.1, next, sint (n + 1))) (set_mem m1 s)).
    { unfold boot_read_finish_step. apply Z.eqb_neq in Hnn. rewrite Hnn. cbn [negb].
      unfold cdr, set_cdr.
      rewrite (bind_Ok _ _ _ _ _ (load_intro _ _ s Hd4 Hcdr)).
      by rewrite (bind_Ok _ _ _ _ _ (store_intro _ x s Hd4)). }
    cbn [while_fuel]. rewrite (bind_Ok _ _ _ _ _ Hstep).
    rewrite sint_small by lia.
    destruct (IH (c :: acc) (set_mem m1 s) c.1 next (n + 1) tl fuel)
      as (m' & v & Hrun & Hlist & Hframe).
    + by apply cells_ok_app_cons.
    + change (heap_list m1 next cells nil). apply heap_list_set_cdr; auto.
    + change (heap_list m1 c.1 (c :: acc) tl). split; [done|]. split.
      * unfold m1. by rewrite lookup_insert_ne.
      * exists x. split; [apply lookup_insert_eq|].
        apply heap_list_set_cdr; auto.
    + lia.
    + lia.
    + lia.
    + exists m', v. split_and!.
      * rewrite Hrun. cbn [length].
        replace (n + 1 + Z.of_nat (length cells))
          with (n + Z.of_nat (S (length cells))) by lia.
        reflexivity.
      * cbn [rev]. by rewrite <- app_assoc.
      * intros a Ha. rewrite Hframe.
        -- cbn [mem set_mem]. unfold m1. apply lookup_insert_ne.
           intros Heq. apply (Ha c); [by left | done].
        -- intros c' Hc'. apply Ha. by right.
Qed.

(** X17.  [boot_read_finish] reverses the accumulated elements in place
    and hands them to the finisher of the construct.  For a frame whose
    [car] is the index of an entry of [boot_read_constructs] and whose
    [cdr] is a list of distinct pairs, holding the elements last added
    first: the finisher is called on a list made of the same pairs
    in reverse order, so that the elements are in the order in which
    they were added, and on its length; when the element added before
    the last is the dot token, the last element is the tail of the list
    and the two are left out; and no word other than the [cdr]s of the
    pairs has changed. *)
Theorem boot_read_finish_reverses (s : state) (stack f y a dot : Z)
    (c : boot_read_construct) (fin : Z → Z → list Z → M Z)
    (cells : list (Z * Z)) :
  let body := (boot_read_finish_parts dot cells).1 in
  let tl := (boot_read_finish_parts dot cells).2 in
  car stack s = Ok f s → cdr f s = Ok y s → car f s = Ok a s →
  0 ≤ fixnum_num a →
  boot_read_constructs !! Z.to_nat (fixnum_num a) = Some c →
  finisher c = Some fin →
  roots s !! boot_dot_token = Some dot →
  heap_list (mem s) y cells nil → cells_ok cells →
  (∀ c, c ∈ cells → pair_ptr f ≠ padd (pair_ptr c.1) 1) →
  (length cells < loop_bound s)%nat → Z.of_nat (length cells) < 2 ^ 31 →
  ∃ (m' : gmap Z Z) (v : Z),
    heap_list m' v (rev body) tl ∧
    (∀ p, (∀ c, c ∈ cells → p ≠ padd (pair_ptr c.1) 1) → m' !! p = mem s !! p) ∧
    boot_read_finish stack s
    = fin v (Z.of_nat (length body)) (data c) (set_mem m' s).
Proof.
  intros body tl Hstack Hy Ha Hi Hc Hfin Hdot Hlist Hok Hf Hfuel Hlen.
  (* the test for a dotted list and the code that follows it *)
  assert (Hstart : ∃ y',
    (dotted <-- boot_read_dotted y ;;
     if dotted : bool
     then (x <-- car y ;; d <-- cdr y ;; y <-- cdr d ;; ret (x, y))
     else ret (nil, y)) s = Ok (tl, y') s ∧
    heap_list (mem s) y' body nil ∧ cells_ok body ∧
    (∀ c, c ∈ body → c ∈ cells) ∧ (length body ≤ length cells)%nat).
  { unfold body, tl, boot_read_finish_parts.
    destruct cells as [|c1 [|c2 cs]].
    - cbn in Hlist. subst y. exists nil. by split_and!.
    - destruct Hlist as (-> & Hcar & next & Hcdr & ->).
      apply cells_ok_cons in Hok as (_ & (Hnn & H8 & H0 & H32) & _).
      destruct (cell_addresses (pair_ptr c1.1) (pair_ptr c1.1))
        as (Hc4 & Hd4 & _); try done.
      assert (Hd : boot_read_dotted c1.1 s = Ok false s).
      { unfold boot_read_dotted. apply Z.eqb_neq in Hnn. rewrite Hnn.
        unfold cdr. rewrite (bind_Ok _ _ _ _ _ (load_intro _ _ s Hd4 Hcdr)).
        by rewrite Z.eqb_refl. }
      exists c1.1. split_and!; try done.
      + by rewrite (bind_Ok _ _ _ _ _ Hd).
      + cbn. eauto.
      + split; [apply NoDup_singleton|]. by apply Forall_singleton.
    - pose proof Hlist as Hlist0.
      destruct Hlist as (-> & Hcar1 & next & Hcdr1 & -> & Hcar2 & next2 & Hcdr2 & Hrest).
      pose proof Hok as Hok0.
      apply cells_ok_cons in Hok as (_ & (Hnn1 & H81 & H01 & H321) & Hok).
      pose proof Hok as Hok1.
      apply cells_ok_cons in Hok as (_ & (Hnn2 & H82 & H02 & H322) & Hok).
      destruct (cell_addresses (pair_ptr c1.1) (pair_ptr c1.1))
        as (Hc41 & Hd41 & _); try done.
      destruct (cell_addresses (pair_ptr c2.1) (pair_ptr c2.1))
        as (Hc42 & Hd42 & _); try done.
      assert (Hd : boot_read_dotted c1.1 s = Ok (c2.2 =? dot) s).
      { unfold boot_read_dotted. apply Z.eqb_neq in Hnn1, Hnn2.
        rewrite Hnn1. unfold cdr, car.
        rewrite (bind_Ok _ _ _ _ _ (load_intro _ _ s Hd41 Hcdr1)), Hnn2.
        rewrite (bind_Ok _ _ _ _ _ (load_intro _ _ s Hd41 Hcdr1)).
        rewrite (bind_Ok _ _ _ _ _ (load_intro _ _ s Hc42 Hcar2)).
        by rewrite (bind_Ok _ _ _ _ _ (get_root_intro _ _ s Hdot)). }
      rewrite (bind_Ok _ _ _ _ _ Hd).
      destruct (c2.2 =? dot).
      + exists next2. split_and!.
        * unfold cdr, car.
          rewrite (bind_Ok _ _ _ _ _ (load_intro _ _ s Hc41 Hcar1)).
          rewrite (bind_Ok _ _ _ _ _ (load_intro _ _ s Hd41 Hcdr1)).
          by rewrite (bind_Ok _ _ _ _ _ (load_intro _ _ s Hd42 Hcdr2)).
        * done.
        * done.
        * intros c' Hc'. by do 2 right.
        * cbn. lia.
      + exists c1.1. by split_and!. }
  destruct Hstart as (y' & Hstart & Hbody & Hokb & Hsub & Hlenb).
  destruct (boot_read_finish_step_loop body [] s tl y' 0 tl (loop_bound s))
    as (m' & v & Hrun & Hrev & Hframe);
    [done | done | done | lia | lia | lia |].
  rewrite app_nil_r in Hrev.
  exists m', v. split_and!.
  - done.
  - intros p Hp. apply Hframe. intros c' Hc'. apply Hp. by apply Hsub.
  - unfold boot_read_finish.
    rewrite (bind_Ok _ _ _ _ _ Hstack), (bind_Ok _ _ _ _ _ Hy).
    apply bind_Ok_inv in Hstart as (dotted & s0 & Hd & Hxy).
    rewrite (bind_Ok _ _ _ _ _ Hd), (bind_Ok _ _ _ _ _ Hxy). cbn [fst snd].
    rewrite (bind_Ok (while _ _) _ s (v, 0 + Z.of_nat (length body)) (set_mem m' s))
      by exact Hrun.
    apply load_Ok in Ha as (_ & Hf4 & Ha).
    assert (Ha' : car f (set_mem m' s) = Ok a (set_mem m' s)).
    { unfold car. apply load_intro; [done|]. cbn [mem set_mem].
      rewrite Hframe; [done|]. intros c' Hc'. apply Hf. by apply Hsub. }
    rewrite (bind_Ok _ _ _ _ _ Ha').
    unfold boot_read_construct_ref.
    replace (fixnum_num a <? 0) with false by (symmetry; lia).
    rewrite Hc. unfold bind at 1. unfold ret at 1. rewrite Hfin.
    cbn [fst snd]. by rewrite Z.add_0_l.
Qed.

Lemma boot_read_finish_reverses_witness :
  ∃ (m' : gmap Z Z) (v : Z),
    heap_list m' v
      (rev [(0x20000021, fixnum_make 3); (0x20000011, fixnum_make 2);
            (0x20000019, fixnum_make 1)]) nil ∧
    (∀ p, (∀ c, c ∈ [(0x20000021, fixnum_make 3); (0x20000011, fixnum_make 2);
                     (0x20000019, fixnum_make 1)] →
                p ≠ padd (pair_ptr c.1) 1) →
          m' !! p = mem reading_heap !! p) ∧
    boot_read_finish 0x20000001 reading_heap
    = boot_read_finish_list v 3 [] (set_mem m' reading_heap).
Proof.
  apply (boot_read_finish_reverses reading_heap 0x20000001 0x20000009
           0x20000021 (fixnum_make 1) nil
           (Construct 40 41 (Some boot_read_finish_list) [])
           boot_read_finish_list
           [(0x20000021, fixnum_make 3); (0x20000011, fixnum_make 2);
            (0x20000019, fixnum_make 1)]).
  - vm_compute. reflexivity.
  - vm_compute. reflexivity.
  - vm_compute. reflexivity.
  - vm_compute. discriminate.
  - reflexivity.
  - reflexivity.
  - vm_compute. reflexivity.
  - split; [reflexivity|]. split; [vm_compute; reflexivity|].
    exists 0x20000011. split; [vm_compute; reflexivity|].
    split; [reflexivity|]. split; [vm_compute; reflexivity|].
    exists 0x20000019. split; [vm_compute; reflexivity|].
    split; [reflexivity|]. split; [vm_compute; reflexivity|].
    exists nil. split; [vm_compute; reflexivity|]. reflexivity.
  - split.
    + apply (bool_decide_unpack _). vm_compute. reflexivity.
    + repeat apply Forall_cons_2; [| | | apply Forall_nil_2];
        (split; [vm_compute; discriminate|]);
        (split; [vm_compute; reflexivity|]);
        (split; [vm_compute; discriminate | vm_compute; reflexivity]).
  - apply Forall_forall.
    repeat apply Forall_cons_2; [| | | apply Forall_nil_2];
      vm_compute; discriminate.
  - vm_compute. lia.
  - vm_compute. reflexivity.
Defined.

(** ** The evaluator at a variable reference *)

(** [env_up] walks down a list of frames. *)
Lemma env_up_heap_list (s : state) (k : nat) :
  ∀ (e : Z) (cells : list (Z * Z)) (tl : Z) (c : Z * Z),
    heap_list (mem s) e cells tl → cells_ok cells →
    cells !! k = Some c →
    env_up k e s = Ok c.1 s ∧ car c.1 s = Ok c.2 s.
Proof.
  induction k as [|k IH]; intros e cells tl c Hlist Hok Hc.
  - destruct cells as [|c0 cells]; [done|]. injection Hc as ->.
    destruct Hlist as (-> & Hcar & _).
    apply cells_ok_cons in Hok as (_ & (_ & H8 & H0 & H32) & _).
    split; [done|]. unfold car. apply load_intro; [|done].
    Z.div_mod_to_equations. lia.
  - destruct cells as [|c0 cells]; [done|]. cbn in Hc.
    destruct Hlist as (-> & _ & next & Hcdr & Hrest).
    apply cells_ok_cons in Hok as (_ & (_ & H8 & H0 & H32) & Hok).
    destruct (IH next cells tl c Hrest Hok Hc) as [Hup Hcar].
    split; [|done]. cbn [env_up]. unfold cdr.
    rewrite (bind_Ok _ _ _ next s); [done|].
    apply load_intro; [|done]. by apply padd_aligned; Z.div_mod_to_equations; lia.
Qed.

(** X18.  A form that is a pair [(up . n)] is a reference to a variable:
    when the environment is a list of frames, [eval_form] walks [up]
    pairs down the list, takes the frame there and reads its slot
    [n + 2]; the value goes to [value] and control to [use_value], with
    the registers and the rest of the state as they were. *)
Theorem boot_eval_reference (g : nat) (r : regs) (s : state)
    (f a d e x : Z) (cells : list (Z * Z)) (tl : Z) (c : Z * Z) :
  roots s !! form g = Some f → pair_p f = true →
  car f s = Ok a s → cdr f s = Ok d s →
  roots s !! env g = Some e →
  heap_list (mem s) e cells tl → cells_ok cells →
  cells !! Z.to_nat (fixnum_num a) = Some c →
  vec_ref c.2 (sint (fixnum_num d + 2)) s = Ok x s →
  (value g < length (roots s))%nat →
  boot_eval_step g (eval_form, r) s
  = Ok (inl (use_value, r)) (set_roots (<[value g := x]> (roots s)) s).
Proof.
  intros Hf Hp Ha Hd He Hlist Hok Hc Hx Hval.
  destruct (env_up_heap_list s _ e cells tl c Hlist Hok Hc) as [Hup Hcar].
  unfold boot_eval_step. cbn [fst snd]. unfold do_eval_form.
  rewrite (bind_Ok _ _ s (use_value, r)
             (set_roots (<[value g := x]> (roots s)) s)); [done|].
  rewrite (bind_Ok _ _ _ _ _ (get_root_intro _ _ s Hf)), Hp.
  rewrite (bind_Ok _ _ _ _ _ Ha), (bind_Ok _ _ _ _ _ Hd).
  rewrite (bind_Ok _ _ _ _ _ (get_root_intro _ _ s He)).
  rewrite (bind_Ok _ _ _ _ _ Hup), (bind_Ok _ _ _ _ _ Hcar).
  rewrite (bind_Ok _ _ _ _ _ Hx).
  by rewrite (bind_Ok _ _ _ _ _ (set_root_intro _ x s Hval)).
Qed.

Lemma boot_eval_reference_witness :
  boot_eval_step 0 (eval_form, Regs boot_op_sum 1) reference_heap
  = Ok (inl (use_value, Regs boot_op_sum 1))
       (set_roots (<[value 0 := fixnum_make 5]> (roots reference_heap))
                  reference_heap).
Proof.
  apply (boot_eval_reference 0 (Regs boot_op_sum 1) reference_heap
           0x10000001 (fixnum_make 0) (fixnum_make 0) 0x10000021
           (fixnum_make 5) [(0x10000021, 0x10000012)] nil
           (0x10000021, 0x10000012)).
  - vm_compute. reflexivity.
  - reflexivity.
  - vm_compute. reflexivity.
  - vm_compute. reflexivity.
  - vm_compute. reflexivity.
  - split; [reflexivity|]. split; [vm_compute; reflexivity|].
    exists nil. split; [vm_compute; reflexivity | reflexivity].
  - split.
    + apply (bool_decide_unpack _). vm_compute. reflexivity.
    + apply Forall_cons_2; [|apply Forall_nil_2].
      split; [vm_compute; discriminate|].
      split; [vm_compute; reflexivity|].
      split; [vm_compute; discriminate | vm_compute; reflexivity].
  - reflexivity.
  - vm_compute. reflexivity.
  - vm_compute. lia.
Defined.

(** ** The reader: starting a construct *)

(** [cons] returns a pair and keeps the heap aligned. *)
Lemma cons_aligned (a d : Z) (s : state) (v : Z) (s' : state) :
  heap_aligned s → cons a d s = Ok v s' →
  heap_aligned s' ∧ pair_p v = true ∧ 0 ≤ v < 2 ^ 32 ∧
  length (roots s') = length (roots s).
Proof.
  intros (Hal & H8 & H32) H. unfold cons in H.
  apply bind_Ok_inv in H as (g & s0 & [= <- <-] & H).
  apply bind_Ok_inv in H as (ia & sa & Ha & H).
  unfold GC_PROTECT in Ha.
  destruct (decide (length (roots s) < 200)%nat) as [Hra|]; [|done].
  injection Ha as <- <-.
  apply bind_Ok_inv in H as (id & sd & Hd & H).
  unfold GC_PROTECT in Hd.
  destruct (decide _) as [Hrd|] in Hd; [|done].
  injection Hd as <- <-.
  apply bind_Ok_inv in H as (p & s1' & Hp & H).
  unfold pair_alloc in Hp.
  apply bind_Ok_inv in Hp as (ptr & s1 & Halloc & [= <- <-]).
  destruct (mem_alloc_post 2
              (set_roots ((roots s ++ [a]) ++ [d]) (set_roots (roots s ++ [a]) s))
              ptr s1 Hal H8 H32 Halloc)
    as ((Hp8 & Hp32 & Hmb & Hlen & _) & Hnext & _).
  apply bind_Ok_inv in H as (x & s2 & Hx & H).
  apply get_root_Ok in Hx as [-> _].
  apply bind_Ok_inv in H as ([] & s3 & Hs3 & H).
  unfold set_car, store in Hs3.
  destruct (_ =? 0); [|done]. injection Hs3 as <-.
  apply bind_Ok_inv in H as (y & s4 & Hy & H).
  apply get_root_Ok in Hy as [-> _].
  apply bind_Ok_inv in H as ([] & s5 & Hs5 & H).
  unfold set_cdr, store in Hs5.
  destruct (_ =? 0); [|done]. injection Hs5 as <-.
  apply bind_Ok_inv in H as ([] & s6 & [= <-] & [= <- <-]).
  cbn in Hmb, Hlen. rewrite !length_app in Hlen. cbn in Hlen.
  assert (Hv : val_ptr_make ptr 1 = ptr + 1).
  { unfold val_ptr_make. apply wrap_small. Z.div_mod_to_equations. lia. }
  split; [|split; [|split]].
  - split; [|split].
    + unfold malloc_aligned. cbn. rewrite Hmb. exact Hal.
    + cbn. rewrite Hnext, land_lnot_1. unfold padd, wrap.
      Z.div_mod_to_equations. lia.
    + cbn. rewrite Hnext. apply wrap_range.
  - unfold pair_p. rewrite Hv, val_tag_mod by lia. change (2 ^ 3) with 8.
    apply Z.eqb_eq. Z.div_mod_to_equations. lia.
  - rewrite Hv. Z.div_mod_to_equations. lia.
  - cbn. rewrite length_take. lia.
Qed.

(** The openers of the table, and the push of a frame for entry [i]. *)
Lemma boot_read_openers :
  opener <$> boot_read_constructs = [32; 40; 91; 39; 1; 2; 0].
Proof. reflexivity. Qed.

Lemma boot_read_start_from_push (i : Z) (stack : Z) (s : state) (v : Z)
    (s' : state) :
  heap_aligned s →
  (gc_start <-- GC_BEGIN ;;
   stack <-- GC_PROTECT stack ;;
   y <-- cons (fixnum_make i) nil ;;
   s <-- get_root stack ;;
   c <-- cons y s ;;
   set_root stack c ;;;
   s <-- get_root stack ;;
   GC_END gc_start ;;;
   ret s) s = Ok v s' →
  pair_p v = true ∧ v ≠ unspec ∧ length (roots s') = length (roots s).
Proof.
  intros Hal H.
  apply bind_Ok_inv in H as (g & s0 & [= <- <-] & H).
  apply bind_Ok_inv in H as (ix & sa & Ha & H).
  unfold GC_PROTECT in Ha.
  destruct (decide (length (roots s) < 200)%nat) as [Hra|]; [|done].
  injection Ha as <- <-.
  apply bind_Ok_inv in H as (y & s1 & Hy & H).
  assert (Hal1 : heap_aligned (set_roots (roots s ++ [stack]) s)) by exact Hal.
  destruct (cons_aligned _ _ _ _ _ Hal1 Hy) as (Hal2 & _ & _ & Hlen1).
  cbn [roots set_roots] in Hlen1. rewrite length_app in Hlen1. cbn in Hlen1.
  apply bind_Ok_inv in H as (st & s2 & Hst & H).
  apply get_root_Ok in Hst as [-> Hst].
  apply bind_Ok_inv in H as (c & s3 & Hc & H).
  destruct (cons_aligned _ _ _ _ _ Hal2 Hc) as (_ & Hpair & _ & Hlen3).
  apply bind_Ok_inv in H as ([] & s4 & Hset & H).
  apply set_root_Ok in Hset as [-> Hlt].
  apply bind_Ok_inv in H as (w & s5 & Hw & H).
  apply get_root_Ok in Hw as [-> Hw]. cbn [roots set_roots] in Hw.
  rewrite list_lookup_insert_eq in Hw by done. injection Hw as <-.
  apply bind_Ok_inv in H as ([] & s6 & [= <-] & [= <- <-]).
  split_and!.
  - done.
  - intros ->. discriminate Hpair.
  - cbn. rewrite length_take, length_insert. lia.
Qed.

Lemma boot_read_start_from_step (fuel : nat) (i stack c : Z) (s : state)
    (entry : boot_read_construct) :
  0 ≤ i → boot_read_constructs !! Z.to_nat i = Some entry →
  boot_read_start_from (S fuel) i stack c s
  = if opener entry =? 0 then Ok unspec s
    else if opener entry =? c
         then (gc_start <-- GC_BEGIN ;;
               stack <-- GC_PROTECT stack ;;
               y <-- cons (fixnum_make i) nil ;;
               s <-- get_root stack ;;
               c <-- cons y s ;;
               set_root stack c ;;;
               s <-- get_root stack ;;
               GC_END gc_start ;;;
               ret s) s
         else boot_read_start_from fuel (i + 1) stack c s.
Proof.
  intros Hi Hentry. cbn [boot_read_start_from]. unfold boot_read_construct_ref.
  replace (i <? 0) with false by (symmetry; lia). rewrite Hentry.
  unfold bind at 1. unfold ret at 1.
  by destruct (opener entry =? 0), (opener entry =? c).
Qed.

Ltac boot_read_start_step :=
  erewrite boot_read_start_from_step by (first [lia | reflexivity]);
  cbn [opener];
  match goal with
  | |- context [if ?a =? 0 then _ else _] =>
      let t := eval vm_compute in (a =? 0) in
      change (a =? 0) with t; cbv iota
  end.

(** X19.  [boot_read_start] answers [unspec] exactly for the characters
    that open no construct.  If [opener] is zero or is not the opener of
    an entry of [boot_read_constructs], the result is [unspec] and the
    state is as it was (nothing is allocated).  If it is the opener of
    an entry, then on an aligned heap every result is a pair, the new
    stack, which is not [unspec], and the root stack is as long as
    before; so the test [stack == unspec] of [boot_read] detects an
    unexpected delimiter and nothing else. *)
Theorem boot_read_start_spec (stack c : Z) (s : state) :
  (¬ (c ≠ 0 ∧ c ∈ opener <$> boot_read_constructs) →
   boot_read_start stack c s = Ok unspec s) ∧
  (c ≠ 0 → c ∈ opener <$> boot_read_constructs → heap_aligned s →
   ∀ v s', boot_read_start stack c s = Ok v s' →
           pair_p v = true ∧ v ≠ unspec ∧
           length (roots s') = length (roots s)).
Proof.
  rewrite boot_read_openers. split.
  - intros Hnot.
    assert (Hne : ∀ o, o ≠ 0 → o ∈ [32; 40; 91; 39; 1; 2; 0] → (o =? c) = false).
    { intros o Ho Hin. apply Z.eqb_neq. intros ->. by apply Hnot. }
    unfold boot_read_start. cbn [length boot_read_constructs].
    do 6 (boot_read_start_step;
          rewrite Hne by (first [done | repeat constructor]);
          change (0 + 1) with 1; change (1 + 1) with 2; change (2 + 1) with 3;
          change (3 + 1) with 4; change (4 + 1) with 5; change (5 + 1) with 6).
    by boot_read_start_step.
  - intros Hc Hin Hal v s'. unfold boot_read_start.
    cbn [length boot_read_constructs].
    repeat (apply elem_of_cons in Hin as [->|Hin]);
      [..| by apply elem_of_nil in Hin]; try done;
      repeat (boot_read_start_step;
              match goal with
              | |- context [if ?a =? ?b then _ else _] =>
                  let t := eval vm_compute in (a =? b) in
                  change (a =? b) with t; cbv iota
              end;
              change (0 + 1) with 1; change (1 + 1) with 2;
              change (2 + 1) with 3; change (3 + 1) with 4;
              change (4 + 1) with 5);
      by apply boot_read_start_from_push.
Qed.

Lemma boot_read_start_spec_witness :
  boot_read_start nil 41 fresh_heap = Ok unspec fresh_heap.
Proof.
  apply (proj1 (boot_read_start_spec nil 41 fresh_heap)).
  apply (bool_decide_unpack _). vm_compute. reflexivity.
Defined.
